(** * mkxp filesystem: the RGSS archive backend and the file-name facade

    A shallow embedding of [src/filesystem.cpp]: the keystream recurrence,
    the entry I/O handle (read, seek, duplicate), the entry-table parser,
    the archiver entry points and the facade's name completion.

    Conventions.
    - A [quint32]/[quint64] value is a [Z]; every place where the C++
      arithmetic wraps is written out with [u32]/[u64].
    - A byte is a [Z] in [0, 256); a store into a [quint8] or [char] is
      written [u8].
    - A [QByteArray] key and a C string are the list of their bytes, the
      terminating NUL left out.
    - [QHash] is a [gmap]. *)

From Stdlib Require Import ZArith Lia List Ascii.
From stdpp Require Import base option list gmap strings.
Import ListNotations.

Open Scope Z_scope.

(** ** Machine integers *)

Definition u8 (z : Z) : Z := z mod 2 ^ 8.
Definition u32 (z : Z) : Z := z mod 2 ^ 32.
Definition u64 (z : Z) : Z := z mod 2 ^ 64.

(** A [quint64] returned through [PHYSFS_sint64]. *)
Definition sint64 (z : Z) : Z :=
  if u64 z <? 2 ^ 63 then u64 z else u64 z - 2 ^ 64.

Definition RGSS_HEADER_1 : Z := 0x53534752.
Definition RGSS_HEADER_2 : Z := 0x1004441.
Definition RGSS_MAGIC : Z := 0xDEADCAFE.

(** ** Keystream generator *)

(** [magic = magic * 7 + 3] on a [quint32]. *)
Definition nextMagic (magic : Z) : Z := u32 (magic * 7 + 3).

(** [advanceMagic(magic)]: the returned word is the old one, the second
    component is the updated reference argument. *)
Definition advanceMagic (magic : Z) : Z * Z := (magic, nextMagic magic).

(** The recurrence applied [n] times. *)
Definition magicAfter (n : Z) (magic : Z) : Z :=
  Nat.iter (Z.to_nat n) nextMagic magic.

(** ** Data model *)

Record RGSS_entryData := mkEntryData {
  offset : Z;      (* qint64 *)
  size : Z;        (* quint64 *)
  startMagic : Z   (* quint32 *)
}.

(** The raw byte source behind a [PHYSFS_Io*] handed out by PhysFS: the
    bytes of the backing file and a read position. *)
Record RawIo := mkRawIo {
  content : list Z;
  pos : Z
}.

(** An entry handle.  [io] is a pointer member: [None] stands for a pointer
    that no constructor or later assignment has initialised. *)
Record RGSS_entryHandle := mkHandle {
  data : RGSS_entryData;
  currentMagic : Z;
  currentOffset : Z;
  io : option RawIo
}.

(** [RGSS_entryHandle(const RGSS_entryData &data)]. *)
Definition handle_of_data (d : RGSS_entryData) : RGSS_entryHandle :=
  {| data := d; currentMagic := startMagic d; currentOffset := 0;
     io := None |}.

(** [RGSS_entryHandle(const RGSS_entryHandle &other)]: the initialiser list
    names [data], [currentMagic] and [currentOffset]; [io] is not in it. *)
Definition handle_copy (other : RGSS_entryHandle) : RGSS_entryHandle :=
  {| data := data other; currentMagic := currentMagic other;
     currentOffset := currentOffset other; io := None |}.

Record RGSS_archiveData := mkArchiveData {
  archiveIo : RawIo;
  entryHash : gmap (list Z) RGSS_entryData;
  dirHash : gmap (list Z) bool
}.

(** ** The raw stream operations the code calls through [PHYSFS_Io] *)

Definition raw_seek (r : RawIo) (p : Z) : RawIo :=
  {| content := content r; pos := p |}.

Definition raw_tell (r : RawIo) : Z := pos r.

(** A duplicate is a stream of its own over the same bytes. *)
Definition raw_duplicate (r : RawIo) : RawIo :=
  {| content := content r; pos := 0 |}.

(** ** Outcomes of the parser *)

(** [Done]: the code ran to its end.  [Overrun i]: the code indexed the
    512-byte [nameBuf] at [i], past its end.  [NoFuel]: the bound given to
    the model's loop was used up. *)
Inductive outcome (A : Type) : Type :=
  | Done (a : A)
  | Overrun (i : Z)
  | NoFuel.
Arguments Done {A} a.
Arguments Overrun {A} i.
Arguments NoFuel {A}.

Definition obind {A B} (m : outcome A) (f : A -> outcome B) : outcome B :=
  match m with
  | Done a => f a
  | Overrun i => Overrun i
  | NoFuel => NoFuel
  end.

Notation "x <-- m ; k" := (obind m (fun x => k))
  (at level 20, m at level 100, k at level 200, only parsing).
Notation "' p <-- m ; k" := (obind m (fun x => let 'p := x in k))
  (at level 20, p pattern, m at level 100, k at level 200, only parsing).

Definition NAMEBUF_SIZE : Z := 512.

(** [nameBuf[i] = v]. *)
Definition nameBuf_store (i v : Z) (buf : list Z) : outcome (list Z) :=
  if i <? NAMEBUF_SIZE then Done (<[Z.to_nat i := v]> buf) else Overrun i.

(** [nameBuf[i]] read. *)
Definition nameBuf_load (i : Z) (buf : list Z) : outcome Z :=
  if i <? NAMEBUF_SIZE then Done (default 0 (buf !! Z.to_nat i)) else Overrun i.

(** The C string that starts at the head of a buffer. *)
Fixpoint cstr (buf : list Z) : list Z :=
  match buf with
  | [] => []
  | c :: rest => if c =? 0 then [] else c :: cstr rest
  end.

(** The locals of the loop of [RGSS_openArchive], the static [nameBuf] and
    the two hashes of the archive being built. *)
Record ParseState := mkParseState {
  ps_magic : Z;
  ps_io : RawIo;
  ps_nameBuf : list Z;
  ps_entryHash : gmap (list Z) RGSS_entryData;
  ps_dirHash : gmap (list Z) bool
}.

(** What one run of the body of the parse loop does: it breaks, leaving the
    stream where the failed [readUint32] left it, or it records an entry. *)
Inductive ParseStep : Type :=
  | StepBreak (r : RawIo)
  | StepEntry (nameLen : Z) (key : list Z) (e : RGSS_entryData)
              (st : ParseState).

Section Indeterminate.

(** The value found in a local that the code reads although the preceding
    raw read did not fill it (a read at the end of the stream).  One value
    stands for all such bytes; in the code each of them is indeterminate on
    its own.  It reaches only reads past the end of the stream. *)
Variable garbage : Z.

(** [io->read(io, &byte, 1)] into an uninitialised local: the byte under the
    position when there is one, and the position moves past it. *)
Definition raw_read1 (r : RawIo) : Z * RawIo :=
  match content r !! Z.to_nat (pos r) with
  | Some b => (b, raw_seek r (pos r + 1))
  | None => (garbage, r)
  end.

(** ** Entry I/O handle *)

(** One run of the body of the loop of [RGSS_ioRead]: returns the decoded
    byte, the next [o], the magic and the raw stream. *)
Definition read_body (o magic : Z) (raw : RawIo) : Z * Z * Z * RawIo :=
  let bitOffset := u8 (0x8 * (o mod 4)) in
  let magicByte := u8 (Z.land (Z.shiftr magic bitOffset) 0xFF) in
  let '(byte, raw') := raw_read1 raw in
  let out := u8 (Z.lxor byte magicByte) in
  let o' := u64 (o + 1) in
  let magic' := if o' mod 4 =? 0 then snd (advanceMagic magic) else magic in
  (out, o', magic', raw').

(** [for (quint64 o = offs; o < offs + toRead;) ...]: [bound] is
    [offs + toRead]; the bytes written to the buffer come out in order. *)
Fixpoint read_loop (fuel : nat) (bound o magic : Z) (raw : RawIo)
  : list Z * Z * Z * RawIo :=
  match fuel with
  | O => ([], o, magic, raw)
  | S fuel' =>
      if o <? bound then
        let '(out, o', magic', raw') := read_body o magic raw in
        let '(buf, o'', magic'', raw'') := read_loop fuel' bound o' magic' raw' in
        (out :: buf, o'', magic'', raw'')
      else ([], o, magic, raw)
  end.

(** [RGSS_ioRead(self, buffer, len)]: the returned count, the bytes stored
    in the buffer and the handle afterwards.  [None]: the code calls through
    an [io] pointer that was never set. *)
Definition RGSS_ioRead (entry : RGSS_entryHandle) (len : Z)
  : option (Z * list Z * RGSS_entryHandle) :=
  let toRead := Z.min (u64 (size (data entry) - currentOffset entry)) len in
  let offs := currentOffset entry in
  match io entry with
  | None => None
  | Some raw =>
      let raw1 := raw_seek raw (u64 (offset (data entry) + offs)) in
      let '(buf, _, magic', raw') :=
        read_loop (Z.to_nat toRead) (u64 (offs + toRead)) offs
                  (currentMagic entry) raw1 in
      Some (sint64 toRead, buf,
            {| data := data entry; currentMagic := magic';
               currentOffset := u64 (currentOffset entry + toRead);
               io := Some raw' |})
  end.

(** [RGSS_ioSeek(self, offset)]: the returned [int] and the handle
    afterwards. *)
Definition RGSS_ioSeek (entry : RGSS_entryHandle) (offs : Z)
  : option (Z * RGSS_entryHandle) :=
  if offs =? currentOffset entry then Some (1, entry)
  else if offs >? u64 (size (data entry) - 1) then Some (0, entry)
  else
    let '(cur, magic) :=
      if offs <? currentOffset entry
      then (0, startMagic (data entry))
      else (currentOffset entry, currentMagic entry) in
    let dwordsSought := u64 (offs - cur) / 4 in
    let magic' := magicAfter dwordsSought magic in
    match io entry with
    | None => None
    | Some raw =>
        Some (1, {| data := data entry; currentMagic := magic';
                    currentOffset := offs;
                    io := Some (raw_seek raw (u64 (offset (data entry) + offs))) |})
    end.

Definition RGSS_ioTell (entry : RGSS_entryHandle) : Z :=
  sint64 (currentOffset entry).

Definition RGSS_ioLength (entry : RGSS_entryHandle) : Z :=
  sint64 (size (data entry)).

(** [RGSS_ioDuplicate(self)]: the new handle is copy-constructed from the
    old one and nothing else touches it. *)
Definition RGSS_ioDuplicate (entry : RGSS_entryHandle) : RGSS_entryHandle :=
  handle_copy entry.

(** ** Entry index parser *)

(** [io->read(io, buff, n)]: the bytes obtained, fewer than [n] at the end
    of the stream. *)
Definition raw_read (r : RawIo) (n : nat) : list Z * RawIo :=
  let bytes := take n (drop (Z.to_nat (pos r)) (content r)) in
  (bytes, raw_seek r (pos r + Z.of_nat (length bytes))).

(** [readUint32(io, result)]: the assembled word, whether four bytes were
    read, and the stream. *)
Definition readUint32 (r : RawIo) : Z * bool * RawIo :=
  let '(bytes, r') := raw_read r 4 in
  let buff (k : nat) := default garbage (bytes !! k) in
  let result :=
    Z.lor (Z.lor (Z.lor
      (Z.land (Z.shiftl (buff 0%nat) 0x00) 0x000000FF)
      (Z.land (Z.shiftl (buff 1%nat) 0x08) 0x0000FF00))
      (Z.land (Z.shiftl (buff 2%nat) 0x10) 0x00FF0000))
      (Z.land (Z.shiftl (buff 3%nat) 0x18) 0xFF000000) in
  (result, (Z.of_nat (length bytes) =? 4), r').

(** [for (i = 0; i < nameLen; ++i) ...]: one byte and one [advanceMagic]
    per turn. *)
Fixpoint read_name (fuel : nat) (nameLen i magic : Z) (r : RawIo)
    (buf : list Z) : outcome (Z * Z * RawIo * list Z) :=
  match fuel with
  | O => Done (i, magic, r, buf)
  | S fuel' =>
      if i <? nameLen then
        let '(c, r') := raw_read1 r in
        let '(old, magic') := advanceMagic magic in
        let v := u8 (Z.lxor c (Z.land old 0xFF)) in
        buf1 <-- nameBuf_store i v buf ;
        v1 <-- nameBuf_load i buf1 ;
        buf2 <-- (if v1 =? 92 then nameBuf_store i 47 buf1 else Done buf1) ;
        read_name fuel' nameLen (u32 (i + 1)) magic' r' buf2
      else Done (i, magic, r, buf)
  end.

(** [for (i = nameLen; i > 0; i--) if (nameBuf[i] == '/') ...]. *)
Fixpoint register_dirs (i : nat) (buf : list Z) (dirs : gmap (list Z) bool)
  : outcome (list Z * gmap (list Z) bool) :=
  match i with
  | O => Done (buf, dirs)
  | S i' =>
      c <-- nameBuf_load (Z.of_nat i) buf ;
      if c =? 47 then
        buf' <-- nameBuf_store (Z.of_nat i) 0 buf ;
        let dirs' :=
          match dirs !! cstr buf' with
          | Some _ => dirs
          | None => <[cstr buf' := true]> dirs
          end in
        register_dirs i' buf' dirs'
      else register_dirs i' buf dirs
  end.

(** The body of [while (true)] in [RGSS_openArchive]. *)
Definition parse_entry (st : ParseState) : outcome ParseStep :=
  let '(raw, ok, r1) := readUint32 (ps_io st) in
  if negb ok then Done (StepBreak r1)
  else
    let '(old, magic1) := advanceMagic (ps_magic st) in
    let nameLen := Z.lxor raw old in
    '(i, magic2, r2, buf1) <--
      read_name (Z.to_nat nameLen) nameLen 0 magic1 r1 (ps_nameBuf st) ;
    buf2 <-- nameBuf_store i 0 buf1 ;
    let '(rawSize, _, r3) := readUint32 r2 in
    let '(old2, magic3) := advanceMagic magic2 in
    let entrySize := Z.lxor rawSize old2 in
    let entry := {| offset := raw_tell r3; size := entrySize;
                    startMagic := magic3 |} in
    let key := cstr buf2 in
    let entries := <[key := entry]> (ps_entryHash st) in
    '(buf3, dirs) <-- register_dirs (Z.to_nat nameLen) buf2 (ps_dirHash st) ;
    let r4 := raw_seek r3 (u64 (offset entry + size entry)) in
    Done (StepEntry nameLen key entry
            {| ps_magic := magic3; ps_io := r4; ps_nameBuf := buf3;
               ps_entryHash := entries; ps_dirHash := dirs |}).

(** [while (true) ...]: runs the body until it breaks. *)
Fixpoint parse_loop (fuel : nat) (st : ParseState) : outcome ParseState :=
  match fuel with
  | O => NoFuel
  | S fuel' =>
      step <-- parse_entry st ;
      match step with
      | StepBreak r =>
          Done {| ps_magic := ps_magic st; ps_io := r;
                  ps_nameBuf := ps_nameBuf st;
                  ps_entryHash := ps_entryHash st;
                  ps_dirHash := ps_dirHash st |}
      | StepEntry _ _ _ st' => parse_loop fuel' st'
      end
  end.

(** The decrypted [nameLen] of every entry header the loop meets, in table
    order (the header on which the parse stops with [Overrun] included). *)
Fixpoint table_nameLens (fuel : nat) (st : ParseState) : list Z :=
  match fuel with
  | O => []
  | S fuel' =>
      let '(raw, ok, _) := readUint32 (ps_io st) in
      if negb ok then []
      else
        Z.lxor raw (ps_magic st) ::
        match parse_entry st with
        | Done (StepEntry _ _ _ st') => table_nameLens fuel' st'
        | _ => []
        end
  end.

(** The entries the loop completes, in table order: normalised path and
    metadata. *)
Fixpoint entry_table (fuel : nat) (st : ParseState)
  : list (list Z * RGSS_entryData) :=
  match fuel with
  | O => []
  | S fuel' =>
      match parse_entry st with
      | Done (StepEntry _ key e st') => (key, e) :: entry_table fuel' st'
      | _ => []
      end
  end.

(** Every turn of the loop that does not break consumes the four bytes of a
    [nameLen] field, so this many turns are enough. *)
Definition parse_fuel (r : RawIo) : nat := S (length (content r)).

(** The locals and the empty hashes on entry to the loop; [r] is the stream
    after the two header words. *)
Definition parse_start (r : RawIo) (nameBuf : list Z) : ParseState :=
  {| ps_magic := RGSS_MAGIC; ps_io := r; ps_nameBuf := nameBuf;
     ps_entryHash := ∅; ps_dirHash := ∅ |}.

(** [RGSS_openArchive(io, _, forWrite)]; [nameBuf] is the content of the
    function's static buffer on entry.  [Done None] is [return 0].  The
    archive keeps the pointer [io] itself, so [archiveIo] is the stream as
    the parse leaves it. *)
Definition RGSS_openArchive (r : RawIo) (forWrite : Z) (nameBuf : list Z)
  : outcome (option RGSS_archiveData) :=
  if negb (forWrite =? 0) then Done None
  else
    let '(header1, _, r1) := readUint32 r in
    let '(header2, _, r2) := readUint32 r1 in
    if negb (header1 =? RGSS_HEADER_1) || negb (header2 =? RGSS_HEADER_2)
    then Done None
    else
      st <-- parse_loop (parse_fuel r) (parse_start r2 nameBuf) ;
      Done (Some {| archiveIo := ps_io st; entryHash := ps_entryHash st;
                    dirHash := ps_dirHash st |}).

End Indeterminate.

(** ** Archiver adapter *)

(** [RGSS_openRead(opaque, filename)]: [None] is [return 0]. *)
Definition RGSS_openRead (d : RGSS_archiveData) (filename : list Z)
  : option RGSS_entryHandle :=
  match entryHash d !! filename with
  | None => None
  | Some e =>
      let entry := handle_of_data e in
      Some {| data := data entry; currentMagic := currentMagic entry;
              currentOffset := currentOffset entry;
              io := Some (raw_duplicate (archiveIo d)) |}
  end.

Inductive PHYSFS_FileType := PHYSFS_FILETYPE_REGULAR | PHYSFS_FILETYPE_DIRECTORY.

Record PHYSFS_Stat := mkStat {
  filesize : Z;
  modtime : Z;
  createtime : Z;
  accesstime : Z;
  filetype : PHYSFS_FileType;
  readonly : Z
}.

(** [RGSS_stat(opaque, filename, stat)]: [None] is the not-found return. *)
Definition RGSS_stat (d : RGSS_archiveData) (filename : list Z)
  : option PHYSFS_Stat :=
  match entryHash d !! filename, dirHash d !! filename with
  | None, None => None
  | Some entry, _ =>
      Some {| filesize := sint64 (size entry); modtime := 0; createtime := 0;
              accesstime := 0; filetype := PHYSFS_FILETYPE_REGULAR;
              readonly := 1 |}
  | None, Some _ =>
      Some {| filesize := 0; modtime := 0; createtime := 0; accesstime := 0;
              filetype := PHYSFS_FILETYPE_DIRECTORY; readonly := 1 |}
  end.

(** ** Filesystem facade *)

(** [FileSystem::FileType] is declared in [filesystem.h]; its first three
    values index [fileExtensions] in this order. *)
Inductive FileType := Image | Audio | Font | Undefined.

Definition imgExt : list string := ["jpg"; "png"]%string.
Definition audExt : list string := ["mp3"; "ogg"; "wav"; "wma"]%string.
Definition fonExt : list string := ["ttf"]%string.

(** [fileExtensions[type]], read only when [type != Undefined]. *)
Definition fileExtensions (type : FileType) : list string :=
  match type with
  | Image => imgExt
  | Audio => audExt
  | Font => fonExt
  | Undefined => []
  end.

(** [sizeof(buff)] in [completeFileName]. *)
Definition BUFF_SIZE : nat := 1024.

(** [snprintf(buff, sizeof(buff), "%s.%s", filename, ext)]: the formatted
    text, cut so that it fits the buffer with its terminator. *)
Definition snprintf_name (filename ext : string) : string :=
  String.substring 0 (BUFF_SIZE - 1) (filename +:+ "." +:+ ext).

(** The exceptions [openReadInt] throws, with the text given for [%s]. *)
Inductive Exception :=
  | NoFileError (name : string)
  | PHYSFSError (msg : string).

Section Facade.

(** PhysFS over the mounted search path. *)
Context {PHYSFS_File : Type}.
Variable PHYSFS_exists : string -> bool.
Variable PHYSFS_openRead : string -> option PHYSFS_File.
Variable PHYSFS_getLastError : string.

(** [for (int i = 0; i < extTest->count; ++i) ...]. *)
Fixpoint try_extensions (filename : string) (exts : list string)
  : option string :=
  match exts with
  | [] => None
  | ext :: rest =>
      let buff := snprintf_name filename ext in
      if PHYSFS_exists buff then Some buff
      else try_extensions filename rest
  end.

(** [completeFileName(filename, type)]: [None] is the null return. *)
Definition completeFileName (filename : string) (type : FileType)
  : option string :=
  if PHYSFS_exists filename then Some filename
  else
    match type with
    | Undefined => None
    | _ => try_extensions filename (fileExtensions type)
    end.

(** [openReadInt(filename, type)]: a thrown exception or the handle. *)
Definition openReadInt (filename : string) (type : FileType)
  : Exception + PHYSFS_File :=
  match completeFileName filename type with
  | None => inl (NoFileError filename)
  | Some foundName =>
      match PHYSFS_openRead foundName with
      | None => inl (PHYSFSError PHYSFS_getLastError)
      | Some handle => inr handle
      end
  end.

(** [FileSystem::exists(filename, type)]. *)
Definition FileSystem_exists (filename : string) (type : FileType) : bool :=
  match completeFileName filename type with
  | Some _ => true
  | None => false
  end.

End Facade.

(** ** Reference notions used in the statements *)

(** The byte of the raw stream at absolute position [k]; past the end the
    code reads a local that was not filled. *)
Definition raw_byte (garbage : Z) (r : RawIo) (k : Z) : Z :=
  default garbage (content r !! Z.to_nat k).

(** The mask of the data rule for the byte at entry offset [o] under the
    keystream word [magic]. *)
Definition data_mask (magic o : Z) : Z :=
  Z.land (Z.shiftr magic (8 * (o mod 4))) 0xFF.

(** The keystream word that belongs to entry offset [o]: the recurrence
    applied [floor(o/4)] times to [startMagic]. *)
Definition magic_at (d : RGSS_entryData) (o : Z) : Z :=
  magicAfter (o / 4) (startMagic d).

(** A stored path byte as the parser keeps it: a backslash becomes a
    slash. *)
Definition slash (c : Z) : Z := if c =? 92 then 47 else c.

(** The decrypted, normalised bytes of a file name of [nameLen] bytes that
    starts at position [p] of the stream, when [magic] is the keystream word
    of its first byte: one step of the recurrence per byte. *)
Definition name_bytes (garbage : Z) (r : RawIo) (p magic nameLen : Z)
  : list Z :=
  (fun j => slash (u8 (Z.lxor (raw_byte garbage r (p + j))
                              (Z.land (magicAfter j magic) 0xFF))))
    <$> seqZ 0 nameLen.

(** [entryHash.insert(key, entry)] for the pairs of a table, in order. *)
Definition insert_all (tbl : list (list Z * RGSS_entryData))
    (m : gmap (list Z) RGSS_entryData) : gmap (list Z) RGSS_entryData :=
  foldl (fun acc kv => <[kv.1 := kv.2]> acc) m tbl.

(** The state of the stream after the 8 header bytes have been read. *)
Definition after_header (garbage : Z) (r : RawIo) : RawIo :=
  snd (readUint32 garbage (snd (readUint32 garbage r))).

(** What the parser requires of its state: the static buffer has its 512
    bytes, the stream position is not negative and the keystream word is a
    [quint32]. *)
Definition parse_inv (st : ParseState) : Prop :=
  length (ps_nameBuf st) = 512%nat /\
  0 <= pos (ps_io st) /\
  0 <= ps_magic st < 2 ^ 32.

(** The handle invariant of the data model. *)
Definition magic_invariant (h : RGSS_entryHandle) : Prop :=
  currentMagic h = magic_at (data h) (currentOffset h).

(** ** Sample archives *)

(** The static [nameBuf] before the first call. *)
Definition nameBuf_init : list Z := replicate 512 0.

(** An archive with one entry, stored path [a\b], payload [1..8]. *)
Definition archive_one : RawIo :=
  {| content := [82; 71; 83; 83; 65; 68; 0; 1; 253; 202; 173; 222; 148; 234;
                 159; 230; 220; 252; 123; 132; 8; 233; 103; 163; 79; 97; 179];
     pos := 0 |}.

(** An archive with two entries: stored path [a\b] with payload [1..8],
    then stored path [a/b] with payload [10; 20; 30]. *)
Definition archive_two : RawIo :=
  {| content := [82; 71; 83; 83; 65; 68; 0; 1; 253; 202; 173; 222; 148; 234;
                 159; 230; 220; 252; 123; 132; 8; 233; 103; 163; 79; 97; 179;
                 134; 10; 234; 99; 199; 162; 188; 22; 174; 12; 22; 156; 214;
                 70];
     pos := 0 |}.

(** The logical path [a/b]. *)
Definition path_a_b : list Z := [97; 47; 98].

(** The entry of [archive_one]. *)
Definition entry_one : RGSS_entryData :=
  {| offset := 19; size := 8; startMagic := 1676282501 |}.

(** A fresh handle on it, as [RGSS_openRead] builds it. *)
Definition handle_one : RGSS_entryHandle :=
  {| data := entry_one; currentMagic := 1676282501; currentOffset := 0;
     io := Some (raw_duplicate archive_one) |}.

(** A handle on an entry of size 0. *)
Definition empty_handle : RGSS_entryHandle :=
  {| data := {| offset := 19; size := 0; startMagic := 1676282501 |};
     currentMagic := 1676282501; currentOffset := 0;
     io := Some (raw_duplicate archive_one) |}.

(** The same handle after [seek(1000)]: a cursor beyond the empty entry. *)
Definition empty_handle_sought : RGSS_entryHandle :=
  match RGSS_ioSeek empty_handle 1000 with
  | Some (_, h) => h
  | None => empty_handle
  end.

(** A file name of 1020 bytes. *)
Fixpoint repeat_a (n : nat) : string :=
  match n with
  | O => EmptyString
  | S n' => String "a"%char (repeat_a n')
  end.

Definition long_name : string := repeat_a 1020.

(** A search path in which exactly one name exists. *)
Definition only_exists (present : string) : string -> bool :=
  fun s => String.eqb s present.

(** ** Enumeration *)

(** [for (int i = filename.size(); i >= 0; i--) if (dirBuf[i] == '/') ...
    break]: the index at which the scan stops, if it does. *)
Fixpoint find_slash_down (i : nat) (dirBuf : list Z) : option nat :=
  if match dirBuf !! i with Some c => c =? 47 | None => false end
  then Some i
  else match i with
       | O => None
       | S i' => find_slash_down i' dirBuf
       end.

(** The body of [Q_FOREACH] in [RGSS_enumerateFiles] for one key.
    [strcpy(dirBuf, filename.constData())] copies the key up to its first
    NUL, and the terminator, into the 512-byte [dirBuf] ([baseBuf] gets the
    same copy and is not used again); what [dirBuf] holds after the copy is
    whatever the stack held.  The scan starts at [dirBuf[filename.size()]].
    [Some basename] when [strcmp(dirpath, dirname) == 0] and the callback is
    called; the callback reads [basename] up to a NUL, which has to lie
    inside [dirBuf]. *)
Definition enumerate_key (garbage : Z) (dirname filename : list Z)
  : outcome (option (list Z)) :=
  let name := cstr filename in
  if (512 <? length name + 1)%nat then Overrun 512
  else if (512 <=? length filename)%nat then Overrun (Z.of_nat (length filename))
  else
    let dirBuf := name ++ 0 :: replicate (511 - length name) garbage in
    let '(dirpath, basename) :=
      match find_slash_down (length filename) dirBuf with
      | Some i => (cstr (<[i := 0]> dirBuf), drop (S i) dirBuf)
      | None => ([], dirBuf)
      end in
    if decide (dirpath = dirname) then
      if decide (0 ∈ basename) then Done (Some (cstr basename))
      else Overrun 512
    else Done None.

(** [Q_FOREACH (const QByteArray &filename, keys) ...]: the base names handed
    to the callback, in the order of the keys. *)
Fixpoint enumerate_keys (garbage : Z) (dirname : list Z)
    (keys : list (list Z)) : outcome (list (list Z)) :=
  match keys with
  | [] => Done []
  | filename :: rest =>
      r <-- enumerate_key garbage dirname filename ;
      names <-- enumerate_keys garbage dirname rest ;
      Done (match r with Some b => b :: names | None => names end)
  end.

(** [RGSS_enumerateFiles(opaque, dirname, cb, origdir, callbackdata)]:
    [keys] is [entryHash.keys()] followed by [dirHash.keys()]; the order
    inside each is the hash's own. *)
Definition RGSS_enumerateFiles (garbage : Z) (d : RGSS_archiveData)
    (dirname : list Z) : outcome (list (list Z)) :=
  enumerate_keys garbage dirname
    ((map_to_list (entryHash d)).*1 ++ (map_to_list (dirHash d)).*1).

(** ** The keystream state object *)

Record MagicState := mkMagicState {
  ms_magic : Z;    (* quint32 *)
  ms_offset : Z    (* quint64 *)
}.

(** [MagicState::advancePath()]: the returned byte and the state. *)
Definition advancePath (s : MagicState) : Z * MagicState :=
  (u8 (Z.land (ms_magic s) 0xFF),
   {| ms_magic := nextMagic (ms_magic s); ms_offset := u64 (ms_offset s + 1) |}).

(** [MagicState::advanceData()]: [offset++ % 4 == 0] tests the offset
    before the increment. *)
Definition advanceData (s : MagicState) : Z * MagicState :=
  (u8 (Z.land (ms_magic s) 0xFF),
   {| ms_magic := if ms_offset s mod 4 =? 0 then nextMagic (ms_magic s)
                  else ms_magic s;
      ms_offset := u64 (ms_offset s + 1) |}).

(** [n] calls of a method in a row: the bytes returned and the state. *)
Fixpoint run_calls (f : MagicState -> Z * MagicState) (n : nat)
    (s : MagicState) : list Z * MagicState :=
  match n with
  | O => ([], s)
  | S n' =>
      let '(b, s1) := f s in
      let '(bs, s2) := run_calls f n' s1 in
      (b :: bs, s2)
  end.

(** ** Time stamps ([globalstate.cpp]) *)

(** [GlobalState::genTimeStamp()]: [return p->stampCounter++] on an
    [unsigned int]; the returned stamp and the counter. *)
Definition genTimeStamp (stampCounter : Z) : Z * Z :=
  (stampCounter, u32 (stampCounter + 1)).

(** The stamps of [n] calls in a row. *)
Fixpoint genTimeStamps (n : nat) (stampCounter : Z) : list Z :=
  match n with
  | O => []
  | S n' =>
      let '(stamp, c) := genTimeStamp stampCounter in
      stamp :: genTimeStamps n' c
  end.

(** ** Reference notions for the further properties *)

(** A path as the index keeps it: no NUL, no backslash, room for its
    terminator in a 512-byte buffer. *)
Definition key_ok (k : list Z) : Prop :=
  (0 ∉ k) /\ (92 ∉ k) /\ (length k <= 511)%nat.

(** Every path of the two hashes of an archive is such a path. *)
Definition keys_ok (d : RGSS_archiveData) : Prop :=
  (forall k, is_Some (entryHash d !! k) -> key_ok k) /\
  (forall k, is_Some (dirHash d !! k) -> key_ok k).

(** Two parser states that differ at most in what the static buffer
    holds. *)
Definition same_but_nameBuf (st1 st2 : ParseState) : Prop :=
  ps_magic st1 = ps_magic st2 /\ ps_io st1 = ps_io st2 /\
  ps_entryHash st1 = ps_entryHash st2 /\ ps_dirHash st1 = ps_dirHash st2 /\
  length (ps_nameBuf st1) = 512%nat /\ length (ps_nameBuf st2) = 512%nat.

(** The value of four bytes read as a little-endian word. *)
Definition le32 (b0 b1 b2 b3 : Z) : Z :=
  b0 + 2 ^ 8 * b1 + 2 ^ 16 * b2 + 2 ^ 24 * b3.

(** The eight bytes [RGSSAD\0\1]. *)
Definition header_bytes : list Z := [82; 71; 83; 83; 65; 68; 0; 1].

(** * Properties *)

(** ** Machine arithmetic *)

Lemma u8_range z : 0 <= u8 z < 256.
Proof. unfold u8. apply Z.mod_pos_bound. lia. Qed.

Lemma u32_range z : 0 <= u32 z < 2 ^ 32.
Proof. unfold u32. apply Z.mod_pos_bound. lia. Qed.

Lemma u64_range z : 0 <= u64 z < 2 ^ 64.
Proof. unfold u64. apply Z.mod_pos_bound. lia. Qed.

Lemma u8_small z : 0 <= z < 256 -> u8 z = z.
Proof. intros. unfold u8. apply Z.mod_small. lia. Qed.

Lemma u32_small z : 0 <= z < 2 ^ 32 -> u32 z = z.
Proof. intros. unfold u32. apply Z.mod_small. lia. Qed.

Lemma u64_small z : 0 <= z < 2 ^ 64 -> u64 z = z.
Proof. intros. unfold u64. apply Z.mod_small. lia. Qed.

Lemma sint64_small z : 0 <= z < 2 ^ 63 -> sint64 z = z.
Proof.
  intros H. unfold sint64. rewrite u64_small by lia.
  destruct (Z.ltb_spec z (2 ^ 63)); lia.
Qed.

Lemma land_255_range x : 0 <= Z.land x 0xFF < 256.
Proof.
  change 0xFF with (Z.ones 8). rewrite Z.land_ones by lia.
  apply Z.mod_pos_bound. lia.
Qed.

(** ** The recurrence *)

Lemma nextMagic_range m : 0 <= nextMagic m < 2 ^ 32.
Proof. apply u32_range. Qed.

Lemma advanceMagic_fst m : fst (advanceMagic m) = m.
Proof. reflexivity. Qed.

Lemma magicAfter_0 m : magicAfter 0 m = m.
Proof. reflexivity. Qed.

Lemma magicAfter_nonpos n m : n <= 0 -> magicAfter n m = m.
Proof. intros H. unfold magicAfter. replace (Z.to_nat n) with O by lia. done. Qed.

Lemma magicAfter_succ n m :
  0 <= n -> magicAfter (n + 1) m = nextMagic (magicAfter n m).
Proof.
  intros H. unfold magicAfter.
  replace (Z.to_nat (n + 1)) with (S (Z.to_nat n)) by lia. reflexivity.
Qed.

Lemma magicAfter_succ_r n m :
  0 <= n -> magicAfter (n + 1) m = magicAfter n (nextMagic m).
Proof.
  intros H. unfold magicAfter.
  replace (Z.to_nat (n + 1)) with (S (Z.to_nat n)) by lia.
  apply Nat.iter_succ_r.
Qed.

Lemma magicAfter_add a b m :
  0 <= a -> 0 <= b -> magicAfter (a + b) m = magicAfter b (magicAfter a m).
Proof.
  intros Ha Hb. unfold magicAfter.
  replace (Z.to_nat (a + b)) with (Z.to_nat b + Z.to_nat a)%nat by lia.
  apply Nat.iter_add.
Qed.

Lemma magicAfter_range n m :
  0 <= m < 2 ^ 32 -> 0 <= magicAfter n m < 2 ^ 32.
Proof.
  intros Hm. unfold magicAfter.
  induction (Z.to_nat n) as [|k IH]; simpl; [done | apply nextMagic_range].
Qed.

(** Crossing from [o] to [o + 1] completes a 4-byte block exactly when
    [o + 1] is a multiple of 4. *)
Lemma block_step o :
  0 <= o -> (o + 1) / 4 - o / 4 = if (o + 1) mod 4 =? 0 then 1 else 0.
Proof.
  intros Ho. destruct (Z.eqb_spec ((o + 1) mod 4) 0) as [E|E];
    Z.to_euclidean_division_equations; lia.
Qed.

Lemma block_mono a b : 0 <= a <= b -> a / 4 <= b / 4.
Proof. intros. apply Z.div_le_mono; lia. Qed.

(** ** Reading *)

Section ReadFacts.

Variable garbage : Z.

Lemma raw_read1_spec r :
  0 <= pos r ->
  fst (raw_read1 garbage r) = raw_byte garbage r (pos r) /\
  content (snd (raw_read1 garbage r)) = content r /\
  pos r <= pos (snd (raw_read1 garbage r)) <= pos r + 1 /\
  forall k, 0 <= k ->
    raw_byte garbage (snd (raw_read1 garbage r))
             (pos (snd (raw_read1 garbage r)) + k)
    = raw_byte garbage r (pos r + 1 + k).
Proof.
  intros Hp. unfold raw_read1, raw_byte.
  destruct (content r !! Z.to_nat (pos r)) as [b|] eqn:E; simpl.
  - repeat split; try lia. 
  - repeat split; try lia. intros k Hk.
    apply lookup_ge_None in E.
    rewrite !(proj2 (lookup_ge_None _ _)); [done | lia | lia].
Qed.

Lemma read_body_spec o magic raw :
  0 <= o < 2 ^ 64 - 1 -> 0 <= pos raw ->
  read_body garbage o magic raw =
    (u8 (Z.lxor (raw_byte garbage raw (pos raw)) (data_mask magic o)),
     o + 1,
     (if (o + 1) mod 4 =? 0 then nextMagic magic else magic),
     snd (raw_read1 garbage raw)).
Proof.
  intros Ho Hp. unfold read_body.
  destruct (raw_read1_spec raw Hp) as (Hb & _).
  destruct (raw_read1 garbage raw) as [byte raw'] eqn:E. simpl in *. subst byte.
  assert (Hm : 0 <= o mod 4 < 4) by (apply Z.mod_pos_bound; lia).
  rewrite (u8_small (8 * (o mod 4))) by lia.
  fold (data_mask magic o).
  rewrite (u8_small (data_mask magic o)) by apply land_255_range.
  rewrite (u64_small (o + 1)) by lia. reflexivity.
Qed.

Lemma read_loop_spec fuel : forall o magic raw,
  0 <= o -> 0 <= pos raw -> o + Z.of_nat fuel < 2 ^ 64 ->
  exists buf raw',
    read_loop garbage fuel (o + Z.of_nat fuel) o magic raw =
      (buf, o + Z.of_nat fuel,
       magicAfter ((o + Z.of_nat fuel) / 4 - o / 4) magic, raw') /\
    length buf = fuel /\
    content raw' = content raw /\
    forall i : nat, (i < fuel)%nat ->
      buf !! i =
        Some (u8 (Z.lxor (raw_byte garbage raw (pos raw + Z.of_nat i))
                         (data_mask
                            (magicAfter ((o + Z.of_nat i) / 4 - o / 4) magic)
                            (o + Z.of_nat i)))).
Proof.
  induction fuel as [|f IH]; intros o magic raw Ho Hp Hb.
  - exists [], raw. simpl. rewrite Z.add_0_r, Z.sub_diag.
    repeat split; [lia].
  - cbn [read_loop].
    destruct (Z.ltb_spec o (o + Z.of_nat (S f))); [|lia].
    rewrite read_body_spec by lia.
    destruct (raw_read1_spec raw Hp) as (_ & Hc & Hpos & Hrest).
    set (raw1 := snd (raw_read1 garbage raw)) in *.
    set (magic1 := if (o + 1) mod 4 =? 0 then nextMagic magic else magic).
    assert (Hm1 : magic1 = magicAfter ((o + 1) / 4 - o / 4) magic).
    { subst magic1. rewrite block_step by lia.
      destruct ((o + 1) mod 4 =? 0); reflexivity. }
    destruct (IH (o + 1) magic1 raw1) as (buf & raw' & Hl & Hlen & Hc' & Hi);
      [lia | lia | lia |].
    replace (o + 1 + Z.of_nat f) with (o + Z.of_nat (S f)) in Hl by lia.
    rewrite Hl.
    exists (u8 (Z.lxor (raw_byte garbage raw (pos raw)) (data_mask magic o))
              :: buf), raw'.
    assert (Hd1 := block_mono o (o + 1) ltac:(lia)).
    assert (Hd2 := block_mono (o + 1) (o + Z.of_nat (S f)) ltac:(lia)).
    split; [|split; [|split]].
    + f_equal. f_equal. rewrite Hm1, <- magicAfter_add by lia.
      f_equal. lia.
    + simpl. lia.
    + congruence.
    + intros [|i] Hlt.
      * simpl. rewrite !Z.add_0_r, Z.sub_diag. reflexivity.
      * simpl. rewrite Hi by lia. f_equal. f_equal. f_equal.
        -- rewrite Hrest by lia. f_equal. lia.
        -- assert (Hd3 := block_mono (o + 1) (o + 1 + Z.of_nat i) ltac:(lia)).
           replace (o + Z.of_nat (S i)) with (o + 1 + Z.of_nat i) by lia.
           f_equal. rewrite Hm1, <- magicAfter_add by lia. f_equal. lia.
Qed.

(** A read on a handle whose cursor lies within the entry. *)
Lemma RGSS_ioRead_spec h raw len :
  io h = Some raw ->
  0 <= currentOffset h <= size (data h) -> size (data h) < 2 ^ 64 ->
  0 <= len ->
  let cur := currentOffset h in
  let n := Z.min (size (data h) - cur) len in
  exists buf raw',
    RGSS_ioRead garbage h len =
      Some (sint64 n, buf,
            {| data := data h;
               currentMagic := magicAfter ((cur + n) / 4 - cur / 4) (currentMagic h);
               currentOffset := cur + n;
               io := Some raw' |}) /\
    Z.of_nat (length buf) = n /\
    content raw' = content raw /\
    forall i, 0 <= i < n ->
      buf !! Z.to_nat i =
        Some (u8 (Z.lxor
                (raw_byte garbage raw (u64 (offset (data h) + cur) + i))
                (data_mask (magicAfter ((cur + i) / 4 - cur / 4) (currentMagic h))
                           (cur + i)))).
Proof.
  intros Hio Hcur Hsz Hlen cur n. unfold RGSS_ioRead. rewrite Hio.
  rewrite (u64_small (size (data h) - currentOffset h)) by lia.
  fold cur. fold n.
  assert (Hn : 0 <= n) by (subst n cur; lia).
  assert (Hn' : cur + n <= size (data h)) by (subst n cur; lia).
  rewrite (u64_small (cur + n)) by (subst cur; lia).
  set (raw1 := raw_seek raw (u64 (offset (data h) + cur))).
  destruct (read_loop_spec (Z.to_nat n) cur (currentMagic h) raw1)
    as (buf & raw' & Hl & Hlen' & Hc & Hi).
  { subst cur; lia. }
  { subst raw1. simpl. apply u64_range. }
  { rewrite Z2Nat.id by lia. subst cur; lia. }
  rewrite Z2Nat.id in Hl by lia. rewrite Hl.
  exists buf, raw'. split; [reflexivity|]. split; [lia|]. split; [done|].
  intros i Hi'. rewrite Hi by lia. rewrite Z2Nat.id by lia. reflexivity.
Qed.

(** Reading keeps the handle invariant. *)
Lemma RGSS_ioRead_invariant h raw len :
  io h = Some raw ->
  0 <= currentOffset h <= size (data h) -> size (data h) < 2 ^ 64 ->
  0 <= len ->
  magic_invariant h ->
  exists n buf h',
    RGSS_ioRead garbage h len = Some (n, buf, h') /\
    data h' = data h /\ magic_invariant h' /\
    currentOffset h <= currentOffset h' <= size (data h).
Proof.
  intros Hio Hcur Hsz Hlen Hinv.
  destruct (RGSS_ioRead_spec h raw len Hio Hcur Hsz Hlen)
    as (buf & raw' & Hr & _).
  eexists _, buf, _. split; [exact Hr|]. simpl. split; [done|].
  split; [|lia].
  unfold magic_invariant, magic_at in *. simpl. rewrite Hinv.
  set (n := Z.min (size (data h) - currentOffset h) len).
  assert (Hd := block_mono (currentOffset h) (currentOffset h + n) ltac:(lia)).
  assert (0 <= currentOffset h / 4) by (apply Z.div_pos; lia).
  rewrite <- magicAfter_add by lia. f_equal. lia.
Qed.

(** Under the handle invariant the decoded byte depends on its offset in
    the entry alone, whatever the granularity of the reads before it. *)
Lemma RGSS_ioRead_decodes h raw len :
  io h = Some raw ->
  0 <= currentOffset h <= size (data h) -> size (data h) < 2 ^ 64 ->
  0 <= len ->
  magic_invariant h ->
  exists n buf h',
    RGSS_ioRead garbage h len = Some (n, buf, h') /\
    forall i, 0 <= i < Z.min (size (data h) - currentOffset h) len ->
      buf !! Z.to_nat i =
        Some (u8 (Z.lxor
                (raw_byte garbage raw
                   (u64 (offset (data h) + currentOffset h) + i))
                (data_mask (magic_at (data h) (currentOffset h + i))
                           (currentOffset h + i)))).
Proof.
  intros Hio Hcur Hsz Hlen Hinv.
  destruct (RGSS_ioRead_spec h raw len Hio Hcur Hsz Hlen)
    as (buf & raw' & Hr & _ & _ & Hi).
  eexists _, buf, _. split; [exact Hr|].
  intros i Hi'. rewrite Hi by done. do 4 f_equal.
  unfold magic_invariant, magic_at in *. rewrite Hinv.
  assert (Hd := block_mono (currentOffset h) (currentOffset h + i) ltac:(lia)).
  assert (0 <= currentOffset h / 4) by (apply Z.div_pos; lia).
  rewrite <- magicAfter_add by lia. f_equal. lia.
Qed.

End ReadFacts.

(** ** The sample archives parse as described *)

Lemma archive_one_opens :
  exists d,
    RGSS_openArchive 0 archive_one 0 nameBuf_init = Done (Some d) /\
    RGSS_openRead d path_a_b = Some handle_one.
Proof. eexists. split; vm_compute; reflexivity. Qed.

(** ** Seeking *)

Lemma RGSS_ioSeek_same h target :
  target = currentOffset h -> RGSS_ioSeek h target = Some (1, h).
Proof. intros ->. unfold RGSS_ioSeek. rewrite Z.eqb_refl. reflexivity. Qed.

Lemma RGSS_ioSeek_beyond h target :
  target <> currentOffset h -> u64 (size (data h) - 1) < target ->
  RGSS_ioSeek h target = Some (0, h).
Proof.
  intros Hne Hgt. unfold RGSS_ioSeek.
  destruct (Z.eqb_spec target (currentOffset h)); [done|].
  destruct (Z.gtb_spec target (u64 (size (data h) - 1))); [done | lia].
Qed.

Lemma RGSS_ioSeek_move h raw target :
  io h = Some raw ->
  target <> currentOffset h -> target <= u64 (size (data h) - 1) ->
  RGSS_ioSeek h target =
    Some (1, {| data := data h;
                currentMagic :=
                  magicAfter
                    (u64 (target - (if target <? currentOffset h then 0
                                    else currentOffset h)) / 4)
                    (if target <? currentOffset h then startMagic (data h)
                     else currentMagic h);
                currentOffset := target;
                io := Some (raw_seek raw (u64 (offset (data h) + target))) |}).
Proof.
  intros Hio Hne Hle. unfold RGSS_ioSeek.
  destruct (Z.eqb_spec target (currentOffset h)); [done|].
  destruct (Z.gtb_spec target (u64 (size (data h) - 1))); [lia|].
  rewrite Hio. destruct (target <? currentOffset h); reflexivity.
Qed.

(** A seek never fails through the bounds test on an entry of size 0. *)
Lemma RGSS_ioSeek_size0 h target :
  size (data h) = 0 -> target < 2 ^ 64 ->
  forall h', RGSS_ioSeek h target <> Some (0, h').
Proof.
  intros Hs Ht h'. unfold RGSS_ioSeek. rewrite Hs.
  destruct (target =? currentOffset h); [discriminate|].
  change (u64 (0 - 1)) with (2 ^ 64 - 1).
  destruct (Z.gtb_spec target (2 ^ 64 - 1)); [lia|].
  destruct (target <? currentOffset h); destruct (io h); discriminate.
Qed.

(** A rewind, and a forward seek that starts on a block boundary, keep the
    handle invariant. *)
Lemma RGSS_ioSeek_invariant_aligned h raw target :
  io h = Some raw ->
  0 <= currentOffset h < 2 ^ 64 -> 0 < size (data h) < 2 ^ 64 ->
  0 <= target < size (data h) ->
  magic_invariant h ->
  target < currentOffset h \/ currentOffset h mod 4 = 0 ->
  exists h', RGSS_ioSeek h target = Some (1, h') /\
             data h' = data h /\ currentOffset h' = target /\
             magic_invariant h'.
Proof.
  intros Hio Hcur Hsz Ht Hinv Hal.
  destruct (Z.eq_dec target (currentOffset h)) as [->|Hne].
  { exists h. rewrite RGSS_ioSeek_same by done. done. }
  rewrite (RGSS_ioSeek_move h raw target Hio Hne)
    by (rewrite u64_small by lia; lia).
  eexists. split; [reflexivity|]. simpl. split; [done|]. split; [done|].
  unfold magic_invariant, magic_at in *. simpl.
  destruct (Z.ltb_spec target (currentOffset h)) as [Hlt|Hge].
  - rewrite Z.sub_0_r, u64_small by lia. reflexivity.
  - destruct Hal as [?|Hal]; [lia|].
    rewrite u64_small by lia. rewrite Hinv.
    assert (0 <= currentOffset h / 4) by (apply Z.div_pos; lia).
    assert (0 <= (target - currentOffset h) / 4) by (apply Z.div_pos; lia).
    rewrite <- magicAfter_add by lia. f_equal.
    Z.to_euclidean_division_equations; lia.
Qed.

(** After a rewind, or a forward seek that starts on a block boundary, a
    read decodes every byte under the keystream word of its own offset. *)
Lemma seek_then_read_aligned garbage h raw target len :
  io h = Some raw ->
  0 <= currentOffset h < 2 ^ 64 -> 0 < size (data h) < 2 ^ 64 ->
  0 <= target < size (data h) -> 0 <= len ->
  magic_invariant h ->
  target < currentOffset h \/ currentOffset h mod 4 = 0 ->
  exists h1 n buf h2,
    RGSS_ioSeek h target = Some (1, h1) /\
    RGSS_ioRead garbage h1 len = Some (n, buf, h2) /\
    forall i, 0 <= i < Z.min (size (data h) - target) len ->
      buf !! Z.to_nat i =
        Some (u8 (Z.lxor
                (raw_byte garbage raw (u64 (offset (data h) + target) + i))
                (data_mask (magic_at (data h) (target + i)) (target + i)))).
Proof.
  intros Hio Hcur Hsz Ht Hlen Hinv Hal.
  destruct (Z.eq_dec target (currentOffset h)) as [->|Hne].
  { destruct (RGSS_ioRead_decodes garbage h raw len Hio) as (n & buf & h2 & Hr & Hi);
      [lia | lia | lia | done |].
    exists h, n, buf, h2. rewrite RGSS_ioSeek_same by done. done. }
  pose proof (RGSS_ioSeek_invariant_aligned h raw target Hio Hcur Hsz Ht Hinv Hal)
    as (h1 & Hs & Hd & Ho & Hinv1).
  assert (Hio1 : io h1 = Some (raw_seek raw (u64 (offset (data h) + target)))).
  { rewrite (RGSS_ioSeek_move h raw target Hio Hne) in Hs
      by (rewrite u64_small by lia; lia).
    injection Hs as <-. reflexivity. }
  destruct (RGSS_ioRead_decodes garbage h1 _ len Hio1) as (n & buf & h2 & Hr & Hi);
    [rewrite Hd, Ho; lia | rewrite Hd; lia | lia | done |].
  exists h1, n, buf, h2. split; [done|]. split; [done|].
  intros i Hi'. rewrite Hd, Ho in Hi. rewrite Hi by done. reflexivity.
Qed.

(** ** The entry I/O handle: claims *)

(** C1 (defect shown on [archive_one]).  The handle invariant asks that
    [currentMagic] at offset [o] be [startMagic] advanced [floor(o/4)]
    times.  On a fresh handle, [read(2)] followed by [seek(5)] leaves the
    cursor at offset 5 with [currentMagic] still equal to [startMagic],
    although [floor(5/4) = 1]: the forward seek advances
    [(5 - 2) / 4 = 0] times. *)
Theorem seek_forward_from_unaligned_offset_breaks_invariant :
  exists buf h1 h2,
    RGSS_ioRead 0 handle_one 2 = Some (2, buf, h1) /\
    magic_invariant h1 /\
    RGSS_ioSeek h1 5 = Some (1, h2) /\
    currentOffset h2 = 5 /\
    currentMagic h2 = startMagic (data h2) /\
    magic_at (data h2) 5 = nextMagic (startMagic (data h2)) /\
    ~ magic_invariant h2.
Proof.
  eexists _, _, _.
  split; [vm_compute; reflexivity|].
  split; [vm_compute; reflexivity|].
  split; [vm_compute; reflexivity|].
  split; [reflexivity|]. split; [reflexivity|]. split; [reflexivity|].
  unfold magic_invariant. vm_compute. discriminate.
Qed.

(** C2 (defect).  [duplicate()] copies [data], [currentMagic] and
    [currentOffset], but it does not duplicate the raw byte source: the
    new handle's [io] pointer is never set, so a read through the duplicate
    has no defined result. *)
Theorem duplicate_copies_cursor_but_not_raw_source
    (garbage : Z) (h : RGSS_entryHandle) (len : Z) :
  data (RGSS_ioDuplicate h) = data h /\
  currentMagic (RGSS_ioDuplicate h) = currentMagic h /\
  currentOffset (RGSS_ioDuplicate h) = currentOffset h /\
  io (RGSS_ioDuplicate h) = None /\
  RGSS_ioRead garbage (RGSS_ioDuplicate h) len = None.
Proof. repeat split. Qed.

(** C3 (defect shown on [archive_one]).  After [read(2)], [seek(5)] then
    [read(3)] returns [69; 139; 208], whereas a fresh handle on the same
    entry yields [6; 7; 8] for the range [5, 8), both by [seek(5)],
    [read(3)] and as the tail of one [read(8)]. *)
Theorem seek_then_read_differs_from_fresh_handle :
  exists b1 h1 h2 h3 f1 f2 f3,
    RGSS_ioRead 0 handle_one 2 = Some (2, b1, h1) /\
    RGSS_ioSeek h1 5 = Some (1, h2) /\
    RGSS_ioRead 0 h2 3 = Some (3, [69; 139; 208], h3) /\
    RGSS_ioSeek handle_one 5 = Some (1, f1) /\
    RGSS_ioRead 0 f1 3 = Some (3, [6; 7; 8], f2) /\
    RGSS_ioRead 0 handle_one 8 = Some (8, [1; 2; 3; 4; 5; 6; 7; 8], f3).
Proof.
  eexists _, _, _, _, _, _, _.
  repeat split; vm_compute; reflexivity.
Qed.

(** C4, as stated, fails: a handle read to the end of a 8-byte entry has
    [currentOffset = size = 8], and [seek(8)] on it succeeds although the
    target is not below [size]. *)
Lemma seek_to_current_offset_at_end_succeeds :
  ~ (forall h target,
       0 <= target < 2 ^ 64 -> size (data h) <= target ->
       exists h', RGSS_ioSeek h target = Some (0, h')).
Proof.
  intros H.
  assert (E : exists n buf h,
             RGSS_ioRead 0 handle_one 8 = Some (n, buf, h) /\
             size (data h) = 8 /\ RGSS_ioSeek h 8 = Some (1, h)).
  { eexists _, _, _. repeat split; vm_compute; reflexivity. }
  destruct E as (n & buf & h & _ & Hs & Hseek).
  destruct (H h 8 ltac:(lia) ltac:(lia)) as [h' Hh'].
  congruence.
Qed.

(** C4 (amended).  [seek(target)] is a successful no-op when
    [target == currentOffset]; otherwise, on an entry of non-zero size, it
    returns failure and leaves the handle as it was whenever
    [target >= size]; otherwise it starts from [currentOffset = 0],
    [currentMagic = startMagic] when [target < currentOffset] and from the
    current cursor when not, advances the recurrence
    [(target - currentOffset) / 4] times, sets [currentOffset = target] and
    repositions the raw source at [offset + target]. *)
Theorem seek_cases (h : RGSS_entryHandle) (raw : RawIo) (target : Z) :
  io h = Some raw ->
  0 <= currentOffset h < 2 ^ 64 ->
  0 < size (data h) < 2 ^ 64 ->
  0 <= target < 2 ^ 64 ->
  RGSS_ioSeek h target =
    if decide (target = currentOffset h) then Some (1, h)
    else if decide (size (data h) <= target) then Some (0, h)
    else
      let from := if decide (target < currentOffset h)
                  then (0, startMagic (data h))
                  else (currentOffset h, currentMagic h) in
      Some (1, {| data := data h;
                  currentMagic := magicAfter ((target - fst from) / 4) (snd from);
                  currentOffset := target;
                  io := Some (raw_seek raw (u64 (offset (data h) + target))) |}).
Proof.
  intros Hio Hcur Hsz Ht.
  destruct (decide (target = currentOffset h)) as [->|Hne].
  { apply RGSS_ioSeek_same. reflexivity. }
  assert (Hu : u64 (size (data h) - 1) = size (data h) - 1)
    by (apply u64_small; lia).
  destruct (decide (size (data h) <= target)) as [Hge|Hlt].
  { apply RGSS_ioSeek_beyond; [done | lia]. }
  rewrite (RGSS_ioSeek_move h raw target Hio Hne) by lia.
  destruct (Z.ltb_spec target (currentOffset h));
    destruct (decide (target < currentOffset h)); try lia; simpl.
  - rewrite Z.sub_0_r, u64_small by lia. reflexivity.
  - rewrite u64_small by lia. reflexivity.
Qed.

Lemma seek_cases_witness :
  RGSS_ioSeek handle_one 6 =
    Some (1, {| data := entry_one;
                currentMagic := nextMagic (startMagic entry_one);
                currentOffset := 6;
                io := Some (raw_seek (raw_duplicate archive_one) 25) |}).
Proof.
  rewrite (seek_cases handle_one (raw_duplicate archive_one) 6);
    [reflexivity | reflexivity | simpl; lia | simpl; lia | lia].
Defined.

(** C9.  [seek(target)] with [target == currentOffset] succeeds, leaving the
    handle as it is, for every handle: whatever the size of the entry and
    wherever the cursor is, in particular at [currentOffset == size], as
    after a read of the entry to its end.  On an entry of size 0 no seek
    returns failure, wherever the cursor is: the bound [size - 1] is
    computed on 64 unsigned bits and is [2^64 - 1], so a seek to any
    [target] returns 1 and leaves the cursor at [target]. *)
Theorem seek_same_offset_or_empty_entry
    (garbage : Z) (h : RGSS_entryHandle) (target : Z) :
  0 <= target < 2 ^ 64 ->
  RGSS_ioSeek h (currentOffset h) = Some (1, h) /\
  (forall raw,
      io h = Some raw ->
      0 <= currentOffset h <= size (data h) -> size (data h) < 2 ^ 64 ->
      exists n buf h',
        RGSS_ioRead garbage h (size (data h)) = Some (n, buf, h') /\
        currentOffset h' = size (data h') /\
        RGSS_ioSeek h' (size (data h')) = Some (1, h')) /\
  (size (data h) = 0 ->
      u64 (size (data h) - 1) = 2 ^ 64 - 1 /\
      (forall h', RGSS_ioSeek h target <> Some (0, h')) /\
      (forall raw, io h = Some raw ->
         exists h', RGSS_ioSeek h target = Some (1, h') /\
                    currentOffset h' = target /\ data h' = data h)).
Proof.
  intros Ht. split; [|split].
  - apply RGSS_ioSeek_same. reflexivity.
  - intros raw Hio Hcur Hsz.
    destruct (RGSS_ioRead_spec garbage h raw (size (data h)) Hio Hcur Hsz)
      as (buf & raw' & Hr & _); [lia|].
    eexists _, buf, _. split; [exact Hr|]. simpl. split; [lia|].
    apply RGSS_ioSeek_same. simpl. lia.
  - intros Hs. split; [rewrite Hs; reflexivity|]. split.
    + apply RGSS_ioSeek_size0; [done | lia].
    + intros raw Hio.
      destruct (Z.eq_dec target (currentOffset h)) as [He|Hne].
      * exists h. rewrite RGSS_ioSeek_same by exact He. done.
      * eexists. rewrite (RGSS_ioSeek_move h raw target Hio Hne).
        -- split; [reflexivity|]. cbn [currentOffset data]. done.
        -- rewrite Hs. change (u64 (0 - 1)) with (2 ^ 64 - 1). lia.
Qed.

Lemma seek_same_offset_or_empty_entry_witness :
  currentOffset empty_handle_sought = 1000 /\
  size (data empty_handle_sought) = 0 /\
  RGSS_ioSeek empty_handle_sought 1000 = Some (1, empty_handle_sought) /\
  (forall h', RGSS_ioSeek empty_handle_sought 2000 <> Some (0, h')) /\
  (exists h', RGSS_ioSeek empty_handle_sought 2000 = Some (1, h') /\
              currentOffset h' = 2000).
Proof.
  assert (Hc : currentOffset empty_handle_sought = 1000) by reflexivity.
  assert (Hs : size (data empty_handle_sought) = 0) by reflexivity.
  assert (Ht : 0 <= 2000 < 2 ^ 64) by lia.
  destruct (seek_same_offset_or_empty_entry 0 empty_handle_sought 2000 Ht)
    as (H1 & _ & H3).
  destruct (H3 Hs) as (_ & Hnf & Hok).
  split; [exact Hc|]. split; [exact Hs|].
  split; [rewrite <- Hc at 1; exact H1|]. split; [exact Hnf|].
  destruct (Hok (raw_seek (raw_duplicate archive_one) 1019) eq_refl)
    as (h' & Hh & Hcur & _).
  exists h'. split; [exact Hh | exact Hcur].
Defined.

(** C5.  In a read, the byte at entry offset [o] is the raw byte XOR
    [(currentMagic >> (8 * (o mod 4))) & 0xFF], where [currentMagic] is the
    word held when that byte is consumed; the word advances once when
    [o + 1] is a multiple of 4 and not otherwise.  Over a whole read that
    starts at [cur] and produces [n] bytes, byte [i] is therefore masked by
    the word advanced [(cur + i) / 4 - cur / 4] times and the read ends with
    the word advanced [(cur + n) / 4 - cur / 4] times: once per completed
    4-byte block. *)
Theorem data_rule_mask_and_block_advance
    (garbage : Z) (h : RGSS_entryHandle) (raw : RawIo) (len : Z) :
  io h = Some raw ->
  0 <= currentOffset h <= size (data h) -> size (data h) < 2 ^ 64 ->
  0 <= len ->
  let cur := currentOffset h in
  let n := Z.min (size (data h) - cur) len in
  (forall o magic r, 0 <= o < 2 ^ 64 - 1 -> 0 <= pos r ->
     read_body garbage o magic r =
       (u8 (Z.lxor (raw_byte garbage r (pos r))
                   (Z.land (Z.shiftr magic (8 * (o mod 4))) 0xFF)),
        o + 1,
        (if (o + 1) mod 4 =? 0 then nextMagic magic else magic),
        snd (raw_read1 garbage r))) /\
  exists buf h',
    RGSS_ioRead garbage h len = Some (sint64 n, buf, h') /\
    Z.of_nat (length buf) = n /\
    currentOffset h' = cur + n /\
    currentMagic h' = magicAfter ((cur + n) / 4 - cur / 4) (currentMagic h) /\
    forall i, 0 <= i < n ->
      buf !! Z.to_nat i =
        Some (u8 (Z.lxor
                (raw_byte garbage raw (u64 (offset (data h) + cur) + i))
                (Z.land
                   (Z.shiftr
                      (magicAfter ((cur + i) / 4 - cur / 4) (currentMagic h))
                      (8 * ((cur + i) mod 4)))
                   0xFF))).
Proof.
  intros Hio Hcur Hsz Hlen cur n. split.
  - intros o magic r Ho Hp. apply read_body_spec; assumption.
  - destruct (RGSS_ioRead_spec garbage h raw len Hio Hcur Hsz Hlen)
      as (buf & raw' & Hr & Hl & _ & Hi).
    eexists buf, _. split; [exact Hr|]. simpl.
    split; [exact Hl|]. split; [reflexivity|]. split; [reflexivity|].
    exact Hi.
Qed.

Lemma data_rule_mask_and_block_advance_witness :
  exists buf h',
    RGSS_ioRead 0 handle_one 6 = Some (sint64 6, buf, h') /\
    currentOffset h' = 6 /\
    currentMagic h' = magicAfter 1 (currentMagic handle_one).
Proof.
  destruct (data_rule_mask_and_block_advance 0 handle_one
              (raw_duplicate archive_one) 6)
    as (_ & buf & h' & Hr & _ & Ho & Hm & _);
    [reflexivity | simpl; lia | simpl; lia | lia |].
  exists buf, h'. split; [exact Hr|]. split; [exact Ho | exact Hm].
Defined.

(** ** Bit-level bounds *)

Lemma lt_pow2_log2 x n :
  0 < n -> 0 <= x -> (x < 2 ^ n <-> Z.log2 x < n).
Proof.
  intros Hn Hx. destruct (Z.eq_dec x 0) as [->|Hne].
  - simpl. split; intros; [lia | apply Z.pow_pos_nonneg; lia].
  - apply Z.log2_lt_pow2. lia.
Qed.

Lemma lor_range n a b :
  0 < n -> 0 <= a < 2 ^ n -> 0 <= b < 2 ^ n -> 0 <= Z.lor a b < 2 ^ n.
Proof.
  intros Hn Ha Hb.
  assert (H0 : 0 <= Z.lor a b) by (apply Z.lor_nonneg; lia).
  split; [done|]. apply lt_pow2_log2; [done | done |].
  rewrite Z.log2_lor by lia.
  apply Z.max_lub_lt; apply lt_pow2_log2; lia.
Qed.

Lemma lxor_range n a b :
  0 < n -> 0 <= a < 2 ^ n -> 0 <= b < 2 ^ n -> 0 <= Z.lxor a b < 2 ^ n.
Proof.
  intros Hn Ha Hb.
  assert (H0 : 0 <= Z.lxor a b) by (apply Z.lxor_nonneg; lia).
  split; [done|]. apply lt_pow2_log2; [done | done |].
  eapply Z.le_lt_trans; [apply Z.log2_lxor; lia|].
  apply Z.max_lub_lt; apply lt_pow2_log2; lia.
Qed.

Lemma land_mask_range n x mask :
  0 <= n -> 0 <= mask < 2 ^ n -> 0 <= Z.land x mask < 2 ^ n.
Proof.
  intros Hn Hm.
  assert (E : mask = Z.land mask (Z.ones n))
    by (rewrite Z.land_ones, Z.mod_small; lia).
  rewrite E, Z.land_assoc, Z.land_ones by lia.
  apply Z.mod_pos_bound. apply Z.pow_pos_nonneg; lia.
Qed.

(** ** The raw stream under the parser *)

Section ParseFacts.

Variable garbage : Z.

Lemma raw_read1_bound r :
  0 <= pos r -> pos r <= Z.of_nat (length (content r)) ->
  pos (snd (raw_read1 garbage r)) <= Z.of_nat (length (content r)).
Proof.
  intros Hp Hle. unfold raw_read1.
  destruct (content r !! Z.to_nat (pos r)) as [b|] eqn:E; simpl; [|done].
  apply lookup_lt_Some in E. lia.
Qed.

Lemma raw_read1_full r :
  0 <= pos r -> pos r + 1 <= Z.of_nat (length (content r)) ->
  pos (snd (raw_read1 garbage r)) = pos r + 1.
Proof.
  intros Hp Hle. unfold raw_read1.
  destruct (content r !! Z.to_nat (pos r)) as [b|] eqn:E; simpl; [done|].
  apply lookup_ge_None in E. lia.
Qed.

Lemma readUint32_range r : 0 <= fst (fst (readUint32 garbage r)) < 2 ^ 32.
Proof.
  unfold readUint32, raw_read. simpl.
  repeat apply lor_range; try lia; apply land_mask_range; lia.
Qed.

Lemma readUint32_stream r :
  0 <= pos r ->
  content (snd (readUint32 garbage r)) = content r /\
  pos r <= pos (snd (readUint32 garbage r)) <= pos r + 4 /\
  (pos r <= Z.of_nat (length (content r)) ->
   pos (snd (readUint32 garbage r)) <= Z.of_nat (length (content r))).
Proof.
  intros Hp. unfold readUint32, raw_read. simpl.
  rewrite length_take, length_drop. repeat split; lia.
Qed.

Lemma readUint32_ok r :
  0 <= pos r ->
  (snd (fst (readUint32 garbage r)) = true <->
   pos r + 4 <= Z.of_nat (length (content r))) /\
  (snd (fst (readUint32 garbage r)) = true ->
   pos (snd (readUint32 garbage r)) = pos r + 4).
Proof.
  intros Hp. unfold readUint32, raw_read. simpl.
  rewrite length_take, length_drop. split.
  - rewrite Z.eqb_eq. lia.
  - rewrite Z.eqb_eq. lia.
Qed.

(** ** The name buffer *)

Lemma nameBuf_store_in i v buf :
  i < 512 -> nameBuf_store i v buf = Done (<[Z.to_nat i := v]> buf).
Proof.
  intros Hi. unfold nameBuf_store, NAMEBUF_SIZE.
  destruct (Z.ltb_spec i 512); [done | lia].
Qed.

Lemma nameBuf_store_out i v buf :
  512 <= i -> nameBuf_store i v buf = Overrun i.
Proof.
  intros Hi. unfold nameBuf_store, NAMEBUF_SIZE.
  destruct (Z.ltb_spec i 512); [lia | done].
Qed.

Lemma nameBuf_load_in i buf :
  i < 512 -> nameBuf_load i buf = Done (default 0 (buf !! Z.to_nat i)).
Proof.
  intros Hi. unfold nameBuf_load, NAMEBUF_SIZE.
  destruct (Z.ltb_spec i 512); [done | lia].
Qed.

(** One turn of the name loop inside the buffer. *)
Lemma read_name_step fuel nameLen i magic r buf :
  length buf = 512%nat -> 0 <= i < 512 -> i < nameLen ->
  read_name garbage (S fuel) nameLen i magic r buf =
    read_name garbage fuel nameLen (i + 1) (nextMagic magic)
      (snd (raw_read1 garbage r))
      (<[Z.to_nat i :=
           slash (u8 (Z.lxor (fst (raw_read1 garbage r)) (Z.land magic 0xFF)))]>
         buf).
Proof.
  intros Hlen Hi Hlt. cbn [read_name].
  destruct (Z.ltb_spec i nameLen); [|lia].
  destruct (raw_read1 garbage r) as [c r'] eqn:E. cbn [fst snd advanceMagic].
  rewrite nameBuf_store_in by lia. cbn [obind].
  rewrite nameBuf_load_in by lia. cbn [obind].
  rewrite list_lookup_insert_eq by lia. cbn [default]. unfold id.
  rewrite (u32_small (i + 1)) by lia.
  unfold slash.
  destruct (u8 (Z.lxor c (Z.land magic 255)) =? 92).
  - rewrite nameBuf_store_in by lia. cbn [obind].
    rewrite list_insert_insert_eq. reflexivity.
  - reflexivity.
Qed.

Lemma read_name_ok fuel : forall i magic r buf,
  length buf = 512%nat -> 0 <= i -> 0 <= pos r ->
  i + Z.of_nat fuel <= 512 ->
  exists r' buf',
    read_name garbage fuel (i + Z.of_nat fuel) i magic r buf =
      Done (i + Z.of_nat fuel, magicAfter (Z.of_nat fuel) magic, r', buf') /\
    length buf' = 512%nat /\
    content r' = content r /\
    pos r <= pos r' /\
    (pos r <= Z.of_nat (length (content r)) ->
     pos r' <= Z.of_nat (length (content r))) /\
    (pos r + Z.of_nat fuel <= Z.of_nat (length (content r)) ->
     pos r' = pos r + Z.of_nat fuel) /\
    (forall j : nat, Z.of_nat j < i \/ i + Z.of_nat fuel <= Z.of_nat j ->
       buf' !! j = buf !! j) /\
    (forall k : nat, (k < fuel)%nat ->
       buf' !! (Z.to_nat i + k)%nat =
         Some (slash (u8 (Z.lxor (raw_byte garbage r (pos r + Z.of_nat k))
                                 (Z.land (magicAfter (Z.of_nat k) magic) 0xFF))))).
Proof.
  induction fuel as [|f IH]; intros i magic r buf Hlen Hi Hp Hb.
  - exists r, buf. simpl. rewrite Z.add_0_r.
    repeat split; try done; try lia.
  - rewrite read_name_step by lia.
    destruct (raw_read1_spec garbage r Hp) as (Hfst & Hc & Hpos & Hrest).
    set (r1 := snd (raw_read1 garbage r)) in *.
    set (buf1 := <[Z.to_nat i := _]> buf).
    destruct (IH (i + 1) (nextMagic magic) r1 buf1)
      as (r' & buf' & Hrun & Hlen' & Hc' & Hpos' & Hle' & Hfull' & Hout & Hin).
    { subst buf1. rewrite length_insert. done. }
    { lia. } { lia. } { lia. }
    replace (i + 1 + Z.of_nat f) with (i + Z.of_nat (S f)) in Hrun by lia.
    exists r', buf'. rewrite Hrun.
    split.
    { f_equal. f_equal. f_equal. f_equal.
      replace (Z.of_nat (S f)) with (Z.of_nat f + 1) by lia.
      symmetry. apply magicAfter_succ_r. lia. }
    split; [done|]. split; [congruence|]. split; [lia|].
    split.
    { intros Hle. rewrite <- Hc. apply Hle'. rewrite Hc.
      apply raw_read1_bound; [done | done]. }
    split.
    { intros Hfull. rewrite Hfull'.
      - subst r1. rewrite raw_read1_full by lia. lia.
      - rewrite Hc. subst r1. rewrite raw_read1_full by lia. lia. }
    split.
    { intros j Hj. rewrite Hout by lia. subst buf1.
      apply list_lookup_insert_ne. lia. }
    intros [|k] Hk.
    + rewrite Nat.add_0_r, Hout by lia. subst buf1.
      rewrite list_lookup_insert_eq by lia.
      rewrite Hfst, Z.add_0_r. reflexivity.
    + replace (Z.to_nat i + S k)%nat with (Z.to_nat (i + 1) + k)%nat by lia.
      rewrite Hin by lia. rewrite Hrest by lia.
      replace (pos r + 1 + Z.of_nat k) with (pos r + Z.of_nat (S k)) by lia.
      replace (Z.of_nat (S k)) with (Z.of_nat k + 1) by lia.
      rewrite (magicAfter_succ_r (Z.of_nat k)) by lia. reflexivity.
Qed.

Lemma read_name_overrun fuel : forall i magic r buf,
  length buf = 512%nat -> 0 <= i <= 512 -> 512 < i + Z.of_nat fuel ->
  read_name garbage fuel (i + Z.of_nat fuel) i magic r buf = Overrun 512.
Proof.
  induction fuel as [|f IH]; intros i magic r buf Hlen Hi Hb; [lia|].
  destruct (Z.eq_dec i 512) as [->|Hne].
  - cbn [read_name].
    destruct (Z.ltb_spec 512 (512 + Z.of_nat (S f))); [|lia].
    destruct (raw_read1 garbage r) as [c r']. cbn [advanceMagic].
    rewrite nameBuf_store_out by lia. reflexivity.
  - rewrite read_name_step by lia.
    replace (i + Z.of_nat (S f)) with (i + 1 + Z.of_nat f) by lia.
    apply IH; [rewrite length_insert; done | lia | lia].
Qed.

Lemma register_dirs_ok i : forall buf dirs,
  length buf = 512%nat -> Z.of_nat i < 512 ->
  exists buf' dirs',
    register_dirs i buf dirs = Done (buf', dirs') /\ length buf' = 512%nat.
Proof.
  induction i as [|i IH]; intros buf dirs Hlen Hi.
  - exists buf, dirs. done.
  - cbn [register_dirs]. rewrite nameBuf_load_in by lia. cbn [obind].
    destruct (default 0 (buf !! Z.to_nat (Z.of_nat (S i))) =? 47).
    + rewrite nameBuf_store_in by lia. cbn [obind].
      apply IH; [rewrite length_insert; done | lia].
    + apply IH; [done | lia].
Qed.

(** The key read from the buffer is the C string of the name bytes. *)
Lemma cstr_prefix l : forall buf,
  (forall k : nat, (k < length l)%nat -> buf !! k = l !! k) ->
  buf !! length l = Some 0 ->
  cstr buf = cstr l.
Proof.
  induction l as [|c l IH]; intros buf Hpre Hnul.
  - destruct buf as [|b buf]; [done|]. simpl in Hnul.
    injection Hnul as ->. reflexivity.
  - destruct buf as [|b buf]; [done|].
    assert (Hb := Hpre O ltac:(simpl; lia)). simpl in Hb.
    injection Hb as ->. simpl. destruct (c =? 0); [done|].
    f_equal. apply IH; [|exact Hnul].
    intros k Hk. apply (Hpre (S k)). simpl. lia.
Qed.

Lemma name_bytes_length r p magic nameLen :
  length (name_bytes garbage r p magic nameLen) = Z.to_nat nameLen.
Proof. unfold name_bytes. rewrite length_fmap. apply length_seqZ. Qed.

Lemma name_bytes_lookup r p magic nameLen (k : nat) :
  Z.of_nat k < nameLen ->
  name_bytes garbage r p magic nameLen !! k =
    Some (slash (u8 (Z.lxor (raw_byte garbage r (p + Z.of_nat k))
                            (Z.land (magicAfter (Z.of_nat k) magic) 0xFF)))).
Proof.
  intros Hk. unfold name_bytes.
  rewrite list_lookup_fmap, lookup_seqZ_lt by done. reflexivity.
Qed.

Lemma parse_entry_break st :
  snd (fst (readUint32 garbage (ps_io st))) = false ->
  parse_entry garbage st = Done (StepBreak (snd (readUint32 garbage (ps_io st)))).
Proof.
  intros Hok. unfold parse_entry.
  destruct (readUint32 garbage (ps_io st)) as [[raw ok] r1].
  simpl in Hok. subst ok. reflexivity.
Qed.

(** When the body breaks, the stream is the one the failed [readUint32]
    left. *)
Lemma parse_entry_break_io st r :
  parse_entry garbage st = Done (StepBreak r) ->
  r = snd (readUint32 garbage (ps_io st)).
Proof.
  unfold parse_entry.
  destruct (readUint32 garbage (ps_io st)) as [[raw ok] r1]. cbn [snd].
  destruct ok; cbn [negb].
  - cbn [advanceMagic].
    destruct (read_name garbage _ _ _ _ _ _) as [[[[i m2] r2] b1]| |];
      cbn [obind]; try discriminate.
    destruct (nameBuf_store i 0 b1) as [b2| |]; cbn [obind]; try discriminate.
    destruct (readUint32 garbage r2) as [[rs oks] r3]. cbn [advanceMagic].
    destruct (register_dirs _ _ _) as [[b3 d]| |]; cbn [obind]; discriminate.
  - intros [= <-]. reflexivity.
Qed.

(** A header whose decrypted [nameLen] exceeds 511 makes the body index
    [nameBuf[512]]. *)
Lemma parse_entry_overrun st :
  parse_inv st ->
  snd (fst (readUint32 garbage (ps_io st))) = true ->
  511 < Z.lxor (fst (fst (readUint32 garbage (ps_io st)))) (ps_magic st) ->
  parse_entry garbage st = Overrun 512.
Proof.
  intros (Hlen & Hp & Hm) Hok Hbig. unfold parse_entry.
  destruct (readUint32_stream (ps_io st) Hp) as (_ & Hp1 & _).
  destruct (readUint32 garbage (ps_io st)) as [[raw ok] r1].
  simpl in Hok, Hbig, Hp1. subst ok. cbn [negb advanceMagic].
  set (nameLen := Z.lxor raw (ps_magic st)) in *.
  destruct (Z.eq_dec nameLen 512) as [E|Hne].
  - destruct (read_name_ok (Z.to_nat nameLen) 0 (nextMagic (ps_magic st)) r1
                (ps_nameBuf st) Hlen) as (r' & buf' & Hrun & _);
      [lia | lia | lia |].
    rewrite Z.add_0_l, Z2Nat.id in Hrun by lia. rewrite Hrun. cbn [obind].
    rewrite nameBuf_store_out by lia. cbn [obind]. f_equal. exact E.
  - pose proof (read_name_overrun (Z.to_nat nameLen) 0
                  (nextMagic (ps_magic st)) r1 (ps_nameBuf st) Hlen) as Hrun.
    rewrite Z.add_0_l, Z2Nat.id in Hrun by lia. rewrite Hrun by lia.
    reflexivity.
Qed.

Lemma raw_byte_content r r' k :
  content r' = content r -> raw_byte garbage r' k = raw_byte garbage r k.
Proof. intros E. unfold raw_byte. rewrite E. reflexivity. Qed.

Lemma raw_io_eq r r' p :
  content r' = content r -> pos r' = p -> r' = raw_seek r p.
Proof. destruct r'. unfold raw_seek. simpl. intros -> ->. reflexivity. Qed.

(** A header whose decrypted [nameLen] is at most 511 is parsed within the
    buffer; the fields of the entry and the state it leaves. *)
Lemma parse_entry_ok st :
  parse_inv st ->
  snd (fst (readUint32 garbage (ps_io st))) = true ->
  let m := ps_magic st in
  let r := ps_io st in
  let nameLen := Z.lxor (fst (fst (readUint32 garbage r))) m in
  nameLen <= 511 ->
  exists e st',
    parse_entry garbage st =
      Done (StepEntry nameLen
              (cstr (name_bytes garbage r (pos r + 4) (nextMagic m) nameLen))
              e st') /\
    0 <= nameLen /\
    startMagic e = magicAfter (nameLen + 2) m /\
    0 <= size e < 2 ^ 32 /\
    (pos r + 4 + nameLen <= Z.of_nat (length (content r)) ->
       size e =
         Z.lxor (fst (fst (readUint32 garbage
                             (raw_seek r (pos r + 4 + nameLen)))))
                (magicAfter (nameLen + 1) m) /\
       (pos r + 4 + nameLen + 4 <= Z.of_nat (length (content r)) ->
        offset e = pos r + nameLen + 8)) /\
    ps_magic st' = magicAfter (nameLen + 2) m /\
    ps_entryHash st' =
      <[cstr (name_bytes garbage r (pos r + 4) (nextMagic m) nameLen) := e]>
        (ps_entryHash st) /\
    parse_inv st' /\
    content (ps_io st') = content r /\
    (Z.of_nat (length (content r)) + 2 ^ 32 <= 2 ^ 64 ->
     pos r + 4 <= pos (ps_io st')).
Proof.
  intros (Hlen & Hp & Hm) Hok m r nameLen Hsmall.
  subst nameLen r m.
  set (r := ps_io st) in *. set (m := ps_magic st) in *.
  set (nameLen := Z.lxor (fst (fst (readUint32 garbage r))) m) in *.
  pose proof (readUint32_range r) as Hraw.
  destruct (readUint32_stream r Hp) as (Hc1 & Hp1 & _).
  destruct (readUint32_ok r Hp) as (Hfit1 & Hpos1).
  apply Hfit1 in Hok as Hfit. specialize (Hpos1 Hok). clear Hfit1.
  assert (Hn0 : 0 <= nameLen < 2 ^ 32)
    by (apply lxor_range; [lia | exact Hraw | exact Hm]).
  unfold parse_entry. subst nameLen. fold r. fold m.
  destruct (readUint32 garbage r) as [[raw ok] r1].
  cbn [fst snd] in *. subst ok.
  cbn [negb advanceMagic].
  set (nameLen := Z.lxor raw m) in *.
  destruct (read_name_ok (Z.to_nat nameLen) 0 (nextMagic m) r1
              (ps_nameBuf st) Hlen)
    as (r2 & buf1 & Hrun & Hlen1 & Hc2 & Hp2 & Hle2 & Hfull2 & _ & Hin);
    [lia | lia | lia |].
  rewrite Z.add_0_l, Z2Nat.id in Hrun by lia. rewrite Hrun. cbn [obind].
  rewrite Z2Nat.id in Hfull2 by lia.
  rewrite nameBuf_store_in by lia. cbn [obind].
  set (buf2 := <[Z.to_nat nameLen := 0]> buf1).
  assert (Hkey : cstr buf2 =
                 cstr (name_bytes garbage r (pos r + 4) (nextMagic m) nameLen)).
  { apply cstr_prefix.
    - intros k Hk. rewrite name_bytes_length in Hk.
      rewrite name_bytes_lookup by lia. subst buf2.
      rewrite list_lookup_insert_ne by lia.
      specialize (Hin k Hk). simpl in Hin. rewrite Hin.
      rewrite (raw_byte_content r r1) by done. rewrite Hpos1. reflexivity.
    - rewrite name_bytes_length. subst buf2.
      apply list_lookup_insert_eq. lia. }
  assert (Hp2' : 0 <= pos r2) by lia.
  pose proof (readUint32_range r2) as Hraw2.
  destruct (readUint32_stream r2 Hp2') as (Hc3 & Hp3 & Hle3).
  destruct (readUint32_ok r2 Hp2') as (_ & Hpos3).
  assert (Hsize : forall r2', r2' = r2 ->
            fst (fst (readUint32 garbage r2')) = fst (fst (readUint32 garbage r2)))
    by (intros ? ->; reflexivity).
  assert (Hok3 : pos r2 + 4 <= Z.of_nat (length (content r2)) ->
                 snd (fst (readUint32 garbage r2)) = true)
    by (apply (readUint32_ok r2 Hp2')).
  destruct (readUint32 garbage r2) as [[rawSize ok2] r3].
  cbn [fst snd] in Hraw2, Hc3, Hp3, Hle3, Hpos3, Hsize, Hok3.
  cbn [advanceMagic].
  destruct (register_dirs_ok (Z.to_nat nameLen) buf2 (ps_dirHash st))
    as (buf3 & dirs & Hd & Hlen3).
  { subst buf2. rewrite length_insert. done. } { lia. }
  rewrite Hd. cbn [obind]. rewrite Hkey.
  assert (Hm2 : magicAfter nameLen (nextMagic m) = magicAfter (nameLen + 1) m)
    by (symmetry; apply magicAfter_succ_r; lia).
  assert (Hm3 : nextMagic (magicAfter nameLen (nextMagic m)) =
                magicAfter (nameLen + 2) m).
  { rewrite Hm2. replace (nameLen + 2) with (nameLen + 1 + 1) by lia.
    symmetry. apply magicAfter_succ. lia. }
  assert (Hsz : 0 <= Z.lxor rawSize (magicAfter nameLen (nextMagic m)) < 2 ^ 32).
  { apply lxor_range; [lia | exact Hraw2 |].
    apply magicAfter_range. apply nextMagic_range. }
  eexists _, _. split; [reflexivity|].
  cbn [size startMagic offset ps_magic ps_entryHash ps_io ps_nameBuf].
  split; [lia|]. split; [exact Hm3|]. split; [exact Hsz|].
  split.
  { intros Hfits.
    assert (Hpos2 : pos r2 = pos r + 4 + nameLen)
      by (rewrite Hfull2; [lia | rewrite Hc1; lia]).
    split.
    - rewrite (Hsize (raw_seek r (pos r + 4 + nameLen)))
        by (symmetry; apply raw_io_eq; [congruence | exact Hpos2]).
      rewrite Hm2. reflexivity.
    - intros Hfits2. unfold raw_tell. rewrite Hpos3; [lia|].
      apply Hok3. rewrite Hc2, Hc1. lia. }
  split; [exact Hm3|]. split; [reflexivity|].
  split.
  { unfold parse_inv. cbn [ps_magic ps_io ps_nameBuf raw_seek pos].
    split; [exact Hlen3|].
    split; [apply u64_range | apply nextMagic_range]. }
  cbn [ps_io raw_seek content pos].
  split; [congruence|].
  intros Hbig. unfold raw_tell.
  assert (pos r3 <= Z.of_nat (length (content r))).
  { rewrite <- Hc1, <- Hc2. apply Hle3. rewrite Hc2. apply Hle2.
    rewrite Hc1. lia. }
  rewrite u64_small by lia. lia.
Qed.

(** ** The parse loop *)

Lemma parse_entry_inserts st n key e st' :
  parse_entry garbage st = Done (StepEntry n key e st') ->
  ps_entryHash st' = <[key := e]> (ps_entryHash st).
Proof.
  unfold parse_entry.
  destruct (readUint32 garbage (ps_io st)) as [[raw ok] r1].
  destruct ok; cbn [negb]; [|discriminate]. cbn [advanceMagic].
  destruct (read_name _ _ _ _ _ _ _) as [[[[i m2] r2] b1]| |];
    cbn [obind]; try discriminate.
  destruct (nameBuf_store i 0 b1) as [b2| |]; cbn [obind]; try discriminate.
  destruct (readUint32 garbage r2) as [[rawSize ok2] r3].
  destruct (register_dirs _ _ _) as [[b3 d]| |]; cbn [obind]; try discriminate.
  intros [= <- <- <- <-]. reflexivity.
Qed.

Lemma parse_loop_entryHash fuel : forall st st',
  parse_loop garbage fuel st = Done st' ->
  ps_entryHash st' = insert_all (entry_table garbage fuel st) (ps_entryHash st).
Proof.
  induction fuel as [|f IH]; intros st st' Hrun; [discriminate|].
  cbn [parse_loop entry_table] in *.
  destruct (parse_entry garbage st) as [[|n key e st1]| |] eqn:E;
    cbn [obind] in Hrun; try discriminate.
  - injection Hrun as <-. reflexivity.
  - rewrite (IH _ _ Hrun). unfold insert_all. cbn [foldl].
    rewrite (parse_entry_inserts _ _ _ _ _ E). reflexivity.
Qed.

Lemma parse_loop_overrun fuel : forall st,
  parse_inv st ->
  ((exists i, parse_loop garbage fuel st = Overrun i) <->
   Exists (fun n => 511 < n) (table_nameLens garbage fuel st)) /\
  (forall i, parse_loop garbage fuel st = Overrun i -> i = 512).
Proof.
  induction fuel as [|f IH]; intros st Hinv.
  - cbn. split; [|discriminate]. split.
    + intros [i Hi]. discriminate.
    + intros H. inversion H.
  - cbn [parse_loop table_nameLens].
    pose proof (parse_entry_break st) as Hbreak.
    pose proof (parse_entry_overrun st Hinv) as Hover.
    pose proof (parse_entry_ok st Hinv) as Hok.
    cbn zeta in Hok.
    destruct (readUint32 garbage (ps_io st)) as [[raw ok] r1].
    cbn [fst snd] in *. destruct ok; cbn [negb].
    + destruct (Z.le_gt_cases (Z.lxor raw (ps_magic st)) 511) as [Hle|Hgt].
      * destruct (Hok eq_refl Hle) as (e & st1 & Hrun & _ & _ & _ & _ & _ & _ & Hinv1 & _).
        rewrite Hrun. cbn [obind].
        destruct (IH st1 Hinv1) as (IH1 & IH2). split; [|exact IH2].
        rewrite IH1, Exists_cons. split; [tauto|]. intros [?|?]; [lia | done].
      * rewrite (Hover eq_refl) by lia. cbn [obind]. split.
        -- split; [intros _; apply Exists_cons_hd; lia | eauto].
        -- intros i [= <-]. reflexivity.
    + rewrite (Hbreak eq_refl). cbn [obind]. split; [|discriminate]. split.
      * intros [i Hi]. discriminate.
      * intros H. inversion H.
Qed.

(** The loop ends within the bound of [parse_fuel]. *)
Lemma parse_loop_fuel fuel : forall st,
  parse_inv st ->
  Z.of_nat (length (content (ps_io st))) + 2 ^ 32 <= 2 ^ 64 ->
  (1 <= fuel)%nat ->
  Z.of_nat (length (content (ps_io st))) - pos (ps_io st) < 4 * Z.of_nat fuel ->
  parse_loop garbage fuel st <> NoFuel.
Proof.
  induction fuel as [|f IH]; intros st Hinv Hbig H1 Hfuel; [lia|].
  cbn [parse_loop].
  pose proof (parse_entry_break st) as Hbreak.
  pose proof (parse_entry_overrun st Hinv) as Hover.
  pose proof (parse_entry_ok st Hinv) as Hok.
  destruct Hinv as (_ & Hp & _).
  destruct (readUint32_ok (ps_io st) Hp) as (Hfit & _).
  cbn zeta in Hok.
  destruct (readUint32 garbage (ps_io st)) as [[raw ok] r1].
  cbn [fst snd] in *. destruct ok.
  - destruct (Z.le_gt_cases (Z.lxor raw (ps_magic st)) 511) as [Hle|Hgt].
    + destruct (Hok eq_refl Hle)
        as (e & st1 & Hrun & _ & _ & _ & _ & _ & _ & Hinv1 & Hc & Hadv).
      rewrite Hrun. cbn [obind].
      specialize (Hadv Hbig). apply proj1 in Hfit. specialize (Hfit eq_refl).
      apply IH; [exact Hinv1 | rewrite Hc; exact Hbig | lia | rewrite Hc; lia].
    + rewrite (Hover eq_refl) by lia. discriminate.
  - rewrite (Hbreak eq_refl). discriminate.
Qed.

End ParseFacts.

(** ** Insertion order *)

Lemma insert_all_notin tbl : forall m k,
  k ∉ tbl.*1 -> insert_all tbl m !! k = m !! k.
Proof.
  induction tbl as [|[k' e'] tbl IH]; intros m k Hk; [done|].
  unfold insert_all in *. cbn [foldl]. cbn in Hk.
  apply not_elem_of_cons in Hk as [Hne Hk].
  rewrite IH by done. apply lookup_insert_ne. done.
Qed.

Lemma insert_all_last l1 l2 k e m :
  k ∉ l2.*1 -> insert_all (l1 ++ (k, e) :: l2) m !! k = Some e.
Proof.
  intros Hk.
  assert (E : insert_all (l1 ++ (k, e) :: l2) m =
              insert_all l2 (<[k := e]> (insert_all l1 m)))
    by (unfold insert_all; rewrite foldl_app; reflexivity).
  rewrite E, insert_all_notin by done. apply lookup_insert_eq.
Qed.

Lemma Forall_le_not_Exists_gt (l : list Z) :
  Forall (fun n => n <= 511) l <-> ~ Exists (fun n => 511 < n) l.
Proof.
  induction l as [|n l IH].
  - split; [intros _ H; inversion H | constructor].
  - rewrite Forall_cons, Exists_cons, IH. split.
    + intros [? ?] [?|?]; [lia | done].
    + intros H. split; [|tauto].
      destruct (Z.le_gt_cases n 511); [done|]. exfalso. apply H. left. lia.
Qed.

(** ** Opening an archive *)

Lemma RGSS_openArchive_parsed garbage r nameBuf d :
  RGSS_openArchive garbage r 0 nameBuf = Done (Some d) ->
  exists st,
    parse_loop garbage (parse_fuel r)
      (parse_start (after_header garbage r) nameBuf) = Done st /\
    d = {| archiveIo := ps_io st; entryHash := ps_entryHash st;
           dirHash := ps_dirHash st |}.
Proof.
  unfold RGSS_openArchive, after_header. cbn [Z.eqb negb].
  destruct (readUint32 garbage r) as [[h1 ok1] r1]. cbn [snd].
  destruct (readUint32 garbage r1) as [[h2 ok2] r2]. cbn [snd].
  destruct (negb (h1 =? RGSS_HEADER_1) || negb (h2 =? RGSS_HEADER_2));
    [discriminate|].
  destruct (parse_loop garbage (parse_fuel r) (parse_start r2 nameBuf))
    as [st| |]; cbn [obind]; try discriminate.
  intros [= <-]. exists st. done.
Qed.

Lemma RGSS_openArchive_header garbage r nameBuf :
  fst (fst (readUint32 garbage r)) = RGSS_HEADER_1 ->
  fst (fst (readUint32 garbage (snd (readUint32 garbage r)))) = RGSS_HEADER_2 ->
  RGSS_openArchive garbage r 0 nameBuf =
    obind (parse_loop garbage (parse_fuel r)
             (parse_start (after_header garbage r) nameBuf))
          (fun st => Done (Some {| archiveIo := ps_io st;
                                   entryHash := ps_entryHash st;
                                   dirHash := ps_dirHash st |})).
Proof.
  unfold RGSS_openArchive, after_header. cbn [Z.eqb negb].
  destruct (readUint32 garbage r) as [[h1 ok1] r1]. cbn [fst snd].
  destruct (readUint32 garbage r1) as [[h2 ok2] r2]. cbn [fst snd].
  intros -> ->. rewrite !Z.eqb_refl. reflexivity.
Qed.

Lemma parse_start_inv garbage r nameBuf :
  length nameBuf = 512%nat -> 0 <= pos r ->
  parse_inv (parse_start (after_header garbage r) nameBuf) /\
  content (after_header garbage r) = content r.
Proof.
  intros Hlen Hp. unfold parse_inv, parse_start, after_header.
  cbn [ps_nameBuf ps_io ps_magic].
  destruct (readUint32_stream garbage r Hp) as (Hc1 & Hp1 & _).
  destruct (readUint32_stream garbage (snd (readUint32 garbage r)))
    as (Hc2 & Hp2 & _); [lia|].
  split; [|congruence].
  split; [done|]. split; [lia|]. unfold RGSS_MAGIC. lia.
Qed.

(** [RGSS_openArchive] returns: the model's bound on the loop is never the
    reason it stops. *)
Lemma RGSS_openArchive_returns garbage r forWrite nameBuf :
  length nameBuf = 512%nat -> 0 <= pos r ->
  Z.of_nat (length (content r)) + 2 ^ 32 <= 2 ^ 64 ->
  RGSS_openArchive garbage r forWrite nameBuf <> NoFuel.
Proof.
  intros Hlen Hp Hbig.
  destruct (parse_start_inv garbage r nameBuf Hlen Hp) as (Hinv & Hc).
  pose proof (parse_loop_fuel garbage (parse_fuel r)
                (parse_start (after_header garbage r) nameBuf) Hinv) as Hfuel.
  cbn [parse_start ps_io] in Hfuel. rewrite Hc in Hfuel.
  destruct Hinv as (_ & Hp' & _). cbn [parse_start ps_io] in Hp'.
  specialize (Hfuel Hbig).
  unfold RGSS_openArchive, after_header in *.
  destruct (negb (forWrite =? 0)); [discriminate|].
  destruct (readUint32 garbage r) as [[h1 ok1] r1]. cbn [snd] in *.
  destruct (readUint32 garbage r1) as [[h2 ok2] r2]. cbn [snd] in *.
  destruct (negb (h1 =? RGSS_HEADER_1) || negb (h2 =? RGSS_HEADER_2));
    [discriminate|].
  destruct (parse_loop garbage (parse_fuel r) (parse_start r2 nameBuf))
    as [st| |]; cbn [obind]; try discriminate.
  exfalso. apply Hfuel; [unfold parse_fuel; lia | unfold parse_fuel; lia | done].
Qed.

(** ** The entry-table parser: claims *)

Lemma StepEntry_inj n k e st n' k' e' st' :
  Done (StepEntry n k e st) = Done (StepEntry n' k' e' st') ->
  n = n' /\ k = k' /\ e = e' /\ st = st'.
Proof. intros [= -> -> -> ->]. done. Qed.

(** C6.  For an entry the parser completes: [nameLen] is the 4-byte field
    XOR the full word returned by one [advanceMagic]; byte [j] of the file
    name is the raw byte XOR the low 8 bits of the word returned by the
    next [advanceMagic], one step of the recurrence per byte (then a
    backslash is turned into a slash); [entrySize] is the 4-byte field XOR
    the full word of one more [advanceMagic]; so the entry's [startMagic],
    and the word the parser goes on with, is the initial word advanced
    [nameLen + 2] times. *)
Theorem table_fields_decryption
    (garbage : Z) (st : ParseState) (nameLen : Z) (key : list Z)
    (e : RGSS_entryData) (st' : ParseState) :
  parse_inv st ->
  parse_entry garbage st = Done (StepEntry nameLen key e st') ->
  let r := ps_io st in
  let m := ps_magic st in
  nameLen = Z.lxor (fst (fst (readUint32 garbage r))) (fst (advanceMagic m)) /\
  key = cstr (name_bytes garbage r (pos r + 4) (nextMagic m) nameLen) /\
  (forall j : nat, Z.of_nat j < nameLen ->
     name_bytes garbage r (pos r + 4) (nextMagic m) nameLen !! j =
       Some (slash (u8 (Z.lxor
               (raw_byte garbage r (pos r + 4 + Z.of_nat j))
               (Z.land (fst (advanceMagic (magicAfter (1 + Z.of_nat j) m)))
                       0xFF))))) /\
  (pos r + 4 + nameLen <= Z.of_nat (length (content r)) ->
   size e =
     Z.lxor (fst (fst (readUint32 garbage (raw_seek r (pos r + 4 + nameLen)))))
            (fst (advanceMagic (magicAfter (1 + nameLen) m)))) /\
  startMagic e = magicAfter (nameLen + 2) m /\
  ps_magic st' = magicAfter (nameLen + 2) m.
Proof.
  intros Hinv Hrun r m.
  pose proof (parse_entry_break garbage st) as Hbreak.
  pose proof (parse_entry_overrun garbage st Hinv) as Hover.
  pose proof (parse_entry_ok garbage st Hinv) as Hok. cbn zeta in Hok.
  fold r in Hbreak, Hover, Hok. fold m in Hover, Hok.
  destruct (snd (fst (readUint32 garbage r))) eqn:Eok;
    [|rewrite Hbreak in Hrun by done; discriminate].
  destruct (Z.le_gt_cases (Z.lxor (fst (fst (readUint32 garbage r))) m) 511)
    as [Hle|Hgt]; [|rewrite Hover in Hrun by (done || lia); discriminate].
  destruct (Hok eq_refl Hle)
    as (e0 & st0 & Hrun0 & Hn0 & Hsm & _ & Hsz & Hm' & _).
  rewrite Hrun0 in Hrun. apply StepEntry_inj in Hrun as (<- & <- & <- & <-).
  rewrite !advanceMagic_fst.
  split; [reflexivity|]. split; [reflexivity|].
  split.
  { intros j Hj. rewrite name_bytes_lookup, advanceMagic_fst by done.
    rewrite <- Z.add_assoc.
    replace (1 + Z.of_nat j) with (Z.of_nat j + 1) by lia.
    rewrite (magicAfter_succ_r (Z.of_nat j)) by lia. reflexivity. }
  split.
  { intros Hfit. destruct (Hsz Hfit) as (-> & _).
    replace (1 + Z.lxor (fst (fst (readUint32 garbage r))) m)
      with (Z.lxor (fst (fst (readUint32 garbage r))) m + 1) by lia.
    reflexivity. }
  split; assumption.
Qed.

Lemma table_fields_decryption_witness :
  exists st',
    parse_entry 0 (parse_start (after_header 0 archive_one) nameBuf_init)
      = Done (StepEntry 3 path_a_b entry_one st') /\
    startMagic entry_one = magicAfter 5 RGSS_MAGIC /\
    ps_magic st' = magicAfter 5 RGSS_MAGIC.
Proof.
  assert (H : exists st',
             parse_entry 0 (parse_start (after_header 0 archive_one) nameBuf_init)
               = Done (StepEntry 3 path_a_b entry_one st')).
  { eexists. vm_compute. reflexivity. }
  destruct H as [st' H]. exists st'. split; [exact H|].
  assert (Hinv : parse_inv (parse_start (after_header 0 archive_one) nameBuf_init))
    by (apply parse_start_inv; [reflexivity | simpl; lia]).
  pose proof (table_fields_decryption 0
                (parse_start (after_header 0 archive_one) nameBuf_init)
                3 path_a_b entry_one st' Hinv H) as Hthm.
  cbv zeta in Hthm.
  exact (conj (proj1 (proj2 (proj2 (proj2 (proj2 Hthm)))))
              (proj2 (proj2 (proj2 (proj2 (proj2 Hthm)))))).
Defined.

(** C7.  On an archive whose header is accepted, the parser stores every
    decrypted name byte and a terminating NUL in the 512-byte [nameBuf]
    without checking the decrypted [nameLen]: no access leaves the buffer if
    and only if every decrypted [nameLen] the parser meets is at most 511,
    and an access that does leave it is at index 512. *)
Theorem nameBuf_in_bounds_iff_nameLen_le_511
    (garbage : Z) (r : RawIo) (nameBuf : list Z) :
  length nameBuf = 512%nat -> 0 <= pos r ->
  Z.of_nat (length (content r)) + 2 ^ 32 <= 2 ^ 64 ->
  fst (fst (readUint32 garbage r)) = RGSS_HEADER_1 ->
  fst (fst (readUint32 garbage (snd (readUint32 garbage r)))) = RGSS_HEADER_2 ->
  ((forall i, RGSS_openArchive garbage r 0 nameBuf <> Overrun i) <->
   Forall (fun n => n <= 511)
     (table_nameLens garbage (parse_fuel r)
        (parse_start (after_header garbage r) nameBuf))) /\
  (forall i, RGSS_openArchive garbage r 0 nameBuf = Overrun i -> i = 512) /\
  RGSS_openArchive garbage r 0 nameBuf <> NoFuel.
Proof.
  intros Hlen Hp Hbig Hh1 Hh2.
  destruct (parse_start_inv garbage r nameBuf Hlen Hp) as (Hinv & _).
  destruct (parse_loop_overrun garbage (parse_fuel r) _ Hinv) as (Hiff & H512).
  split; [|split; [|apply RGSS_openArchive_returns; assumption]].
  - rewrite Forall_le_not_Exists_gt, <- Hiff.
    rewrite (RGSS_openArchive_header garbage r nameBuf Hh1 Hh2).
    destruct (parse_loop garbage (parse_fuel r) _) as [st|j|]; cbn [obind].
    + split; [intros _ [i Hi]; discriminate | intros _ i; discriminate].
    + split; [intros H _; apply (H j); reflexivity |].
      intros H. exfalso. apply H. eauto.
    + split; [intros _ [i Hi]; discriminate | intros _ i; discriminate].
  - intros i. rewrite (RGSS_openArchive_header garbage r nameBuf Hh1 Hh2).
    destruct (parse_loop garbage (parse_fuel r) _) as [st|j|] eqn:E;
      cbn [obind]; try discriminate.
    intros [= <-]. apply H512. reflexivity.
Qed.

Lemma nameBuf_in_bounds_iff_nameLen_le_511_witness :
  (forall i, RGSS_openArchive 0 archive_two 0 nameBuf_init <> Overrun i) /\
  RGSS_openArchive 0 archive_two 0 nameBuf_init <> NoFuel.
Proof.
  destruct (nameBuf_in_bounds_iff_nameLen_le_511 0 archive_two nameBuf_init)
    as ((_ & Hin) & _ & Hfuel);
    [reflexivity | simpl; lia | simpl; lia
     | vm_compute; reflexivity | vm_compute; reflexivity |].
  split; [|exact Hfuel].
  apply Hin. vm_compute. repeat constructor; discriminate.
Defined.

(** An archive whose only entry header decrypts to [nameLen = 512]. *)
Example nameLen_512_overruns :
  RGSS_openArchive 0
    {| content := [82; 71; 83; 83; 65; 68; 0; 1; 254; 200; 173; 222];
       pos := 0 |} 0 nameBuf_init = Overrun 512.
Proof. vm_compute. reflexivity. Qed.

(** C10.  When the entry table holds the same normalised path twice, the
    index maps the path to the metadata of the entry that comes later in
    the table (the last one with that path); [openRead] builds its handle
    from that entry and [stat] reports its size. *)
Theorem later_duplicate_entry_wins
    (garbage : Z) (r : RawIo) (nameBuf : list Z) (d : RGSS_archiveData)
    (l1 l2 l3 : list (list Z * RGSS_entryData)) (k : list Z)
    (e1 e2 : RGSS_entryData) :
  RGSS_openArchive garbage r 0 nameBuf = Done (Some d) ->
  entry_table garbage (parse_fuel r)
    (parse_start (after_header garbage r) nameBuf)
    = l1 ++ (k, e1) :: l2 ++ (k, e2) :: l3 ->
  k ∉ l3.*1 ->
  entryHash d !! k = Some e2 /\
  RGSS_openRead d k =
    Some {| data := e2; currentMagic := startMagic e2; currentOffset := 0;
            io := Some (raw_duplicate (archiveIo d)) |} /\
  RGSS_stat d k =
    Some {| filesize := sint64 (size e2); modtime := 0; createtime := 0;
            accesstime := 0; filetype := PHYSFS_FILETYPE_REGULAR;
            readonly := 1 |}.
Proof.
  intros Hopen Htbl Hk.
  destruct (RGSS_openArchive_parsed garbage r nameBuf d Hopen) as (st & Hrun & ->).
  assert (Hlook : ps_entryHash st !! k = Some e2).
  { rewrite (parse_loop_entryHash garbage _ _ _ Hrun), Htbl.
    replace (l1 ++ (k, e1) :: l2 ++ (k, e2) :: l3)
      with ((l1 ++ (k, e1) :: l2) ++ (k, e2) :: l3)
      by (rewrite <- app_assoc; reflexivity).
    apply insert_all_last. exact Hk. }
  unfold RGSS_openRead, RGSS_stat. cbn [entryHash dirHash archiveIo].
  rewrite Hlook. repeat split.
Qed.

Lemma later_duplicate_entry_wins_witness :
  exists d,
    RGSS_openArchive 0 archive_two 0 nameBuf_init = Done (Some d) /\
    entryHash d !! path_a_b =
      Some {| offset := 38; size := 3; startMagic := 2589508246 |}.
Proof.
  assert (H : exists d,
             RGSS_openArchive 0 archive_two 0 nameBuf_init = Done (Some d)).
  { eexists. vm_compute. reflexivity. }
  destruct H as [d H]. exists d. split; [exact H|].
  refine (proj1 (later_duplicate_entry_wins 0 archive_two nameBuf_init d
                   [] [] [] path_a_b entry_one
                   {| offset := 38; size := 3; startMagic := 2589508246 |}
                   H _ _)).
  - vm_compute. reflexivity.
  - apply not_elem_of_nil.
Defined.

(** ** The facade *)

Lemma substring_whole s : forall n,
  (String.length s <= n)%nat -> String.substring 0 n s = s.
Proof.
  induction s as [|c s IH]; intros [|n] Hn; simpl in *; try lia; try done.
  f_equal. apply IH. lia.
Qed.

Lemma string_length_append s1 s2 :
  String.length (s1 +:+ s2) = (String.length s1 + String.length s2)%nat.
Proof. induction s1 as [|c s1 IH]; simpl; [done | by rewrite IH]. Qed.

Lemma snprintf_name_fits filename ext :
  (String.length filename + 1 + String.length ext <= 1023)%nat ->
  snprintf_name filename ext = filename +:+ "." +:+ ext.
Proof.
  intros Hfit. unfold snprintf_name, BUFF_SIZE. apply substring_whole.
  rewrite !string_length_append. simpl. lia.
Qed.

Section FacadeFacts.

Context {PHYSFS_File : Type}.
Variable PHYSFS_exists : string -> bool.
Variable PHYSFS_openRead : string -> option PHYSFS_File.
Variable PHYSFS_getLastError : string.

Lemma try_extensions_find filename exts :
  try_extensions PHYSFS_exists filename exts =
    List.find PHYSFS_exists (snprintf_name filename <$> exts).
Proof.
  induction exts as [|ext exts IH]; [done|]. cbn [try_extensions fmap list_fmap List.find].
  destruct (PHYSFS_exists (snprintf_name filename ext)); [done | exact IH].
Qed.

End FacadeFacts.

(** C8, as stated, fails: with a 1020-byte name that does not exist and
    [name.jpg] present, the candidate assembled in the 1024-byte buffer is
    cut short, nothing is found and [exists] answers false. *)
Lemma long_name_extension_not_tried :
  ~ (forall (ex : string -> bool) (name ext : string) (type : FileType),
       type <> Undefined -> ex name = false ->
       In ext (fileExtensions type) ->
       ex (name +:+ "." +:+ ext) = true ->
       FileSystem_exists ex name type = true).
Proof.
  intros H.
  specialize (H (only_exists (long_name +:+ ".jpg")) long_name "jpg"%string Image).
  assert (E : FileSystem_exists (only_exists (long_name +:+ ".jpg"))
                long_name Image = false)
    by (vm_compute; reflexivity).
  rewrite H in E; [discriminate | discriminate | | |].
  - vm_compute. reflexivity.
  - left. reflexivity.
  - vm_compute. reflexivity.
Qed.

(** C8 (amended).  [resolve(name, category)]: a name that exists verbatim
    is returned; otherwise, for a known category, the candidate for each
    extension of the category's list, in order, is the text
    [name + "." + ext] cut to the 1023 bytes that fit the assembly buffer
    (the whole text whenever it fits), and the first candidate that exists
    is returned; otherwise nothing is found.  [openRead] throws the
    no-file error carrying the requested name exactly when nothing is
    found, and [exists] is true exactly when something is. *)
Theorem completeFileName_resolution
    {PHYSFS_File : Type} (PHYSFS_exists : string -> bool)
    (PHYSFS_openRead : string -> option PHYSFS_File)
    (PHYSFS_getLastError : string) (name : string) (type : FileType) :
  completeFileName PHYSFS_exists name type =
    (if PHYSFS_exists name then Some name
     else match type with
          | Undefined => None
          | _ => List.find PHYSFS_exists
                   (snprintf_name name <$> fileExtensions type)
          end) /\
  (forall ext,
     (String.length name + 1 + String.length ext <= 1023)%nat ->
     snprintf_name name ext = name +:+ "." +:+ ext) /\
  (openReadInt PHYSFS_exists PHYSFS_openRead PHYSFS_getLastError name type
     = inl (NoFileError name) <->
   completeFileName PHYSFS_exists name type = None) /\
  (FileSystem_exists PHYSFS_exists name type = true <->
   is_Some (completeFileName PHYSFS_exists name type)).
Proof.
  split; [|split; [|split]].
  - unfold completeFileName. destruct (PHYSFS_exists name); [done|].
    destruct type; try apply try_extensions_find; done.
  - intros ext. apply snprintf_name_fits.
  - unfold openReadInt.
    destruct (completeFileName PHYSFS_exists name type) as [found|]; [|done].
    destruct (PHYSFS_openRead found); split; discriminate.
  - unfold FileSystem_exists.
    destruct (completeFileName PHYSFS_exists name type) as [found|].
    + split; [intros _; eauto | done].
    + split; [discriminate | intros [? ?]; discriminate].
Qed.

Lemma completeFileName_resolution_witness :
  completeFileName (only_exists "title.png") "title" Image = Some "title.png"%string /\
  snprintf_name "title" "png" = "title.png"%string.
Proof.
  destruct (completeFileName_resolution (PHYSFS_File := unit)
              (only_exists "title.png") (fun _ => None) "" "title" Image)
    as (H1 & H2 & _).
  split; [rewrite H1; reflexivity | apply H2; simpl; lia].
Defined.

(** * Further properties of the entry I/O handle *)

Section HandleFacts.

Variable garbage : Z.

(** The loop of [RGSS_ioRead] run for [f1 + f2] turns is the loop run for
    [f1] turns followed by the loop run for [f2] turns. *)
Lemma read_loop_app f1 : forall f2 o magic raw,
  0 <= o -> o + Z.of_nat f1 + Z.of_nat f2 < 2 ^ 64 ->
  read_loop garbage (f1 + f2) (o + Z.of_nat f1 + Z.of_nat f2) o magic raw =
    let '(buf1, o1, m1, r1) :=
      read_loop garbage f1 (o + Z.of_nat f1) o magic raw in
    let '(buf2, o2, m2, r2) :=
      read_loop garbage f2 (o + Z.of_nat f1 + Z.of_nat f2) o1 m1 r1 in
    (buf1 ++ buf2, o2, m2, r2).
Proof.
  induction f1 as [|f1 IH]; intros f2 o magic raw Ho Hb.
  - cbn [Nat.add read_loop]. rewrite Z.add_0_r.
    destruct (read_loop garbage f2 (o + Z.of_nat f2) o magic raw)
      as [[[buf2 o2] m2] r2]. reflexivity.
  - cbn [Nat.add read_loop].
    destruct (Z.ltb_spec o (o + Z.of_nat (S f1) + Z.of_nat f2)); [|lia].
    destruct (Z.ltb_spec o (o + Z.of_nat (S f1))); [|lia].
    destruct (read_body garbage o magic raw) as [[[out o'] magic'] raw'] eqn:E.
    assert (Ho' : o' = o + 1).
    { unfold read_body in E. destruct (raw_read1 garbage raw).
      injection E as _ <- _ _. apply u64_small. lia. }
    subst o'.
    replace (o + Z.of_nat (S f1) + Z.of_nat f2)
      with (o + 1 + Z.of_nat f1 + Z.of_nat f2) by lia.
    replace (o + Z.of_nat (S f1)) with (o + 1 + Z.of_nat f1) by lia.
    rewrite IH by lia.
    destruct (read_loop garbage f1 (o + 1 + Z.of_nat f1) (o + 1) magic' raw')
      as [[[buf1 o1] m1] r1].
    destruct (read_loop garbage f2 (o + 1 + Z.of_nat f1 + Z.of_nat f2) o1 m1 r1)
      as [[[buf2 o2] m2] r2]. reflexivity.
Qed.

(** Inside the stream every turn of the loop moves the raw position by
    one. *)
Lemma read_loop_pos fuel : forall bound o magic raw,
  0 <= pos raw ->
  pos raw + Z.of_nat fuel <= Z.of_nat (length (content raw)) ->
  0 <= o -> o + Z.of_nat fuel <= bound -> bound < 2 ^ 64 ->
  pos (snd (read_loop garbage fuel bound o magic raw)) = pos raw + Z.of_nat fuel /\
  content (snd (read_loop garbage fuel bound o magic raw)) = content raw.
Proof.
  induction fuel as [|f IH]; intros bound o magic raw Hp Hfit Ho Hb Hbig.
  - cbn. split; [lia | done].
  - cbn [read_loop]. destruct (Z.ltb_spec o bound); [|lia].
    unfold read_body.
    pose proof (raw_read1_full garbage raw Hp ltac:(lia)) as Hpos.
    destruct (raw_read1_spec garbage raw Hp) as (_ & Hc & _).
    destruct (raw_read1 garbage raw) as [byte raw']. cbn [snd] in Hpos, Hc.
    rewrite (u64_small (o + 1)) by lia.
    set (magic' := if (o + 1) mod 4 =? 0 then _ else _).
    destruct (IH bound (o + 1) magic' raw') as (IHp & IHc);
      [lia | rewrite Hc; lia | lia | lia | lia |].
    destruct (read_loop garbage f bound (o + 1) magic' raw')
      as [[[buf o2] m2] r2]. cbn [snd] in *.
    split; [lia | congruence].
Qed.

Lemma raw_seek_same r p : pos r = p -> raw_seek r p = r.
Proof. destruct r. unfold raw_seek. simpl. intros ->. reflexivity. Qed.

(** X1.  Read granularity does not matter: on a handle whose entry lies
    inside the archive stream, [read(a)] followed by [read(b)] produces the
    bytes of one [read(a + b)], in the same order, and leaves the same
    handle. *)
Theorem read_in_two_steps (h : RGSS_entryHandle) (raw : RawIo) (a b : Z) :
  io h = Some raw ->
  0 <= currentOffset h <= size (data h) ->
  0 <= offset (data h) ->
  offset (data h) + size (data h) <= Z.of_nat (length (content raw)) ->
  Z.of_nat (length (content raw)) < 2 ^ 64 ->
  0 <= a -> 0 <= b ->
  exists n1 buf1 h1 n2 buf2 h2 n,
    RGSS_ioRead garbage h a = Some (n1, buf1, h1) /\
    RGSS_ioRead garbage h1 b = Some (n2, buf2, h2) /\
    RGSS_ioRead garbage h (a + b) = Some (n, buf1 ++ buf2, h2) /\
    (a + b < 2 ^ 63 -> n = n1 + n2).
Proof.
  intros Hio Hcur Hoff Hfit Hbig Ha Hb.
  set (cur := currentOffset h) in *. set (sz := size (data h)) in *.
  set (n1 := Z.min (sz - cur) a). set (n2 := Z.min (sz - (cur + n1)) b).
  assert (Hn : Z.min (sz - cur) (a + b) = n1 + n2) by (subst n1 n2; lia).
  assert (Hn1 : 0 <= n1) by (subst n1; lia).
  assert (Hn2 : 0 <= n2) by (subst n1 n2; lia).
  assert (Hle : cur + n1 + n2 <= sz) by (subst n1 n2; lia).
  set (raw1 := raw_seek raw (offset (data h) + cur)).
  destruct (read_loop_spec garbage (Z.to_nat n1) cur (currentMagic h) raw1)
    as (buf1 & r1 & Hl1 & _); [lia | subst raw1; simpl; lia | lia |].
  rewrite Z2Nat.id in Hl1 by lia.
  destruct (read_loop_pos (Z.to_nat n1) (cur + n1) cur (currentMagic h) raw1)
    as (Hp1 & Hc1); [subst raw1; simpl; lia | subst raw1; simpl; lia
                     | lia | lia | lia |].
  rewrite Hl1 in Hp1, Hc1. cbn [snd] in Hp1, Hc1.
  subst raw1. cbn [raw_seek pos content] in Hp1, Hc1.
  set (raw1 := raw_seek raw (offset (data h) + cur)) in *.
  set (m1 := magicAfter ((cur + n1) / 4 - cur / 4) (currentMagic h)) in *.
  destruct (read_loop_spec garbage (Z.to_nat n2) (cur + n1) m1 r1)
    as (buf2 & r2 & Hl2 & _); [lia | lia | lia |].
  rewrite Z2Nat.id in Hl2 by lia.
  pose proof (read_loop_app (Z.to_nat n1) (Z.to_nat n2) cur (currentMagic h) raw1)
    as Happ.
  rewrite !Z2Nat.id in Happ by lia. rewrite Hl1, Hl2 in Happ.
  specialize (Happ ltac:(lia) ltac:(lia)).
  rewrite <- Z2Nat.inj_add in Happ by lia.
  set (h1 := {| data := data h; currentMagic := m1; currentOffset := cur + n1;
                io := Some r1 |}).
  exists (sint64 n1), buf1, h1, (sint64 n2), buf2.
  eexists _, (sint64 (n1 + n2)).
  split; [|split; [|split]].
  - unfold RGSS_ioRead. rewrite Hio. fold cur sz.
    rewrite (u64_small (sz - cur)), (u64_small (offset (data h) + cur)) by lia.
    fold n1. rewrite (u64_small (cur + n1)) by lia.
    fold raw1. rewrite Hl1. reflexivity.
  - unfold RGSS_ioRead. subst h1. cbn [io data currentOffset currentMagic].
    fold sz. rewrite (u64_small (sz - (cur + n1))) by lia. fold n2.
    rewrite (u64_small (offset (data h) + (cur + n1))) by lia.
    rewrite (u64_small (cur + n1 + n2)) by lia.
    rewrite (raw_seek_same r1) by lia.
    rewrite Hl2. reflexivity.
  - unfold RGSS_ioRead. rewrite Hio. fold cur sz.
    rewrite (u64_small (sz - cur)), (u64_small (offset (data h) + cur)) by lia.
    rewrite Hn. rewrite (u64_small (cur + (n1 + n2))) by lia.
    fold raw1. rewrite Z.add_assoc, Happ.
    reflexivity.
  - intros Hsmall. rewrite !sint64_small; subst n1 n2; lia.
Qed.

(** X2.  A read returns [min(size - currentOffset, len)], stores exactly
    that many bytes, moves [tell] forward by that count without passing
    [length], and keeps [length]; at the end of the entry it returns 0 and
    stores nothing. *)
Theorem read_count_and_cursor (h : RGSS_entryHandle) (raw : RawIo) (len : Z) :
  io h = Some raw ->
  0 <= currentOffset h <= size (data h) -> size (data h) < 2 ^ 63 ->
  0 <= len ->
  exists n buf h',
    RGSS_ioRead garbage h len = Some (n, buf, h') /\
    n = Z.min (size (data h) - currentOffset h) len /\
    Z.of_nat (length buf) = n /\
    0 <= n <= len /\
    RGSS_ioTell h' = RGSS_ioTell h + n /\
    RGSS_ioTell h' <= RGSS_ioLength h' /\
    RGSS_ioLength h' = RGSS_ioLength h /\
    (currentOffset h = size (data h) -> n = 0 /\ buf = [] /\
       RGSS_ioTell h' = RGSS_ioTell h).
Proof.
  intros Hio Hcur Hsz Hlen.
  destruct (RGSS_ioRead_spec garbage h raw len Hio Hcur ltac:(lia) Hlen)
    as (buf & raw' & Hr & Hl & _).
  set (n := Z.min (size (data h) - currentOffset h) len) in *.
  assert (Hn : 0 <= n <= len) by (subst n; lia).
  assert (Hn' : currentOffset h + n <= size (data h)) by (subst n; lia).
  eexists _, buf, _. split; [exact Hr|].
  unfold RGSS_ioTell, RGSS_ioLength. cbn [currentOffset data].
  rewrite !sint64_small by lia.
  repeat split; try lia.
  - destruct buf; [done | simpl in Hl; lia].
Qed.

(** X3.  A rewinding seek does not depend on the keystream word the handle
    held: whatever [currentMagic] was, after [seek(target)] with
    [target < currentOffset] the handle satisfies the invariant, and a read
    decodes every byte under the keystream word of its own offset. *)
Theorem rewind_restores_keystream
    (h : RGSS_entryHandle) (raw : RawIo) (target len : Z) :
  io h = Some raw ->
  0 <= target < currentOffset h -> currentOffset h < 2 ^ 64 ->
  target < size (data h) -> size (data h) < 2 ^ 64 ->
  0 <= len ->
  exists h1 n buf h2,
    RGSS_ioSeek h target = Some (1, h1) /\
    data h1 = data h /\ currentOffset h1 = target /\ magic_invariant h1 /\
    RGSS_ioRead garbage h1 len = Some (n, buf, h2) /\
    forall i, 0 <= i < Z.min (size (data h) - target) len ->
      buf !! Z.to_nat i =
        Some (u8 (Z.lxor
                (raw_byte garbage raw (u64 (offset (data h) + target) + i))
                (data_mask (magic_at (data h) (target + i)) (target + i)))).
Proof.
  intros Hio Ht Hcur Hlt Hsz Hlen.
  pose proof (RGSS_ioSeek_move h raw target Hio ltac:(lia)) as Hs.
  rewrite u64_small in Hs by lia. specialize (Hs ltac:(lia)).
  destruct (Z.ltb_spec target (currentOffset h)); [|lia].
  rewrite Z.sub_0_r, (u64_small target) in Hs by lia.
  set (h1 := {| data := data h;
                currentMagic := magicAfter (target / 4) (startMagic (data h));
                currentOffset := target;
                io := Some (raw_seek raw (u64 (offset (data h) + target))) |}) in *.
  assert (Hinv : magic_invariant h1) by reflexivity.
  destruct (RGSS_ioRead_decodes garbage h1 _ len eq_refl)
    as (n & buf & h2 & Hr & Hi);
    [simpl; lia | simpl; lia | lia | exact Hinv |].
  exists h1, n, buf, h2. repeat split; try done.
Qed.

(** X4.  The bounds of an empty entry do not hold a cursor back: on an
    entry of size 0, [seek(target)] succeeds for a target beyond the entry
    and the following [read(len)] stores [len] bytes, taken from the stream
    after the entry. *)
Theorem empty_entry_read_after_seek
    (h : RGSS_entryHandle) (raw : RawIo) (target len : Z) :
  io h = Some raw ->
  size (data h) = 0 ->
  0 < target -> 0 <= len -> target + len < 2 ^ 63 ->
  exists h1 buf h2,
    RGSS_ioSeek h target = Some (1, h1) /\
    RGSS_ioRead garbage h1 len = Some (len, buf, h2) /\
    Z.of_nat (length buf) = len /\
    currentOffset h2 = target + len.
Proof.
  intros Hio Hs Ht Hlen Hbig.
  assert (Hseek : exists h1, RGSS_ioSeek h target = Some (1, h1) /\
            data h1 = data h /\ currentOffset h1 = target /\ is_Some (io h1)).
  { destruct (Z.eq_dec target (currentOffset h)) as [E|Hne].
    - exists h. rewrite RGSS_ioSeek_same by done. rewrite Hio. eauto.
    - eexists. rewrite (RGSS_ioSeek_move h raw target Hio Hne).
      + split; [reflexivity|]. simpl. eauto.
      + rewrite Hs. change (u64 (0 - 1)) with (2 ^ 64 - 1). lia. }
  destruct Hseek as (h1 & Hseek & Hd & Ho & [raw1 Hio1]).
  exists h1. unfold RGSS_ioRead. rewrite Hio1, Hd, Hs, Ho.
  assert (Hu : u64 (0 - target) = 2 ^ 64 - target).
  { unfold u64. symmetry. apply (Z.mod_unique _ _ (-1)); lia. }
  rewrite Hu. replace (Z.min (2 ^ 64 - target) len) with len by lia.
  rewrite (u64_small (target + len)) by lia.
  set (raw2 := raw_seek raw1 _).
  destruct (read_loop_spec garbage (Z.to_nat len) target (currentMagic h1) raw2)
    as (buf & r2 & Hl & Hlen' & _);
    [lia | subst raw2; simpl; apply u64_range | lia |].
  rewrite Z2Nat.id in Hl by lia. rewrite Hl.
  eexists buf, _. rewrite sint64_small by lia.
  split; [exact Hseek|]. split; [reflexivity|]. split; [lia | reflexivity].
Qed.

End HandleFacts.

Lemma read_in_two_steps_witness :
  exists n1 buf1 h1 n2 buf2 h2 n,
    RGSS_ioRead 0 handle_one 3 = Some (n1, buf1, h1) /\
    RGSS_ioRead 0 h1 4 = Some (n2, buf2, h2) /\
    RGSS_ioRead 0 handle_one (3 + 4) = Some (n, buf1 ++ buf2, h2) /\
    (3 + 4 < 2 ^ 63 -> n = n1 + n2).
Proof.
  apply (read_in_two_steps 0 handle_one (raw_duplicate archive_one) 3 4);
    [reflexivity | simpl; lia | simpl; lia | simpl; lia | simpl; lia
     | lia | lia].
Defined.

Lemma read_count_and_cursor_witness :
  exists n buf h',
    RGSS_ioRead 0 handle_one 100 = Some (n, buf, h') /\ n = 8.
Proof.
  destruct (read_count_and_cursor 0 handle_one (raw_duplicate archive_one) 100)
    as (n & buf & h' & Hr & Hn & _);
    [reflexivity | simpl; lia | simpl; lia | lia |].
  exists n, buf, h'. split; [exact Hr | exact Hn].
Defined.

Lemma rewind_restores_keystream_witness :
  exists h1,
    RGSS_ioSeek {| data := entry_one; currentMagic := 12345;
                   currentOffset := 6;
                   io := Some (raw_duplicate archive_one) |} 2 = Some (1, h1) /\
    magic_invariant h1.
Proof.
  destruct (rewind_restores_keystream 0
              {| data := entry_one; currentMagic := 12345; currentOffset := 6;
                 io := Some (raw_duplicate archive_one) |}
              (raw_duplicate archive_one) 2 1)
    as (h1 & _ & _ & _ & Hs & _ & _ & Hinv & _);
    [reflexivity | simpl; lia | simpl; lia | simpl; lia | simpl; lia | lia |].
  exists h1. split; [exact Hs | exact Hinv].
Defined.

Lemma empty_entry_read_after_seek_witness :
  exists h1 buf h2,
    RGSS_ioSeek empty_handle 3 = Some (1, h1) /\
    RGSS_ioRead 0 h1 5 = Some (5, buf, h2) /\
    Z.of_nat (length buf) = 5 /\
    currentOffset h2 = 3 + 5.
Proof.
  apply (empty_entry_read_after_seek 0 empty_handle (raw_duplicate archive_one) 3 5);
    [reflexivity | reflexivity | lia | lia | lia].
Defined.

(** * Further properties of the parser *)

Lemma byte_field b k :
  0 <= k -> 0 <= b < 256 ->
  Z.land (Z.shiftl b k) (Z.shiftl 0xFF k) = b * 2 ^ k.
Proof.
  intros Hk Hb. rewrite <- Z.shiftl_land.
  change 0xFF with (Z.ones 8). rewrite Z.land_ones, Z.mod_small by lia.
  apply Z.shiftl_mul_pow2. lia.
Qed.

Lemma lor_low_high x y n :
  0 <= n -> 0 <= x < 2 ^ n -> Z.lor x (y * 2 ^ n) = x + y * 2 ^ n.
Proof.
  intros Hn Hx.
  assert (E : Z.land x (y * 2 ^ n) = 0).
  { apply Z.bits_inj'. intros m Hm. rewrite Z.land_spec, Z.bits_0.
    destruct (Z.lt_ge_cases m n) as [Hlt|Hge].
    - rewrite Z.mul_pow2_bits_low by lia. apply andb_false_r.
    - destruct (Z.eq_dec x 0) as [->|Hne]; [rewrite Z.bits_0; done|].
      rewrite (Z.bits_above_log2 x m); [done | lia |].
      assert (Z.log2 x < n) by (apply Z.log2_lt_pow2; lia). lia. }
  rewrite <- Z.lxor_lor by exact E. symmetry. apply Z.add_nocarry_lxor. exact E.
Qed.

(** ** C strings read from a buffer *)

Lemma cstr_no_nul buf : 0 ∉ cstr buf.
Proof.
  induction buf as [|c buf IH]; simpl; [apply not_elem_of_nil|].
  destruct (Z.eqb_spec c 0); [apply not_elem_of_nil|].
  apply not_elem_of_cons. split; [lia | exact IH].
Qed.

Lemma cstr_id l : 0 ∉ l -> cstr l = l.
Proof.
  induction l as [|c l IH]; intros H; [done|]. simpl.
  apply not_elem_of_cons in H as [Hc Hl].
  destruct (Z.eqb_spec c 0); [lia|]. f_equal. apply IH. exact Hl.
Qed.

Lemma cstr_length_le buf : forall z : nat,
  buf !! z = Some 0 -> (length (cstr buf) <= z)%nat.
Proof.
  induction buf as [|c buf IH]; intros z Hz; [done|]. simpl.
  destruct (Z.eqb_spec c 0); [simpl; lia|].
  destruct z as [|z]; [simpl in Hz; congruence|].
  simpl in *. apply IH in Hz. lia.
Qed.

Lemma cstr_elem buf x :
  x ∈ cstr buf ->
  exists j : nat, (j < length (cstr buf))%nat /\ buf !! j = Some x.
Proof.
  induction buf as [|c buf IH]; simpl; [intros H; inversion H|].
  destruct (Z.eqb_spec c 0); [intros H; inversion H|].
  intros H. apply elem_of_cons in H as [->|H].
  - exists O. simpl. split; [lia | done].
  - destruct (IH H) as (j & Hj & Hl). exists (S j). simpl. split; [lia | done].
Qed.

(** A buffer with a NUL at or before index [n] and no backslash before [n]
    holds a well-formed path. *)
Lemma cstr_key_ok buf (n : nat) :
  (n <= 511)%nat ->
  (exists z : nat, (z <= n)%nat /\ buf !! z = Some 0) ->
  (forall j : nat, (j < n)%nat -> buf !! j <> Some 92) ->
  key_ok (cstr buf).
Proof.
  intros Hn (z & Hz & Hnul) Hbs.
  pose proof (cstr_length_le buf z Hnul) as Hlen.
  split; [apply cstr_no_nul|]. split; [|lia].
  intros H92. apply cstr_elem in H92 as (j & Hj & Hl).
  apply (Hbs j); [lia | exact Hl].
Qed.

Lemma register_dirs_keys (n : nat) (i : nat) : forall buf dirs buf' dirs',
  (n <= 511)%nat -> (i <= n)%nat -> length buf = 512%nat ->
  (exists z : nat, (z <= n)%nat /\ buf !! z = Some 0) ->
  (forall j : nat, (j < n)%nat -> buf !! j <> Some 92) ->
  (forall k, is_Some (dirs !! k) -> key_ok k) ->
  register_dirs i buf dirs = Done (buf', dirs') ->
  forall k, is_Some (dirs' !! k) -> key_ok k.
Proof.
  induction i as [|i IH]; intros buf dirs buf' dirs' Hn Hi Hlen Hnul Hbs Hd Hrun.
  - cbn in Hrun. injection Hrun as <- <-. exact Hd.
  - cbn [register_dirs] in Hrun.
    rewrite nameBuf_load_in in Hrun by lia. cbn [obind] in Hrun.
    destruct (default 0 (buf !! Z.to_nat (Z.of_nat (S i))) =? 47).
    + rewrite nameBuf_store_in in Hrun by lia. cbn [obind] in Hrun.
      set (buf1 := <[Z.to_nat (Z.of_nat (S i)) := 0]> buf) in *.
      assert (Hnul1 : exists z : nat, (z <= n)%nat /\ buf1 !! z = Some 0).
      { exists (S i). split; [lia|]. subst buf1. rewrite Nat2Z.id.
        apply list_lookup_insert_eq. lia. }
      assert (Hbs1 : forall j : nat, (j < n)%nat -> buf1 !! j <> Some 92).
      { intros j Hj. subst buf1.
        destruct (Nat.eq_dec j (Z.to_nat (Z.of_nat (S i)))) as [->|Hne].
        - rewrite list_lookup_insert_eq by lia. discriminate.
        - rewrite list_lookup_insert_ne by lia. apply Hbs. exact Hj. }
      assert (Hlen1 : length buf1 = 512%nat)
        by (subst buf1; rewrite length_insert; exact Hlen).
      refine (IH buf1 _ buf' dirs' Hn ltac:(lia) Hlen1 Hnul1 Hbs1 _ Hrun).
      intros k Hk. destruct (dirs !! cstr buf1) eqn:E; [apply Hd; exact Hk|].
      destruct (decide (k = cstr buf1)) as [->|Hne].
      * apply (cstr_key_ok buf1 n); assumption.
      * rewrite lookup_insert_ne in Hk by done. apply Hd. exact Hk.
    + exact (IH buf dirs buf' dirs' Hn ltac:(lia) Hlen Hnul Hbs Hd Hrun).
Qed.

(** The directory loop over a buffer that holds [name] and its terminator:
    the directories added are the prefixes of [name] that end before a
    slash at an index from 1 to [i]. *)
Lemma register_dirs_spec (name : list Z) :
  0 ∉ name -> (length name <= 511)%nat ->
  forall (i : nat) buf dirs,
    (i <= length name)%nat -> length buf = 512%nat ->
    (forall j : nat, (j <= i)%nat -> buf !! j = (name ++ [0]) !! j) ->
    exists buf' dirs',
      register_dirs i buf dirs = Done (buf', dirs') /\
      forall p, is_Some (dirs' !! p) <->
        is_Some (dirs !! p) \/
        exists j : nat, (1 <= j <= i)%nat /\ name !! j = Some 47 /\
                        p = take j name.
Proof.
  intros Hnul Hlen.
  induction i as [|i IH]; intros buf dirs Hi Hbuf Hpre.
  - exists buf, dirs. split; [reflexivity|]. intros p. split; [tauto|].
    intros [H|(j & Hj & _)]; [exact H | lia].
  - cbn [register_dirs]. rewrite nameBuf_load_in by lia. cbn [obind].
    rewrite Nat2Z.id, (Hpre (S i)) by lia.
    destruct (Z.eqb_spec (default 0 ((name ++ [0]) !! S i)) 47) as [E|E].
    + assert (Hname : name !! S i = Some 47).
      { destruct (Nat.lt_ge_cases (S i) (length name)) as [Hlt|Hge].
        - rewrite lookup_app_l in E by done.
          destruct (name !! S i) as [c|] eqn:Ec; simpl in E; [congruence|].
          apply lookup_ge_None in Ec. lia.
        - replace (S i) with (length name + 0)%nat in E by lia.
          rewrite lookup_app_r in E by lia.
          replace (length name + 0 - length name)%nat with O in E by lia.
          simpl in E. lia. }
      apply lookup_lt_Some in Hname as Hlt.
      rewrite nameBuf_store_in by lia. cbn [obind]. rewrite Nat2Z.id.
      set (buf1 := <[S i := 0]> buf).
      assert (Hkey : cstr buf1 = take (S i) name).
      { rewrite (cstr_prefix (take (S i) name) buf1).
        - apply cstr_id. intros H. apply Hnul.
          apply elem_of_take in H as (k & Hk & _).
          apply list_elem_of_lookup. eauto.
        - intros k Hk. rewrite length_take in Hk. subst buf1.
          rewrite list_lookup_insert_ne by lia.
          rewrite Hpre, lookup_app_l, lookup_take_lt by lia. reflexivity.
        - rewrite length_take. replace (S i `min` length name)%nat with (S i) by lia.
          subst buf1. apply list_lookup_insert_eq. lia. }
      rewrite Hkey.
      set (dirs1 := match dirs !! take (S i) name with
                    | Some _ => dirs
                    | None => <[take (S i) name := true]> dirs
                    end).
      assert (Hd1 : forall p, is_Some (dirs1 !! p) <->
                is_Some (dirs !! p) \/ p = take (S i) name).
      { intros p. subst dirs1.
        destruct (dirs !! take (S i) name) eqn:Ed.
        - split; [tauto|]. intros [H| ->]; [exact H | rewrite Ed; eauto].
        - destruct (decide (p = take (S i) name)) as [->|Hne].
          + rewrite lookup_insert_eq. split; [tauto | eauto].
          + rewrite lookup_insert_ne by done. split; [tauto|].
            intros [H|H]; [exact H | contradiction]. }
      destruct (IH buf1 dirs1) as (buf' & dirs' & Hrun & Hchar);
        [lia | subst buf1; rewrite length_insert; exact Hbuf | |].
      { intros j Hj. subst buf1. rewrite list_lookup_insert_ne by lia.
        apply Hpre. lia. }
      exists buf', dirs'. split; [exact Hrun|].
      intros p. rewrite Hchar, Hd1. split.
      * intros [[H| ->]|(j & Hj & Hs & ->)]; [tauto | |].
        -- right. exists (S i). split; [lia | done].
        -- right. exists j. split; [lia | done].
      * intros [H|(j & Hj & Hs & ->)]; [tauto|].
        destruct (Nat.eq_dec j (S i)) as [->|Hne]; [tauto|].
        right. exists j. split; [lia | done].
    + assert (Hname : name !! S i <> Some 47).
      { intros H. apply lookup_lt_Some in H as Hlt.
        rewrite lookup_app_l, H in E by done. simpl in E. lia. }
      destruct (IH buf dirs) as (buf' & dirs' & Hrun & Hchar);
        [lia | exact Hbuf | intros j Hj; apply Hpre; lia |].
      exists buf', dirs'. split; [exact Hrun|].
      intros p. rewrite Hchar. split.
      * intros [H|(j & Hj & Hs & ->)]; [tauto|].
        right. exists j. split; [lia | done].
      * intros [H|(j & Hj & Hs & ->)]; [tauto|].
        destruct (Nat.eq_dec j (S i)) as [->|Hne]; [contradiction|].
        right. exists j. split; [lia | done].
Qed.

Section ParserMore.

Variable garbage : Z.

(** What a completed turn of the parse loop leaves behind, buffer
    included. *)
Lemma parse_entry_detail st nameLen key e st' :
  parse_inv st ->
  parse_entry garbage st = Done (StepEntry nameLen key e st') ->
  exists buf2 buf3,
    0 <= nameLen <= 511 /\
    length buf2 = 512%nat /\
    (forall j : nat, Z.of_nat j < nameLen ->
       buf2 !! j =
         name_bytes garbage (ps_io st) (pos (ps_io st) + 4)
           (nextMagic (ps_magic st)) nameLen !! j) /\
    buf2 !! Z.to_nat nameLen = Some 0 /\
    key = cstr buf2 /\
    register_dirs (Z.to_nat nameLen) buf2 (ps_dirHash st)
      = Done (buf3, ps_dirHash st') /\
    ps_entryHash st' = <[key := e]> (ps_entryHash st) /\
    pos (ps_io st) + 4 <= offset e <= Z.of_nat (length (content (ps_io st))) /\
    0 <= size e < 2 ^ 32 /\
    0 <= startMagic e < 2 ^ 32 /\
    parse_inv st' /\
    content (ps_io st') = content (ps_io st).
Proof.
  intros Hinv Hrun.
  pose proof (parse_entry_break garbage st) as Hbreak.
  pose proof (parse_entry_overrun garbage st Hinv) as Hover.
  destruct Hinv as (Hlen & Hp & Hm).
  set (r := ps_io st) in *. set (m := ps_magic st) in *.
  pose proof (readUint32_range garbage r) as Hraw.
  destruct (readUint32_stream garbage r Hp) as (Hc1 & Hp1 & _).
  destruct (readUint32_ok garbage r Hp) as (Hfit1 & Hpos1).
  destruct (snd (fst (readUint32 garbage r))) eqn:Eok;
    [|rewrite Hbreak in Hrun by done; discriminate].
  destruct (Z.le_gt_cases (Z.lxor (fst (fst (readUint32 garbage r))) m) 511)
    as [Hle|Hgt]; [|rewrite Hover in Hrun by (done || lia); discriminate].
  clear Hbreak Hover.
  apply proj1 in Hfit1. specialize (Hfit1 eq_refl). specialize (Hpos1 eq_refl).
  assert (Hn0 : 0 <= Z.lxor (fst (fst (readUint32 garbage r))) m < 2 ^ 32)
    by (apply lxor_range; [lia | exact Hraw | exact Hm]).
  unfold parse_entry in Hrun. fold r in Hrun. fold m in Hrun.
  destruct (readUint32 garbage r) as [[raw ok] r1].
  cbn [fst snd] in *. subst ok. cbn [negb advanceMagic] in Hrun.
  set (n := Z.lxor raw m) in *.
  destruct (read_name_ok garbage (Z.to_nat n) 0 (nextMagic m) r1
              (ps_nameBuf st) Hlen)
    as (r2 & buf1 & Hrn & Hlen1 & Hc2 & Hp2 & Hle2 & _ & _ & Hin);
    [lia | lia | lia |].
  rewrite Z.add_0_l, Z2Nat.id in Hrn by lia. rewrite Hrn in Hrun.
  cbn [obind] in Hrun.
  rewrite nameBuf_store_in in Hrun by lia. cbn [obind] in Hrun.
  set (buf2 := <[Z.to_nat n := 0]> buf1) in *.
  assert (Hp2' : 0 <= pos r2) by lia.
  pose proof (readUint32_range garbage r2) as Hraw2.
  destruct (readUint32_stream garbage r2 Hp2') as (Hc3 & Hp3 & Hle3).
  destruct (readUint32 garbage r2) as [[rawSize ok2] r3].
  cbn [fst snd] in Hraw2, Hc3, Hp3, Hle3. cbn [advanceMagic] in Hrun.
  destruct (register_dirs_ok (Z.to_nat n) buf2 (ps_dirHash st))
    as (buf3 & dirs & Hd & Hlen3).
  { subst buf2. rewrite length_insert. done. } { lia. }
  rewrite Hd in Hrun. cbn [obind] in Hrun.
  apply StepEntry_inj in Hrun as (<- & <- & <- & <-).
  cbn [ps_dirHash ps_entryHash ps_io offset size startMagic].
  assert (Hsz : 0 <= Z.lxor rawSize (magicAfter n (nextMagic m)) < 2 ^ 32).
  { apply lxor_range; [lia | exact Hraw2 |].
    apply magicAfter_range. apply nextMagic_range. }
  assert (Hr3 : pos r3 <= Z.of_nat (length (content r))).
  { rewrite <- Hc1, <- Hc2. apply Hle3. rewrite Hc2. apply Hle2.
    rewrite Hc1. lia. }
  exists buf2, buf3.
  split; [lia|]. split; [subst buf2; rewrite length_insert; done|].
  split.
  { intros j Hj. rewrite name_bytes_lookup by lia. subst buf2.
    rewrite list_lookup_insert_ne by lia.
    specialize (Hin j ltac:(lia)). simpl in Hin. rewrite Hin.
    rewrite (raw_byte_content garbage r r1) by done. rewrite Hpos1.
    reflexivity. }
  split; [subst buf2; apply list_lookup_insert_eq; lia|].
  split; [reflexivity|]. split; [exact Hd|]. split; [reflexivity|].
  unfold raw_tell. split; [lia|]. split; [exact Hsz|].
  split; [apply nextMagic_range|].
  split.
  { unfold parse_inv. cbn [ps_magic ps_io ps_nameBuf raw_seek pos].
    split; [exact Hlen3|]. split; [apply u64_range | apply nextMagic_range]. }
  cbn [raw_seek content]. congruence.
Qed.

(** The paths and the entries of the index while the loop runs. *)
Lemma parse_loop_index fuel : forall st st',
  parse_inv st ->
  (forall k, is_Some (ps_entryHash st !! k) -> key_ok k) ->
  (forall k, is_Some (ps_dirHash st !! k) -> key_ok k) ->
  (forall k e, ps_entryHash st !! k = Some e ->
     0 <= offset e <= Z.of_nat (length (content (ps_io st))) /\
     0 <= size e < 2 ^ 32 /\ 0 <= startMagic e < 2 ^ 32) ->
  parse_loop garbage fuel st = Done st' ->
  (forall k, is_Some (ps_entryHash st' !! k) -> key_ok k) /\
  (forall k, is_Some (ps_dirHash st' !! k) -> key_ok k) /\
  (forall k e, ps_entryHash st' !! k = Some e ->
     0 <= offset e <= Z.of_nat (length (content (ps_io st))) /\
     0 <= size e < 2 ^ 32 /\ 0 <= startMagic e < 2 ^ 32) /\
  content (ps_io st') = content (ps_io st).
Proof.
  induction fuel as [|f IH]; intros st st' Hinv Hek Hdk Hent Hrun;
    [discriminate|].
  cbn [parse_loop] in Hrun.
  destruct (parse_entry garbage st) as [[rb|n key e st1]| |] eqn:E;
    cbn [obind] in Hrun; try discriminate.
  - injection Hrun as <-. cbn [ps_entryHash ps_dirHash ps_io].
    apply parse_entry_break_io in E as ->.
    destruct Hinv as (_ & Hp0 & _).
    destruct (readUint32_stream garbage (ps_io st) Hp0) as (Hcb & _).
    done.
  - destruct (parse_entry_detail st n key e st1 Hinv E)
      as (buf2 & buf3 & Hn & Hlen2 & Hname & Hnul & -> & Hd & Hins & Hoff
          & Hsz & Hsm & Hinv1 & Hc).
    assert (Hbs : forall j : nat, (j < Z.to_nat n)%nat -> buf2 !! j <> Some 92).
    { intros j Hj. rewrite Hname, name_bytes_lookup by lia.
      unfold slash. intros [= H92].
      destruct (Z.eqb_spec (u8 (Z.lxor
                 (raw_byte garbage (ps_io st) (pos (ps_io st) + 4 + Z.of_nat j))
                 (Z.land (magicAfter (Z.of_nat j) (nextMagic (ps_magic st))) 255))) 92);
        [discriminate | contradiction]. }
    assert (Hkey : key_ok (cstr buf2)).
    { apply (cstr_key_ok buf2 (Z.to_nat n)); [lia | | exact Hbs].
      exists (Z.to_nat n). split; [lia | exact Hnul]. }
    destruct (IH st1 st' Hinv1) as (H1 & H2 & H3 & H4); try exact Hrun.
    + intros k Hk. rewrite Hins in Hk.
      destruct (decide (k = cstr buf2)) as [->|Hne]; [exact Hkey|].
      rewrite lookup_insert_ne in Hk by done. apply Hek. exact Hk.
    + apply (register_dirs_keys (Z.to_nat n) (Z.to_nat n) buf2
               (ps_dirHash st) buf3 (ps_dirHash st1));
        [lia | lia | exact Hlen2 | | exact Hbs | exact Hdk | exact Hd].
      exists (Z.to_nat n). split; [lia | exact Hnul].
    + intros k e0 Hk. rewrite Hc. rewrite Hins in Hk.
      destruct (decide (k = cstr buf2)) as [->|Hne].
      * rewrite lookup_insert_eq in Hk. injection Hk as <-.
        destruct Hinv as (_ & Hp0 & _). lia.
      * rewrite lookup_insert_ne in Hk by done. apply (Hent k). exact Hk.
    + rewrite Hc in H3, H4. done.
Qed.

(** The four shifted bytes of [readUint32], put together. *)
Lemma readUint32_bytes (r : RawIo) (b0 b1 b2 b3 : Z) (rest : list Z) :
  0 <= pos r ->
  drop (Z.to_nat (pos r)) (content r) = b0 :: b1 :: b2 :: b3 :: rest ->
  0 <= b0 < 256 -> 0 <= b1 < 256 -> 0 <= b2 < 256 -> 0 <= b3 < 256 ->
  readUint32 garbage r = (le32 b0 b1 b2 b3, true, raw_seek r (pos r + 4)).
Proof.
  intros Hp Hd H0 H1 H2 H3. unfold readUint32, raw_read. rewrite Hd.
  cbn [take length lookup list_lookup default]. unfold id.
  change 0x000000FF with (Z.shiftl 0xFF 0).
  change 0x0000FF00 with (Z.shiftl 0xFF 8).
  change 0x00FF0000 with (Z.shiftl 0xFF 16).
  change 0xFF000000 with (Z.shiftl 0xFF 24).
  change 0x00 with 0. change 0x08 with 8. change 0x10 with 16.
  change 0x18 with 24.
  rewrite !byte_field by lia.
  rewrite (lor_low_high (b0 * 2 ^ 0) b1 8) by lia.
  rewrite (lor_low_high (b0 * 2 ^ 0 + b1 * 2 ^ 8) b2 16) by lia.
  rewrite (lor_low_high (b0 * 2 ^ 0 + b1 * 2 ^ 8 + b2 * 2 ^ 16) b3 24) by lia.
  unfold le32. f_equal. f_equal. lia.
Qed.

(** X5.  [readUint32] assembles the next four bytes of the stream as a
    little-endian word, reports success and leaves the stream four bytes
    further. *)
Theorem readUint32_little_endian (r : RawIo) (b0 b1 b2 b3 : Z) (rest : list Z) :
  0 <= pos r ->
  drop (Z.to_nat (pos r)) (content r) = b0 :: b1 :: b2 :: b3 :: rest ->
  0 <= b0 < 256 -> 0 <= b1 < 256 -> 0 <= b2 < 256 -> 0 <= b3 < 256 ->
  readUint32 garbage r = (le32 b0 b1 b2 b3, true, raw_seek r (pos r + 4)).
Proof. apply readUint32_bytes. Qed.

(** X6.  Header sniffing: a stream of at least eight bytes is taken for an
    archive exactly when it starts with the bytes [RGSSAD\0\1]; any other
    start, and any open for writing, is declined with a null return. *)
Theorem header_sniffing (r : RawIo) (nameBuf hd rest : list Z) (forWrite : Z) :
  pos r = 0 -> content r = hd ++ rest -> length hd = 8%nat ->
  Forall (fun b => 0 <= b < 256) hd ->
  (RGSS_openArchive garbage r 0 nameBuf = Done None <-> hd <> header_bytes) /\
  (forWrite <> 0 -> RGSS_openArchive garbage r forWrite nameBuf = Done None).
Proof.
  intros Hp Hc Hlen Hb.
  destruct hd as [|b0 [|b1 [|b2 [|b3 [|b4 [|b5 [|b6 [|b7 [|]]]]]]]]];
    try discriminate.
  repeat (apply Forall_cons in Hb as [? Hb]).
  split.
  2:{ intros Hfw. unfold RGSS_openArchive.
      destruct (Z.eqb_spec forWrite 0); [done | reflexivity]. }
  unfold RGSS_openArchive. cbn [Z.eqb negb].
  rewrite (readUint32_bytes r b0 b1 b2 b3 (b4 :: b5 :: b6 :: b7 :: rest))
    by (try lia; rewrite Hp, Hc; reflexivity).
  rewrite (readUint32_bytes (raw_seek r (pos r + 4)) b4 b5 b6 b7 rest)
    by (try lia; cbn [pos content raw_seek]; try lia; rewrite Hp, Hc; reflexivity).
  unfold le32, RGSS_HEADER_1, RGSS_HEADER_2, header_bytes.
  destruct (Z.eqb_spec (b0 + 2 ^ 8 * b1 + 2 ^ 16 * b2 + 2 ^ 24 * b3) 0x53534752)
    as [E1|E1];
  destruct (Z.eqb_spec (b4 + 2 ^ 8 * b5 + 2 ^ 16 * b6 + 2 ^ 24 * b7) 0x1004441)
    as [E2|E2]; cbn [negb orb].
  - assert (b0 = 82 /\ b1 = 71 /\ b2 = 83 /\ b3 = 83) as (-> & -> & -> & ->) by lia.
    assert (b4 = 65 /\ b5 = 68 /\ b6 = 0 /\ b7 = 1) as (-> & -> & -> & ->) by lia.
    split; [|done].
    destruct (parse_loop _ _ _) as [st| |]; cbn [obind]; discriminate.
  - split; [|done]. intros _ [= -> -> -> -> -> -> -> ->]. apply E2. reflexivity.
  - split; [|done]. intros _ [= -> -> -> -> -> -> -> ->]. apply E1. reflexivity.
  - split; [|done]. intros _ [= -> -> -> -> -> -> -> ->]. apply E1. reflexivity.
Qed.

Lemma RGSS_openArchive_index r nameBuf d :
  length nameBuf = 512%nat -> 0 <= pos r ->
  RGSS_openArchive garbage r 0 nameBuf = Done (Some d) ->
  keys_ok d /\
  (forall k e, entryHash d !! k = Some e ->
     0 <= offset e <= Z.of_nat (length (content r)) /\
     0 <= size e < 2 ^ 32 /\ 0 <= startMagic e < 2 ^ 32) /\
  content (archiveIo d) = content r.
Proof.
  intros Hlen Hp Hopen.
  destruct (RGSS_openArchive_parsed garbage r nameBuf d Hopen) as (st & Hrun & ->).
  destruct (parse_start_inv garbage r nameBuf Hlen Hp) as (Hinv & Hc).
  destruct (parse_loop_index (parse_fuel r)
              (parse_start (after_header garbage r) nameBuf) st Hinv)
    as (H1 & H2 & H3 & H4); try exact Hrun.
  - intros k [e He]. cbn in He. rewrite lookup_empty in He. discriminate.
  - intros k [e He]. cbn in He. rewrite lookup_empty in He. discriminate.
  - intros k e He. cbn in He. rewrite lookup_empty in He. discriminate.
  - cbn [parse_start ps_io] in H3, H4. rewrite Hc in H3, H4.
    unfold keys_ok. cbn [entryHash dirHash archiveIo]. done.
Qed.

(** X7.  Path normalisation: every path in the file index and in the
    directory index of an opened archive is free of backslashes and of NUL
    bytes and is at most 511 bytes long. *)
Theorem parsed_paths_normalised (r : RawIo) (nameBuf : list Z)
    (d : RGSS_archiveData) :
  length nameBuf = 512%nat -> 0 <= pos r ->
  RGSS_openArchive garbage r 0 nameBuf = Done (Some d) ->
  keys_ok d.
Proof.
  intros Hlen Hp Hopen.
  apply (RGSS_openArchive_index r nameBuf d Hlen Hp Hopen).
Qed.

(** X8.  Every entry of an opened archive starts inside the stream, has a
    size below 2^32 and a 32-bit [startMagic]; [openRead] on its path gives
    a handle at offset 0 that satisfies the handle invariant and reads from
    a stream with the archive's bytes. *)
Theorem parsed_entries_well_formed (r : RawIo) (nameBuf : list Z)
    (d : RGSS_archiveData) (k : list Z) (e : RGSS_entryData) :
  length nameBuf = 512%nat -> 0 <= pos r ->
  RGSS_openArchive garbage r 0 nameBuf = Done (Some d) ->
  entryHash d !! k = Some e ->
  0 <= offset e <= Z.of_nat (length (content r)) /\
  0 <= size e < 2 ^ 32 /\
  0 <= startMagic e < 2 ^ 32 /\
  exists h raw,
    RGSS_openRead d k = Some h /\ data h = e /\ currentOffset h = 0 /\
    magic_invariant h /\ io h = Some raw /\ content raw = content r.
Proof.
  intros Hlen Hp Hopen Hk.
  destruct (RGSS_openArchive_index r nameBuf d Hlen Hp Hopen) as (_ & Hent & Hc).
  destruct (Hent k e Hk) as (H1 & H2 & H3).
  split; [exact H1|]. split; [exact H2|]. split; [exact H3|].
  unfold RGSS_openRead. rewrite Hk.
  eexists _, _. split; [reflexivity|]. cbn.
  repeat split. exact Hc.
Qed.

(** X9.  Directory inference: when the decrypted name of an entry has no
    NUL byte, its path is that name and the turn of the parse loop adds to
    the directory index exactly the proper prefixes of the path that end
    just before a slash at an index from 1 on; a slash at index 0 adds
    nothing. *)
Theorem entry_directories_registered
    (st : ParseState) (nameLen : Z) (key : list Z) (e : RGSS_entryData)
    (st' : ParseState) :
  parse_inv st ->
  parse_entry garbage st = Done (StepEntry nameLen key e st') ->
  0 ∉ name_bytes garbage (ps_io st) (pos (ps_io st) + 4)
        (nextMagic (ps_magic st)) nameLen ->
  key = name_bytes garbage (ps_io st) (pos (ps_io st) + 4)
          (nextMagic (ps_magic st)) nameLen /\
  length key = Z.to_nat nameLen /\
  forall p, is_Some (ps_dirHash st' !! p) <->
    is_Some (ps_dirHash st !! p) \/
    exists i : nat, (1 <= i < length key)%nat /\ key !! i = Some 47 /\
                    p = take i key.
Proof.
  intros Hinv Hrun Hnul0.
  destruct (parse_entry_detail st nameLen key e st' Hinv Hrun)
    as (buf2 & buf3 & Hn & Hlen2 & Hname & Hnul & -> & Hd & _).
  set (name := name_bytes garbage (ps_io st) (pos (ps_io st) + 4)
                 (nextMagic (ps_magic st)) nameLen) in *.
  assert (Hlen : length name = Z.to_nat nameLen) by apply name_bytes_length.
  assert (Hpre : forall j : nat, (j <= Z.to_nat nameLen)%nat ->
            buf2 !! j = (name ++ [0]) !! j).
  { intros j Hj. destruct (Nat.eq_dec j (Z.to_nat nameLen)) as [->|Hne].
    - rewrite Hnul. replace (Z.to_nat nameLen) with (length name + 0)%nat by lia.
      rewrite lookup_app_r by lia.
      replace (length name + 0 - length name)%nat with O by lia. reflexivity.
    - rewrite lookup_app_l by lia. apply Hname. lia. }
  assert (Hkey : cstr buf2 = name).
  { rewrite (cstr_prefix name buf2).
    - apply cstr_id. exact Hnul0.
    - intros k Hk. rewrite Hpre, lookup_app_l by lia. reflexivity.
    - rewrite Hlen. exact Hnul. }
  rewrite Hkey. split; [reflexivity|]. split; [exact Hlen|].
  destruct (register_dirs_spec name Hnul0 ltac:(lia) (Z.to_nat nameLen) buf2
              (ps_dirHash st) ltac:(lia) Hlen2 Hpre)
    as (buf' & dirs' & Hrun' & Hchar).
  rewrite Hd in Hrun'. injection Hrun' as _ <-.
  intros p. rewrite Hchar. split.
  - intros [H|(j & Hj & Hs & ->)]; [tauto|].
    right. exists j. apply lookup_lt_Some in Hs as Hlt.
    split; [lia | done].
  - intros [H|(j & Hj & Hs & ->)]; [tauto|].
    right. exists j. split; [lia | done].
Qed.

End ParserMore.

(** * Enumeration *)

(** A path either has no slash or splits at its last slash. *)
Lemma last_slash_split (k : list Z) :
  47 ∉ k \/ exists dir base, k = dir ++ 47 :: base /\ 47 ∉ base.
Proof.
  induction k as [|c k IH]; [left; apply not_elem_of_nil|].
  destruct IH as [Hno|(dir & base & -> & Hb)].
  - destruct (Z.eq_dec c 47) as [->|Hne].
    + right. exists [], k. done.
    + left. apply not_elem_of_cons. done.
  - right. exists (c :: dir), base. done.
Qed.

(** The downward scan over a buffer that holds [k] and its terminator. *)
Lemma find_slash_down_spec (k junk : list Z) : forall i : nat,
  (i <= length k)%nat ->
  match find_slash_down i (k ++ 0 :: junk) with
  | Some j => (j <= i)%nat /\ k !! j = Some 47 /\
              forall j' : nat, (j < j' <= i)%nat -> k !! j' <> Some 47
  | None => forall j' : nat, (j' <= i)%nat -> k !! j' <> Some 47
  end.
Proof.
  assert (Hat : forall i : nat, (i <= length k)%nat ->
            match (k ++ 0 :: junk) !! i with
            | Some c => c =? 47 | None => false end = true <->
            k !! i = Some 47).
  { intros i Hi. destruct (Nat.eq_dec i (length k)) as [->|Hne].
    - rewrite list_lookup_middle by done.
      rewrite (proj2 (lookup_ge_None k (length k))) by lia. split; discriminate.
    - rewrite lookup_app_l by lia. destruct (k !! i) as [c|]; [|split; discriminate].
      rewrite Z.eqb_eq. split; [intros ->; done | intros [= ->]; done]. }
  induction i as [|i IH]; intros Hi; cbn [find_slash_down].
  - destruct (match (k ++ 0 :: junk) !! 0%nat with
              | Some c => c =? 47 | None => false end) eqn:E.
    + apply Hat in E; [|lia]. split; [lia|]. split; [exact E|]. intros; lia.
    + intros j' Hj'. replace j' with O by lia. intros H.
      apply Hat in H; [congruence | lia].
  - destruct (match (k ++ 0 :: junk) !! S i with
              | Some c => c =? 47 | None => false end) eqn:E.
    + apply Hat in E; [|lia]. split; [lia|]. split; [exact E|]. intros; lia.
    + specialize (IH ltac:(lia)).
      assert (Hn : k !! S i <> Some 47).
      { intros H. apply Hat in H; [congruence | lia]. }
      destruct (find_slash_down i (k ++ 0 :: junk)) as [j|].
      * destruct IH as (Hj & Hs & Hafter). split; [lia|]. split; [exact Hs|].
        intros j' Hj'. destruct (Nat.eq_dec j' (S i)) as [->|]; [exact Hn|].
        apply Hafter. lia.
      * intros j' Hj'. destruct (Nat.eq_dec j' (S i)) as [->|]; [exact Hn|].
        apply IH. lia.
Qed.

Section EnumerateFacts.

Variable garbage : Z.

Lemma enumerate_key_slash (dirname dir base : list Z) :
  0 ∉ dir ++ 47 :: base -> 47 ∉ base ->
  (length (dir ++ 47%Z :: base) <= 511)%nat ->
  enumerate_key garbage dirname (dir ++ 47 :: base) =
    Done (if decide (dir = dirname) then Some base else None).
Proof.
  intros Hnul Hbase Hlen. unfold enumerate_key.
  set (k := dir ++ 47 :: base) in *.
  cbv zeta. rewrite (cstr_id k) by exact Hnul.
  destruct (Nat.ltb_spec 512 (length k + 1)); [lia|].
  destruct (Nat.leb_spec 512 (length k)); [lia|].
  set (junk := replicate (511 - length k) garbage).
  assert (Hk : k !! length dir = Some 47)
    by (subst k; apply list_lookup_middle; done).
  assert (Hafter : forall j : nat, (length dir < j)%nat -> k !! j <> Some 47).
  { intros j Hj H47. subst k.
    rewrite lookup_app_r in H47 by lia.
    destruct (j - length dir)%nat as [|t] eqn:Et; [lia|]. simpl in H47.
    apply Hbase. apply list_elem_of_lookup. eauto. }
  assert (Hdl : (length dir < length k)%nat) by (apply lookup_lt_Some in Hk; done).
  pose proof (find_slash_down_spec k junk (length k) ltac:(lia)) as Hfind.
  destruct (find_slash_down (length k) (k ++ 0 :: junk)) as [j|].
  2:{ exfalso. apply (Hfind (length dir)); [lia | exact Hk]. }
  destruct Hfind as (Hj & Hs & Hlast).
  assert (j = length dir) as ->.
  { destruct (Nat.lt_trichotomy j (length dir)) as [Hlt|[->|Hgt]]; [|done|].
    - exfalso. apply (Hlast (length dir)); [lia | exact Hk].
    - exfalso. apply (Hafter j); [lia | exact Hs]. }
  apply not_elem_of_app in Hnul as [Hnd Hnb].
  apply not_elem_of_cons in Hnb as [_ Hnb].
  assert (Hdir : cstr (<[length dir := 0]> (k ++ 0 :: junk)) = dir).
  { rewrite (cstr_prefix dir).
    - apply cstr_id. exact Hnd.
    - intros t Ht. rewrite list_lookup_insert_ne by lia.
      subst k. rewrite <- app_assoc, lookup_app_l by lia. reflexivity.
    - apply list_lookup_insert_eq. rewrite length_app. lia. }
  assert (Hdrop : drop (S (length dir)) (k ++ 0 :: junk) = base ++ 0 :: junk).
  { subst k. rewrite <- app_assoc. cbn [app].
    change (47 :: base ++ 0 :: junk) with ([47] ++ (base ++ 0 :: junk)).
    rewrite app_assoc, drop_app_length'
      by (rewrite length_app; simpl; lia).
    reflexivity. }
  assert (Hbn : cstr (base ++ 0 :: junk) = base).
  { rewrite (cstr_prefix base).
    - apply cstr_id. exact Hnb.
    - intros t Ht. rewrite lookup_app_l by lia. reflexivity.
    - apply list_lookup_middle. reflexivity. }
  rewrite Hdir, Hdrop, Hbn.
  destruct (decide (dir = dirname)); [|reflexivity].
  destruct (decide (0 ∈ base ++ 0 :: junk)) as [_|Hn]; [reflexivity|].
  exfalso. apply Hn. apply elem_of_app. right. left.
Qed.

Lemma enumerate_key_noslash (dirname k : list Z) :
  0 ∉ k -> 47 ∉ k -> (length k <= 511)%nat ->
  enumerate_key garbage dirname k =
    Done (if decide ([] = dirname) then Some k else None).
Proof.
  intros Hnul Hno Hlen. unfold enumerate_key.
  cbv zeta. rewrite (cstr_id k) by exact Hnul.
  destruct (Nat.ltb_spec 512 (length k + 1)); [lia|].
  destruct (Nat.leb_spec 512 (length k)); [lia|].
  set (junk := replicate (511 - length k) garbage).
  pose proof (find_slash_down_spec k junk (length k) ltac:(lia)) as Hfind.
  destruct (find_slash_down (length k) (k ++ 0 :: junk)) as [j|].
  { exfalso. destruct Hfind as (_ & Hs & _).
    apply Hno. apply list_elem_of_lookup. eauto. }
  destruct (decide ([] = dirname)); [|reflexivity].
  destruct (decide (0 ∈ k ++ 0 :: junk)) as [_|Hn].
  - rewrite (cstr_prefix k).
    + rewrite (cstr_id k) by exact Hnul. reflexivity.
    + intros t Ht. rewrite lookup_app_l by lia. reflexivity.
    + apply list_lookup_middle. reflexivity.
  - exfalso. apply Hn. apply elem_of_app. right. left.
Qed.

(** One key: the callback gets [b] exactly when the key is [dirname/b], or
    is [b] itself for the root, [b] free of slashes. *)
Lemma enumerate_key_spec (dirname k : list Z) :
  key_ok k ->
  exists r, enumerate_key garbage dirname k = Done r /\
    forall b, r = Some b <->
      (47 ∉ b) /\ (k = dirname ++ 47 :: b \/ (dirname = [] /\ k = b)).
Proof.
  intros (Hnul & _ & Hlen).
  destruct (last_slash_split k) as [Hno|(dir & base & -> & Hb)].
  - rewrite enumerate_key_noslash by done. eexists. split; [reflexivity|].
    intros b. destruct (decide ([] = dirname)) as [<-|Hne].
    + split.
      * intros [= <-]. split; [exact Hno | right; done].
      * intros (Hb & [->|[_ ->]]); [|done].
        exfalso. apply Hno. simpl. apply elem_of_cons. left. done.
    + split; [discriminate|].
      intros (Hb & [->|[-> _]]); [|done].
      exfalso. apply Hno. apply elem_of_app. right. apply elem_of_cons. left. done.
  - rewrite enumerate_key_slash by done. eexists. split; [reflexivity|].
    intros b. destruct (decide (dir = dirname)) as [<-|Hne].
    + split.
      * intros [= <-]. split; [exact Hb | left; done].
      * intros (Hb' & [E|[_ E]]).
        -- apply app_inv_head in E. injection E as ->. done.
        -- exfalso. apply Hb'. rewrite <- E. apply elem_of_app. right.
           apply elem_of_cons. left. done.
    + split; [discriminate|].
      intros (Hb' & [E|[_ E]]).
      * exfalso. apply Hne.
        apply (not_elem_of_app_cons_inv_r 47 47 dir base dirname b); done.
      * exfalso. apply Hb'. rewrite <- E. apply elem_of_app. right.
        apply elem_of_cons. left. done.
Qed.

Lemma enumerate_keys_spec (dirname : list Z) (keys : list (list Z)) :
  (forall k, k ∈ keys -> key_ok k) ->
  exists names, enumerate_keys garbage dirname keys = Done names /\
    forall b, b ∈ names <->
      (47 ∉ b) /\ exists k, k ∈ keys /\
        (k = dirname ++ 47 :: b \/ (dirname = [] /\ k = b)).
Proof.
  induction keys as [|k keys IH]; intros Hok.
  - exists []. split; [reflexivity|]. intros b. split.
    + intros H. inversion H.
    + intros (_ & k & Hk & _). inversion Hk.
  - destruct (enumerate_key_spec dirname k) as (r & Hr & Hchar).
    { apply Hok. left. }
    destruct IH as (names & Hrun & Hnames).
    { intros k' Hk'. apply Hok. right. exact Hk'. }
    cbn [enumerate_keys]. rewrite Hr. cbn [obind]. rewrite Hrun. cbn [obind].
    eexists. split; [reflexivity|]. intros b.
    assert (Hiff : b ∈ match r with Some b0 => b0 :: names | None => names end
                   <-> r = Some b \/ b ∈ names).
    { destruct r as [b0|].
      - rewrite elem_of_cons. split; intros [H|H]; auto; [left; congruence|].
        injection H as ->. left. done.
      - split; [auto | intros [H|H]; [discriminate | done]]. }
    rewrite Hiff, Hchar, Hnames. split.
    + intros [(Hb & Hk)|(Hb & k' & Hk' & Hrel)].
      * split; [exact Hb|]. exists k. split; [left | exact Hk].
      * split; [exact Hb|]. exists k'. split; [right; exact Hk' | exact Hrel].
    + intros (Hb & k' & Hk' & Hrel). apply elem_of_cons in Hk' as [->|Hk'].
      * left. done.
      * right. split; [exact Hb|]. exists k'. done.
Qed.

Lemma elem_of_map_keys {A} (m : gmap (list Z) A) k :
  k ∈ (map_to_list m).*1 <-> is_Some (m !! k).
Proof.
  rewrite list_elem_of_fmap. split.
  - intros ([k' v] & -> & H). apply elem_of_map_to_list in H. simpl. eauto.
  - intros [v Hv]. exists (k, v). split; [done|].
    apply elem_of_map_to_list. exact Hv.
Qed.

Lemma RGSS_enumerateFiles_spec (d : RGSS_archiveData) (dirname : list Z) :
  keys_ok d ->
  exists names, RGSS_enumerateFiles garbage d dirname = Done names /\
    forall b, b ∈ names <->
      (47 ∉ b) /\ exists k,
        (is_Some (entryHash d !! k) \/ is_Some (dirHash d !! k)) /\
        (k = dirname ++ 47 :: b \/ (dirname = [] /\ k = b)).
Proof.
  intros (Hfiles & Hdirs). unfold RGSS_enumerateFiles.
  destruct (enumerate_keys_spec dirname
              ((map_to_list (entryHash d)).*1 ++ (map_to_list (dirHash d)).*1))
    as (names & Hrun & Hnames).
  { intros k Hk. apply elem_of_app in Hk as [Hk|Hk];
      apply elem_of_map_keys in Hk; [apply Hfiles | apply Hdirs]; exact Hk. }
  exists names. split; [exact Hrun|]. intros b. rewrite Hnames.
  split; intros (Hb & k & Hk & Hrel); (split; [exact Hb|]); exists k;
    (split; [|exact Hrel]).
  - apply elem_of_app in Hk as [Hk|Hk]; apply elem_of_map_keys in Hk; tauto.
  - apply elem_of_app. destruct Hk as [Hk|Hk]; [left | right];
      apply elem_of_map_keys; exact Hk.
Qed.

(** X10.  Enumeration of a directory of an index with well-formed paths
    calls back with the name [b] exactly when [b] has no slash and
    [dirname/b] is a file or a directory of the index; for the root
    ([dirname] empty) also when [b] itself is one.  Nothing nested deeper
    is listed. *)
Theorem enumerate_lists_children (d : RGSS_archiveData) (dirname : list Z) :
  keys_ok d ->
  exists names, RGSS_enumerateFiles garbage d dirname = Done names /\
    forall b, b ∈ names <->
      (47 ∉ b) /\ exists k,
        (is_Some (entryHash d !! k) \/ is_Some (dirHash d !! k)) /\
        (k = dirname ++ 47 :: b \/ (dirname = [] /\ k = b)).
Proof. apply RGSS_enumerateFiles_spec. Qed.

(** X11.  On an archive opened by [RGSS_openArchive], enumeration never
    copies a path past the end of its 512-byte buffers: it runs to its end
    for every directory name. *)
Theorem enumerate_opened_archive_in_bounds
    (r : RawIo) (nameBuf : list Z) (d : RGSS_archiveData) (dirname : list Z) :
  length nameBuf = 512%nat -> 0 <= pos r ->
  RGSS_openArchive garbage r 0 nameBuf = Done (Some d) ->
  exists names, RGSS_enumerateFiles garbage d dirname = Done names.
Proof.
  intros Hlen Hp Hopen.
  destruct (RGSS_openArchive_index garbage r nameBuf d Hlen Hp Hopen) as (Hk & _).
  destruct (RGSS_enumerateFiles_spec d dirname Hk) as (names & Hrun & _).
  exists names. exact Hrun.
Qed.

End EnumerateFacts.

(** ** The further properties on the sample archives *)

Lemma readUint32_little_endian_witness :
  readUint32 0 archive_one = (le32 82 71 83 83, true, raw_seek archive_one 4).
Proof.
  apply (readUint32_little_endian 0 archive_one 82 71 83 83
           (skipn 4 (content archive_one)));
    [simpl; lia | reflexivity | lia | lia | lia | lia].
Defined.

Lemma header_sniffing_witness :
  (RGSS_openArchive 0 archive_one 0 nameBuf_init = Done None <->
   header_bytes <> header_bytes) /\
  (1 <> 0 -> RGSS_openArchive 0 archive_one 1 nameBuf_init = Done None).
Proof.
  apply (header_sniffing 0 archive_one nameBuf_init header_bytes
           (skipn 8 (content archive_one)) 1);
    [reflexivity | reflexivity | reflexivity |].
  unfold header_bytes. repeat constructor; lia.
Defined.

Lemma parsed_paths_normalised_witness :
  exists d,
    RGSS_openArchive 0 archive_two 0 nameBuf_init = Done (Some d) /\ keys_ok d.
Proof.
  assert (H : exists d,
             RGSS_openArchive 0 archive_two 0 nameBuf_init = Done (Some d)).
  { eexists. vm_compute. reflexivity. }
  destruct H as [d H]. exists d. split; [exact H|].
  apply (parsed_paths_normalised 0 archive_two nameBuf_init d);
    [reflexivity | simpl; lia | exact H].
Defined.

Lemma parsed_entries_well_formed_witness :
  exists d,
    RGSS_openArchive 0 archive_one 0 nameBuf_init = Done (Some d) /\
    0 <= size entry_one < 2 ^ 32.
Proof.
  assert (H : exists d,
             RGSS_openArchive 0 archive_one 0 nameBuf_init = Done (Some d) /\
             entryHash d !! path_a_b = Some entry_one).
  { eexists. split; vm_compute; reflexivity. }
  destruct H as (d & H & Hk). exists d. split; [exact H|].
  apply (parsed_entries_well_formed 0 archive_one nameBuf_init d path_a_b
           entry_one); [reflexivity | simpl; lia | exact H | exact Hk].
Defined.

Lemma entry_directories_registered_witness :
  exists st',
    parse_entry 0 (parse_start (after_header 0 archive_one) nameBuf_init)
      = Done (StepEntry 3 path_a_b entry_one st') /\
    (is_Some (ps_dirHash st' !! [97]) <->
     is_Some ((∅ : gmap (list Z) bool) !! [97]) \/
     exists i : nat, (1 <= i < length path_a_b)%nat /\
                     path_a_b !! i = Some 47 /\ [97] = take i path_a_b).
Proof.
  assert (H : exists st',
             parse_entry 0 (parse_start (after_header 0 archive_one) nameBuf_init)
               = Done (StepEntry 3 path_a_b entry_one st')).
  { eexists. vm_compute. reflexivity. }
  destruct H as [st' H]. exists st'. split; [exact H|].
  assert (Hinv : parse_inv (parse_start (after_header 0 archive_one) nameBuf_init))
    by (apply parse_start_inv; [reflexivity | simpl; lia]).
  assert (Hnul : 0 ∉ name_bytes 0
            (ps_io (parse_start (after_header 0 archive_one) nameBuf_init))
            (pos (ps_io (parse_start (after_header 0 archive_one) nameBuf_init)) + 4)
            (nextMagic (ps_magic (parse_start (after_header 0 archive_one) nameBuf_init)))
            3).
  { replace (name_bytes _ _ _ _ _) with path_a_b by (vm_compute; reflexivity).
    unfold path_a_b. rewrite !not_elem_of_cons.
    repeat split; try lia. apply not_elem_of_nil. }
  exact (proj2 (proj2 (entry_directories_registered 0 _ 3 path_a_b entry_one st'
                         Hinv H Hnul)) [97]).
Defined.

Lemma enumerate_lists_children_witness :
  exists d names,
    RGSS_openArchive 0 archive_two 0 nameBuf_init = Done (Some d) /\
    RGSS_enumerateFiles 0 d [97] = Done names /\
    ([98] ∈ names <->
     (47 ∉ [98]) /\ exists k,
       (is_Some (entryHash d !! k) \/ is_Some (dirHash d !! k)) /\
       (k = [97] ++ 47 :: [98] \/ ([97] = [] /\ k = [98]))).
Proof.
  assert (H : exists d,
             RGSS_openArchive 0 archive_two 0 nameBuf_init = Done (Some d)).
  { eexists. vm_compute. reflexivity. }
  destruct H as [d H].
  assert (Hk : keys_ok d).
  { apply (RGSS_openArchive_index 0 archive_two nameBuf_init d);
      [reflexivity | simpl; lia | exact H]. }
  destruct (enumerate_lists_children 0 d [97] Hk) as (names & Hrun & Hchar).
  exists d, names. split; [exact H|]. split; [exact Hrun | apply Hchar].
Defined.

Lemma enumerate_opened_archive_in_bounds_witness :
  exists d names,
    RGSS_openArchive 0 archive_two 0 nameBuf_init = Done (Some d) /\
    RGSS_enumerateFiles 0 d [] = Done names.
Proof.
  assert (H : exists d,
             RGSS_openArchive 0 archive_two 0 nameBuf_init = Done (Some d)).
  { eexists. vm_compute. reflexivity. }
  destruct H as [d H].
  destruct (enumerate_opened_archive_in_bounds 0 archive_two nameBuf_init d []
              ltac:(reflexivity) ltac:(simpl; lia) H) as (names & Hrun).
  exists d, names. split; [exact H | exact Hrun].
Defined.

(** * The archiver adapter *)

(** X12.  [stat] and [openRead] agree: [stat] finds exactly the paths that
    are files or directories of the index; it reports a regular file
    exactly when [openRead] opens the path, and then the reported size is
    the length of the opened handle; a path that is only a directory has
    size 0; every result is read-only with zero time stamps. *)
Theorem stat_and_openRead_agree (d : RGSS_archiveData) (k : list Z) :
  (is_Some (RGSS_stat d k) <->
   is_Some (entryHash d !! k) \/ is_Some (dirHash d !! k)) /\
  match RGSS_stat d k, RGSS_openRead d k with
  | Some s, Some h =>
      filetype s = PHYSFS_FILETYPE_REGULAR /\ filesize s = RGSS_ioLength h /\
      RGSS_ioTell h = 0 /\ readonly s = 1 /\
      modtime s = 0 /\ createtime s = 0 /\ accesstime s = 0
  | Some s, None =>
      filetype s = PHYSFS_FILETYPE_DIRECTORY /\ filesize s = 0 /\
      is_Some (dirHash d !! k) /\ readonly s = 1 /\
      modtime s = 0 /\ createtime s = 0 /\ accesstime s = 0
  | None, Some _ => False
  | None, None => entryHash d !! k = None /\ dirHash d !! k = None
  end.
Proof.
  unfold RGSS_stat, RGSS_openRead, RGSS_ioLength, RGSS_ioTell.
  destruct (entryHash d !! k) as [e|]; destruct (dirHash d !! k) as [b|]; cbn.
  - split; [split; eauto|]. repeat split.
  - split; [split; eauto|]. repeat split.
  - split; [split; eauto|]. repeat split. eauto.
  - split; [|done]. split.
    + intros [s Hs]. discriminate.
    + intros [[e He]|[b Hb]]; discriminate.
Qed.

(** * The facade *)

(** X13.  Name resolution is sound and complete against PhysFS: a name it
    returns exists, and is either the requested name or the assembled
    candidate of one of the category's extensions; when it returns nothing,
    neither the requested name nor any candidate exists.  The requested
    name wins over every extension. *)
Theorem resolution_sound_and_complete
    (PHYSFS_exists : string -> bool) (name : string) (type : FileType) :
  match completeFileName PHYSFS_exists name type with
  | Some found =>
      PHYSFS_exists found = true /\
      (PHYSFS_exists name = true -> found = name) /\
      (found = name \/
       type <> Undefined /\
       exists ext, In ext (fileExtensions type) /\
                   found = snprintf_name name ext)
  | None =>
      PHYSFS_exists name = false /\
      forall ext, In ext (fileExtensions type) ->
                  PHYSFS_exists (snprintf_name name ext) = false
  end.
Proof.
  assert (Htry : forall exts,
    match try_extensions PHYSFS_exists name exts with
    | Some found => PHYSFS_exists found = true /\
                    exists ext, In ext exts /\ found = snprintf_name name ext
    | None => forall ext, In ext exts ->
                          PHYSFS_exists (snprintf_name name ext) = false
    end).
  { induction exts as [|ext exts IH]; cbn [try_extensions].
    - intros ext [].
    - destruct (PHYSFS_exists (snprintf_name name ext)) eqn:E.
      + split; [exact E|]. exists ext. split; [left; done | done].
      + destruct (try_extensions PHYSFS_exists name exts) as [found|].
        * destruct IH as (Hex & ext' & Hin & ->). split; [exact Hex|].
          exists ext'. split; [right; exact Hin | done].
        * intros ext' [<-|Hin]; [exact E | apply IH; exact Hin]. }
  unfold completeFileName.
  destruct (PHYSFS_exists name) eqn:En.
  - split; [exact En|]. split; [done | left; done].
  - specialize (Htry (fileExtensions type)).
    destruct type; cbn [fileExtensions] in *;
      try (destruct (try_extensions PHYSFS_exists name _) as [found|];
           [destruct Htry as (Hex & ext & Hin & ->);
            split; [exact Hex|]; split; [discriminate|];
            right; split; [discriminate|]; exists ext; done
           | split; [reflexivity | exact Htry]]).
    split; [reflexivity|]. intros ext [].
Qed.

(** A name found by the extension loop exists. *)
Lemma try_extensions_exists (PHYSFS_exists : string -> bool)
    (name found : string) : forall exts,
  try_extensions PHYSFS_exists name exts = Some found ->
  PHYSFS_exists found = true.
Proof.
  induction exts as [|ext exts IH]; cbn [try_extensions]; [discriminate|].
  destruct (PHYSFS_exists (snprintf_name name ext)) eqn:E.
  - intros [= <-]. exact E.
  - exact IH.
Qed.

Lemma completeFileName_exists (PHYSFS_exists : string -> bool)
    (name found : string) (type : FileType) :
  completeFileName PHYSFS_exists name type = Some found ->
  PHYSFS_exists found = true.
Proof.
  unfold completeFileName. destruct (PHYSFS_exists name) eqn:E.
  - intros [= <-]. exact E.
  - destruct type; try discriminate; apply try_extensions_exists.
Qed.

(** X20.  [FileSystem::exists] and [openReadInt] agree on what is missing:
    [exists] is false exactly when [openReadInt] throws [NoFileError], and
    the exception then carries the requested name, not a candidate.  A
    handle that [openReadInt] returns was opened under a name for which
    [PHYSFS_exists] holds; a name that exists but cannot be opened gives
    [PHYSFSError] with the last PhysFS error, so [exists] being true does
    not promise a handle. *)
Theorem exists_and_openReadInt_agree
    {PHYSFS_File : Type} (PHYSFS_exists : string -> bool)
    (PHYSFS_openRead : string -> option PHYSFS_File)
    (PHYSFS_getLastError : string) (filename : string) (type : FileType) :
  (FileSystem_exists PHYSFS_exists filename type = false <->
   openReadInt PHYSFS_exists PHYSFS_openRead PHYSFS_getLastError filename type
     = inl (NoFileError filename)) /\
  match openReadInt PHYSFS_exists PHYSFS_openRead PHYSFS_getLastError
          filename type with
  | inr handle =>
      exists found,
        completeFileName PHYSFS_exists filename type = Some found /\
        PHYSFS_exists found = true /\ PHYSFS_openRead found = Some handle
  | inl (NoFileError name) =>
      name = filename /\
      completeFileName PHYSFS_exists filename type = None
  | inl (PHYSFSError msg) =>
      msg = PHYSFS_getLastError /\
      exists found,
        completeFileName PHYSFS_exists filename type = Some found /\
        PHYSFS_exists found = true /\ PHYSFS_openRead found = None
  end.
Proof.
  unfold FileSystem_exists, openReadInt.
  destruct (completeFileName PHYSFS_exists filename type) as [found|] eqn:Ec.
  - pose proof (completeFileName_exists _ _ _ _ Ec) as Hex.
    destruct (PHYSFS_openRead found) as [handle|] eqn:Eo.
    + split; [split; discriminate|]. exists found. done.
    + split; [split; discriminate|]. split; [reflexivity|]. exists found. done.
  - split; [split; reflexivity|]. done.
Qed.

(** * The keystream state object *)

(** X14.  [advancePath] called [n] times returns the low bytes of [n]
    successive keystream words and leaves the word advanced [n] times: these
    are the masks the parser applies to the bytes of a file name. *)
Theorem advancePath_masks_are_name_masks
    (garbage : Z) (r : RawIo) (p : Z) (n : nat) (s : MagicState) :
  0 <= ms_offset s -> ms_offset s + Z.of_nat n < 2 ^ 64 ->
  let '(masks, s') := run_calls advancePath n s in
  ms_magic s' = magicAfter (Z.of_nat n) (ms_magic s) /\
  ms_offset s' = ms_offset s + Z.of_nat n /\
  length masks = n /\
  (forall j : nat, (j < n)%nat ->
     masks !! j = Some (Z.land (magicAfter (Z.of_nat j) (ms_magic s)) 0xFF)) /\
  name_bytes garbage r p (ms_magic s) (Z.of_nat n) =
    zip_with (fun j mask => slash (u8 (Z.lxor (raw_byte garbage r (p + j)) mask)))
             (seqZ 0 (Z.of_nat n)) masks.
Proof.
  revert s p. induction n as [|n IH]; intros s p Ho Hb.
  - cbn. repeat split; try lia; intros; lia.
  - cbn [run_calls advancePath].
    specialize (IH {| ms_magic := nextMagic (ms_magic s);
                      ms_offset := u64 (ms_offset s + 1) |} (p + 1)).
    cbn [ms_magic ms_offset] in IH.
    rewrite (u64_small (ms_offset s + 1)) in * by lia.
    destruct (run_calls advancePath n _) as [masks s'].
    destruct IH as (Hm & Hoff & Hlen & Hj & Hname); [lia | lia |].
    rewrite (u8_small (Z.land (ms_magic s) 255)) by apply land_255_range.
    split.
    { rewrite Hm. replace (Z.of_nat (S n)) with (Z.of_nat n + 1) by lia.
      symmetry. apply magicAfter_succ_r. lia. }
    split; [lia|]. split; [simpl; lia|]. split.
    { intros [|j] Hlt; [reflexivity|]. cbn [lookup list_lookup].
      change (masks !! j = Some (Z.land (magicAfter (Z.of_nat (S j)) (ms_magic s)) 255)).
      rewrite Hj by lia.
      replace (Z.of_nat (S j)) with (Z.of_nat j + 1) by lia.
      rewrite (magicAfter_succ_r (Z.of_nat j)) by lia. reflexivity. }
    unfold name_bytes in *.
    rewrite (seqZ_cons 0 (Z.of_nat (S n))) by lia.
    cbn [fmap list_fmap zip_with]. f_equal.
    replace (Z.pred (Z.of_nat (S n))) with (Z.of_nat n) by lia.
    change (Z.succ 0) with (1 + 0).
    rewrite <- (fmap_add_seqZ 1 0 (Z.of_nat n)).
    rewrite <- list_fmap_compose. 
    assert (E : forall l,
      zip_with (fun j mask => slash (u8 (Z.lxor (raw_byte garbage r (p + j)) mask)))
        (Z.add 1 <$> l) masks =
      zip_with (fun j mask => slash (u8 (Z.lxor (raw_byte garbage r (p + 1 + j)) mask)))
        l masks).
    { clear. intros l. revert masks. induction l as [|x l IHl]; intros [|m masks];
        cbn; try reflexivity. f_equal; [|apply IHl].
      replace (p + (1 + x)) with (p + 1 + x) by lia. reflexivity. }
    rewrite E, <- Hname. apply list_fmap_ext. intros i x Hx. cbn.
    replace (p + (1 + x)) with (p + 1 + x) by lia.
    replace (1 + x) with (x + 1) by lia.
    apply lookup_seqZ in Hx as [-> Hi].
    rewrite (magicAfter_succ_r (0 + Z.of_nat i)) by lia. reflexivity.
Qed.

(** X15.  [advanceData] advances the word on each call made at an offset
    that is a multiple of 4, so [n] calls from offset [o] return [n] bytes,
    move the offset by [n] and advance the word
    [(o + n + 3) / 4 - (o + 3) / 4] times: once per block entered. *)
Theorem advanceData_block_starts (n : nat) (s : MagicState) :
  0 <= ms_offset s -> ms_offset s + Z.of_nat n < 2 ^ 64 ->
  let '(bytes, s') := run_calls advanceData n s in
  ms_offset s' = ms_offset s + Z.of_nat n /\
  ms_magic s' =
    magicAfter ((ms_offset s + Z.of_nat n + 3) / 4 - (ms_offset s + 3) / 4)
               (ms_magic s) /\
  length bytes = n.
Proof.
  revert s. induction n as [|n IH]; intros s Ho Hb.
  - cbn. rewrite Z.add_0_r, Z.sub_diag. repeat split; lia.
  - cbn [run_calls advanceData].
    specialize (IH {| ms_magic := if ms_offset s mod 4 =? 0
                                  then nextMagic (ms_magic s) else ms_magic s;
                      ms_offset := u64 (ms_offset s + 1) |}).
    cbn [ms_magic ms_offset] in IH.
    rewrite (u64_small (ms_offset s + 1)) in * by lia.
    destruct (run_calls advanceData n _) as [bytes s'].
    destruct IH as (Hoff & Hm & Hlen); [lia | lia |].
    split; [lia|]. split; [|simpl; lia].
    rewrite Hm.
    set (o := ms_offset s) in *.
    assert (H1 : (if o mod 4 =? 0 then nextMagic (ms_magic s) else ms_magic s)
                 = magicAfter ((o + 1 + 3) / 4 - (o + 3) / 4) (ms_magic s)).
    { destruct (Z.eqb_spec (o mod 4) 0) as [E|E].
      - replace ((o + 1 + 3) / 4 - (o + 3) / 4) with 1
          by (Z.to_euclidean_division_equations; lia). reflexivity.
      - replace ((o + 1 + 3) / 4 - (o + 3) / 4) with 0
          by (Z.to_euclidean_division_equations; lia). reflexivity. }
    rewrite H1.
    assert (Hd1 := block_mono (o + 3) (o + 1 + 3) ltac:(lia)).
    assert (Hd2 := block_mono (o + 1 + 3) (o + 1 + Z.of_nat n + 3) ltac:(lia)).
    rewrite <- magicAfter_add by lia. f_equal.
    replace (o + Z.of_nat (S n) + 3) with (o + 1 + Z.of_nat n + 3) by lia. lia.
Qed.

(** * Time stamps *)

(** X16.  Stamps are consecutive modulo 2^32: the [k]-th of [n] calls
    returns the counter plus [k], and up to 2^32 calls in a row return
    pairwise different stamps. *)
Theorem genTimeStamps_distinct (n : nat) (stampCounter : Z) :
  0 <= stampCounter < 2 ^ 32 -> Z.of_nat n <= 2 ^ 32 ->
  (forall k : nat, (k < n)%nat ->
     genTimeStamps n stampCounter !! k = Some (u32 (stampCounter + Z.of_nat k))) /\
  NoDup (genTimeStamps n stampCounter).
Proof.
  intros Hc Hn.
  assert (Hk : forall (m : nat) c (k : nat), 0 <= c < 2 ^ 32 -> (k < m)%nat ->
            genTimeStamps m c !! k = Some (u32 (c + Z.of_nat k))).
  { induction m as [|m IH]; intros c k Hcr Hlt; [lia|].
    cbn [genTimeStamps genTimeStamp]. destruct k as [|k].
    - cbn. rewrite Z.add_0_r, u32_small by lia. reflexivity.
    - cbn [lookup list_lookup].
      change (genTimeStamps m (u32 (c + 1)) !! k = Some (u32 (c + Z.of_nat (S k)))).
      rewrite IH by (try apply u32_range; lia). f_equal. unfold u32.
      rewrite Zplus_mod_idemp_l. f_equal. lia. }
  assert (Hlen : forall (m : nat) c, length (genTimeStamps m c) = m).
  { induction m as [|m IH]; intros c; [done|]. cbn. rewrite IH. done. }
  split; [intros k Hlt; apply Hk; assumption|].
  apply NoDup_alt. intros i j x Hi Hj.
  apply lookup_lt_Some in Hi as Hil. apply lookup_lt_Some in Hj as Hjl.
  rewrite Hlen in Hil, Hjl.
  rewrite Hk in Hi by (assumption || lia). rewrite Hk in Hj by (assumption || lia).
  injection Hi as <-. injection Hj as Hj. unfold u32 in Hj.
  Z.to_euclidean_division_equations. lia.
Qed.

(** * Termination of the parse loop *)

Section Termination.

Variable garbage : Z.

Lemma parse_loop_more_fuel f : forall st (k : nat),
  parse_loop garbage f st <> NoFuel ->
  parse_loop garbage (f + k) st = parse_loop garbage f st.
Proof.
  induction f as [|f IH]; intros st k Hne; [done|].
  cbn [Nat.add parse_loop] in *.
  destruct (parse_entry garbage st) as [[|n key e st1]| |]; cbn [obind] in *;
    try reflexivity.
  apply IH. exact Hne.
Qed.

(** X17.  The loop of [RGSS_openArchive] ends: every turn that does not
    break consumes the four bytes of a [nameLen] field, so on a stream of
    [len] bytes it stops within [len + 1] turns, and a larger bound on the
    number of turns changes nothing. *)
Theorem parse_terminates (r : RawIo) (forWrite : Z) (nameBuf : list Z) (fuel : nat) :
  length nameBuf = 512%nat -> 0 <= pos r ->
  Z.of_nat (length (content r)) + 2 ^ 32 <= 2 ^ 64 ->
  (parse_fuel r <= fuel)%nat ->
  parse_loop garbage (parse_fuel r)
    (parse_start (after_header garbage r) nameBuf) <> NoFuel /\
  parse_loop garbage fuel (parse_start (after_header garbage r) nameBuf) =
    parse_loop garbage (parse_fuel r)
      (parse_start (after_header garbage r) nameBuf) /\
  RGSS_openArchive garbage r forWrite nameBuf <> NoFuel.
Proof.
  intros Hlen Hp Hbig Hfuel.
  destruct (parse_start_inv garbage r nameBuf Hlen Hp) as (Hinv & Hc).
  assert (Hne : parse_loop garbage (parse_fuel r)
                  (parse_start (after_header garbage r) nameBuf) <> NoFuel).
  { apply parse_loop_fuel; [exact Hinv | | unfold parse_fuel; lia |].
    - cbn [parse_start ps_io]. rewrite Hc. exact Hbig.
    - destruct Hinv as (_ & Hp' & _). cbn [parse_start ps_io] in *.
      rewrite Hc. unfold parse_fuel. lia. }
  split; [exact Hne|]. split.
  - replace fuel with (parse_fuel r + (fuel - parse_fuel r))%nat by lia.
    apply parse_loop_more_fuel. exact Hne.
  - apply RGSS_openArchive_returns; assumption.
Qed.

End Termination.

(** * The static name buffer *)

Lemma cstr_agree b1 : forall b2 (n : nat),
  (forall j : nat, (j <= n)%nat -> b1 !! j = b2 !! j) ->
  b1 !! n = Some 0 ->
  cstr b1 = cstr b2.
Proof.
  induction b1 as [|c b1 IH]; intros b2 n Hag Hnul; [done|].
  pose proof (Hag O ltac:(lia)) as H0. simpl in H0.
  destruct b2 as [|c2 b2]; [done|]. simpl in H0. injection H0 as <-.
  simpl. destruct (Z.eqb_spec c 0) as [->|Hc]; [done|].
  destruct n as [|n]; [simpl in Hnul; congruence|].
  f_equal. apply (IH b2 n); [|exact Hnul].
  intros j Hj. apply (Hag (S j)). lia.
Qed.

Lemma register_dirs_agree (i : nat) : forall b1 b2 dirs,
  length b1 = 512%nat -> length b2 = 512%nat -> (i < 512)%nat ->
  (forall j : nat, (j <= i)%nat -> b1 !! j = b2 !! j) ->
  exists c1 c2 dirs',
    register_dirs i b1 dirs = Done (c1, dirs') /\
    register_dirs i b2 dirs = Done (c2, dirs') /\
    length c1 = 512%nat /\ length c2 = 512%nat.
Proof.
  induction i as [|i IH]; intros b1 b2 dirs H1 H2 Hi Hag.
  - exists b1, b2, dirs. done.
  - cbn [register_dirs]. rewrite !nameBuf_load_in by lia. cbn [obind].
    rewrite Nat2Z.id, <- (Hag (S i)) by lia.
    destruct (default 0 (b1 !! S i) =? 47).
    + rewrite !nameBuf_store_in by lia. cbn [obind]. rewrite Nat2Z.id.
      assert (Hag' : forall j : nat, (j <= S i)%nat ->
                <[S i := 0]> b1 !! j = <[S i := 0]> b2 !! j).
      { intros j Hj. destruct (Nat.eq_dec j (S i)) as [->|Hne].
        - rewrite !list_lookup_insert_eq by lia. reflexivity.
        - rewrite !list_lookup_insert_ne by lia. apply Hag. lia. }
      rewrite <- (cstr_agree (<[S i := 0]> b1) (<[S i := 0]> b2) (S i) Hag')
        by (apply list_lookup_insert_eq; lia).
      apply IH; [rewrite length_insert; done | rewrite length_insert; done
                 | lia | intros j Hj; apply Hag'; lia].
    + apply IH; [done | done | lia | intros j Hj; apply Hag; lia].
Qed.

Section StaticBuffer.

Variable garbage : Z.

Lemma read_name_agree fuel : forall nameLen i magic r b1 b2,
  length b1 = 512%nat -> length b2 = 512%nat -> 0 <= i ->
  (forall j : nat, Z.of_nat j < i -> b1 !! j = b2 !! j) ->
  match read_name garbage fuel nameLen i magic r b1,
        read_name garbage fuel nameLen i magic r b2 with
  | Done (i1, m1, r1, c1), Done (i2, m2, r2, c2) =>
      i1 = i2 /\ m1 = m2 /\ r1 = r2 /\ 0 <= i1 /\
      length c1 = 512%nat /\ length c2 = 512%nat /\
      forall j : nat, Z.of_nat j < i1 -> c1 !! j = c2 !! j
  | Overrun a, Overrun b => a = b
  | NoFuel, NoFuel => True
  | _, _ => False
  end.
Proof.
  induction fuel as [|f IH]; intros nameLen i magic r b1 b2 H1 H2 Hi Hag.
  - cbn. done.
  - destruct (Z.lt_ge_cases i nameLen) as [Hlt|Hge].
    2:{ cbn [read_name]. destruct (Z.ltb_spec i nameLen); [lia|]. done. }
    destruct (Z.lt_ge_cases i 512) as [Hin|Hout].
    + rewrite !read_name_step by lia.
      apply IH; [rewrite length_insert; done | rewrite length_insert; done | lia |].
      intros j Hj. destruct (Nat.eq_dec j (Z.to_nat i)) as [->|Hne].
      * rewrite !list_lookup_insert_eq by lia. reflexivity.
      * rewrite !list_lookup_insert_ne by lia. apply Hag. lia.
    + cbn [read_name]. destruct (Z.ltb_spec i nameLen); [|lia].
      destruct (raw_read1 garbage r) as [c r']. cbn [advanceMagic].
      rewrite !nameBuf_store_out by lia. reflexivity.
Qed.

Lemma parse_entry_agree st1 st2 :
  parse_inv st1 -> same_but_nameBuf st1 st2 ->
  match parse_entry garbage st1, parse_entry garbage st2 with
  | Done (StepBreak r1), Done (StepBreak r2) => r1 = r2
  | Done (StepEntry n1 k1 e1 s1), Done (StepEntry n2 k2 e2 s2) =>
      n1 = n2 /\ k1 = k2 /\ e1 = e2 /\ parse_inv s1 /\ same_but_nameBuf s1 s2
  | Overrun a, Overrun b => a = b
  | NoFuel, NoFuel => True
  | _, _ => False
  end.
Proof.
  intros Hinv (Hm & Hio & He & Hd & Hl1 & Hl2).
  pose proof (parse_entry_detail garbage st1) as Hdet.
  pose proof Hinv as (_ & Hp & Hmr).
  pose proof (readUint32_range garbage (ps_io st1)) as Hraw.
  destruct (readUint32_stream garbage (ps_io st1) Hp) as (_ & Hp1 & _).
  unfold parse_entry in *. rewrite <- Hm, <- Hio, <- He, <- Hd.
  destruct (readUint32 garbage (ps_io st1)) as [[raw ok] r1].
  cbn [fst snd] in *. destruct ok; cbn [negb]; [|done].
  cbn [advanceMagic] in *.
  set (n := Z.lxor raw (ps_magic st1)) in *.
  assert (Hn : 0 <= n < 2 ^ 32) by (apply lxor_range; [lia | done | done]).
  pose proof (read_name_agree (Z.to_nat n) n 0 (nextMagic (ps_magic st1)) r1
                (ps_nameBuf st1) (ps_nameBuf st2) Hl1 Hl2 ltac:(lia)
                ltac:(intros; lia)) as Hrn.
  destruct (Z.le_gt_cases n 512) as [Hle|Hgt].
  2:{ pose proof (read_name_overrun garbage (Z.to_nat n) 0) as Hov.
      rewrite !Z.add_0_l, Z2Nat.id in Hov by lia.
      rewrite !Hov by lia. reflexivity. }
  destruct (read_name_ok garbage (Z.to_nat n) 0 (nextMagic (ps_magic st1)) r1
              (ps_nameBuf st1) Hl1) as (r2 & c1 & Hr1 & _); [lia | lia | lia |].
  rewrite Z.add_0_l, Z2Nat.id in Hr1 by lia. rewrite Hr1 in *.
  destruct (read_name garbage (Z.to_nat n) n 0 (nextMagic (ps_magic st1)) r1
              (ps_nameBuf st2)) as [[[[i2 m2] r2'] c2]| |]; try contradiction.
  destruct Hrn as (<- & <- & <- & _ & Hc1 & Hc2 & Hag). cbn [obind] in *.
  unfold nameBuf_store, NAMEBUF_SIZE in *.
  destruct (Z.ltb_spec n 512); [|reflexivity]. cbn [obind] in *.
  assert (Hag' : forall j : nat, (j <= Z.to_nat n)%nat ->
            <[Z.to_nat n := 0]> c1 !! j = <[Z.to_nat n := 0]> c2 !! j).
  { intros j Hj. destruct (Nat.eq_dec j (Z.to_nat n)) as [->|Hne].
    - rewrite !list_lookup_insert_eq by lia. reflexivity.
    - rewrite !list_lookup_insert_ne by lia. apply Hag. lia. }
  rewrite <- (cstr_agree _ _ (Z.to_nat n) Hag')
    by (apply list_lookup_insert_eq; lia).
  destruct (readUint32 garbage r2) as [[rawSize ok2] r3].
  destruct (register_dirs_agree (Z.to_nat n) (<[Z.to_nat n := 0]> c1)
              (<[Z.to_nat n := 0]> c2) (ps_dirHash st1))
    as (d1 & d2 & dirs' & Hd1 & Hd2 & Hld1 & Hld2);
    [rewrite length_insert; done | rewrite length_insert; done | lia | exact Hag' |].
  rewrite Hd1, Hd2 in *. cbn [obind] in *.
  destruct (Hdet _ _ _ _ Hinv eq_refl)
    as (_ & _ & _ & _ & _ & _ & _ & _ & _ & _ & _ & _ & Hinv' & _).
  split; [reflexivity|]. split; [reflexivity|]. split; [reflexivity|].
  split; [exact Hinv'|].
  unfold same_but_nameBuf. cbn. done.
Qed.

Lemma parse_loop_agree fuel : forall st1 st2,
  parse_inv st1 -> same_but_nameBuf st1 st2 ->
  match parse_loop garbage fuel st1, parse_loop garbage fuel st2 with
  | Done s1, Done s2 => same_but_nameBuf s1 s2
  | Overrun a, Overrun b => a = b
  | NoFuel, NoFuel => True
  | _, _ => False
  end.
Proof.
  induction fuel as [|f IH]; intros st1 st2 Hinv Hsame; [done|].
  cbn [parse_loop].
  pose proof (parse_entry_agree st1 st2 Hinv Hsame) as Hstep.
  destruct (parse_entry garbage st1) as [[rb1|n1 k1 e1 s1]| |];
    destruct (parse_entry garbage st2) as [[rb2|n2 k2 e2 s2]| |];
    try contradiction; cbn [obind]; try done.
  - destruct Hsame as (Hm & _ & He & Hd & Hl1 & Hl2).
    unfold same_but_nameBuf.
    cbn [ps_magic ps_io ps_entryHash ps_dirHash ps_nameBuf]. done.
  - destruct Hstep as (_ & _ & _ & Hinv1 & Hsame1). apply IH; assumption.
Qed.

(** X18.  What the static [nameBuf] holds from an earlier call does not
    matter: [RGSS_openArchive] returns the same result, index or overrun,
    for any two contents of the buffer. *)
Theorem openArchive_ignores_static_buffer
    (r : RawIo) (forWrite : Z) (nameBuf1 nameBuf2 : list Z) :
  length nameBuf1 = 512%nat -> length nameBuf2 = 512%nat -> 0 <= pos r ->
  RGSS_openArchive garbage r forWrite nameBuf1 =
  RGSS_openArchive garbage r forWrite nameBuf2.
Proof.
  intros H1 H2 Hp.
  destruct (parse_start_inv garbage r nameBuf1 H1 Hp) as (Hinv & _).
  pose proof (parse_loop_agree (parse_fuel r)
                (parse_start (after_header garbage r) nameBuf1)
                (parse_start (after_header garbage r) nameBuf2) Hinv
                ltac:(unfold same_but_nameBuf; cbn; done)) as Hag.
  unfold RGSS_openArchive, after_header in *.
  destruct (negb (forWrite =? 0)); [reflexivity|].
  destruct (readUint32 garbage r) as [[h1 ok1] r1]. cbn [snd] in *.
  destruct (readUint32 garbage r1) as [[h2 ok2] r2]. cbn [snd] in *.
  destruct (negb (h1 =? RGSS_HEADER_1) || negb (h2 =? RGSS_HEADER_2));
    [reflexivity|].
  destruct (parse_loop garbage (parse_fuel r) (parse_start r2 nameBuf1))
    as [s1|a|];
    destruct (parse_loop garbage (parse_fuel r) (parse_start r2 nameBuf2))
    as [s2|b|]; try contradiction; cbn [obind].
  - destruct Hag as (_ & -> & -> & -> & _). reflexivity.
  - subst. reflexivity.
  - reflexivity.
Qed.

End StaticBuffer.

(** ** The further properties at concrete inputs *)

Lemma advancePath_masks_are_name_masks_witness :
  ms_magic (snd (run_calls advancePath 3
                   {| ms_magic := nextMagic RGSS_MAGIC; ms_offset := 0 |}))
    = magicAfter 3 (nextMagic RGSS_MAGIC) /\
  length (fst (run_calls advancePath 3
                 {| ms_magic := nextMagic RGSS_MAGIC; ms_offset := 0 |})) = 3%nat.
Proof.
  pose proof (advancePath_masks_are_name_masks 0 archive_one 12 3
                {| ms_magic := nextMagic RGSS_MAGIC; ms_offset := 0 |}
                ltac:(simpl; lia) ltac:(simpl; lia)) as H.
  destruct (run_calls advancePath 3 _) as [masks s'].
  destruct H as (Hm & _ & Hlen & _).
  split; [exact Hm | exact Hlen].
Defined.

Lemma advanceData_block_starts_witness :
  ms_magic (snd (run_calls advanceData 5
                   {| ms_magic := RGSS_MAGIC; ms_offset := 0 |}))
    = magicAfter 2 RGSS_MAGIC.
Proof.
  pose proof (advanceData_block_starts 5
                {| ms_magic := RGSS_MAGIC; ms_offset := 0 |}
                ltac:(simpl; lia) ltac:(simpl; lia)) as H.
  destruct (run_calls advanceData 5 _) as [bytes s'].
  exact (proj1 (proj2 H)).
Defined.

Lemma genTimeStamps_distinct_witness :
  genTimeStamps 3 (2 ^ 32 - 1) !! 1%nat = Some (u32 (2 ^ 32 - 1 + 1)) /\
  NoDup (genTimeStamps 3 (2 ^ 32 - 1)).
Proof.
  destruct (genTimeStamps_distinct 3 (2 ^ 32 - 1) ltac:(lia) ltac:(simpl; lia))
    as (Hk & Hnd).
  split; [apply (Hk 1%nat); lia | exact Hnd].
Defined.

Lemma parse_terminates_witness :
  parse_loop 0 1000 (parse_start (after_header 0 archive_two) nameBuf_init) =
    parse_loop 0 (parse_fuel archive_two)
      (parse_start (after_header 0 archive_two) nameBuf_init) /\
  RGSS_openArchive 0 archive_two 0 nameBuf_init <> NoFuel.
Proof.
  destruct (parse_terminates 0 archive_two 0 nameBuf_init 1000)
    as (_ & H2 & H3);
    [reflexivity | simpl; lia | simpl; lia | vm_compute; lia |].
  split; [exact H2 | exact H3].
Defined.

Lemma openArchive_ignores_static_buffer_witness :
  RGSS_openArchive 0 archive_two 0 nameBuf_init =
  RGSS_openArchive 0 archive_two 0 (replicate 512 47).
Proof.
  apply (openArchive_ignores_static_buffer 0 archive_two 0 nameBuf_init
           (replicate 512 47));
    [reflexivity | reflexivity | simpl; lia].
Defined.

(** * Layout of the entry table *)

Section Layout.

Variable garbage : Z.

Lemma parse_entry_next st n key e st' :
  parse_entry garbage st = Done (StepEntry n key e st') ->
  pos (ps_io st') = u64 (offset e + size e) /\
  ps_magic st' = startMagic e.
Proof.
  unfold parse_entry.
  destruct (readUint32 garbage (ps_io st)) as [[raw ok] r1].
  destruct ok; cbn [negb]; [|discriminate]. cbn [advanceMagic].
  destruct (read_name _ _ _ _ _ _ _) as [[[[i m2] r2] b1]| |];
    cbn [obind]; try discriminate.
  destruct (nameBuf_store i 0 b1) as [b2| |]; cbn [obind]; try discriminate.
  destruct (readUint32 garbage r2) as [[rawSize ok2] r3].
  destruct (register_dirs _ _ _) as [[b3 d]| |]; cbn [obind]; try discriminate.
  intros H. apply StepEntry_inj in H as (_ & _ & <- & <-). done.
Qed.

(** X19.  Entries lie back to back: after an entry is recorded the parser
    skips its payload without reading it, so the next header is read at
    [offset + size] of the entry, under the keystream word that is the
    entry's [startMagic]. *)
Theorem next_header_follows_payload
    (st : ParseState) (n : Z) (key : list Z) (e : RGSS_entryData)
    (st' : ParseState) :
  parse_inv st ->
  Z.of_nat (length (content (ps_io st))) + 2 ^ 32 <= 2 ^ 64 ->
  parse_entry garbage st = Done (StepEntry n key e st') ->
  pos (ps_io st') = offset e + size e /\
  ps_magic st' = startMagic e /\
  offset e <= pos (ps_io st') /\
  pos (ps_io st) + 4 <= offset e.
Proof.
  intros Hinv Hbig Hrun.
  destruct (parse_entry_next st n key e st' Hrun) as (Hpos & Hm).
  destruct (parse_entry_detail garbage st n key e st' Hinv Hrun)
    as (_ & _ & _ & _ & _ & _ & _ & _ & _ & Hoff & Hsz & _).
  destruct Hinv as (_ & Hp & _).
  rewrite u64_small in Hpos by lia.
  repeat split; try assumption; lia.
Qed.

End Layout.

Lemma next_header_follows_payload_witness :
  exists st',
    parse_entry 0 (parse_start (after_header 0 archive_two) nameBuf_init)
      = Done (StepEntry 3 path_a_b entry_one st') /\
    pos (ps_io st') = offset entry_one + size entry_one.
Proof.
  assert (H : exists st',
             parse_entry 0 (parse_start (after_header 0 archive_two) nameBuf_init)
               = Done (StepEntry 3 path_a_b entry_one st')).
  { eexists. vm_compute. reflexivity. }
  destruct H as [st' H]. exists st'. split; [exact H|].
  assert (Hinv : parse_inv (parse_start (after_header 0 archive_two) nameBuf_init))
    by (apply parse_start_inv; [reflexivity | simpl; lia]).
  assert (Hbig : Z.of_nat (length (content
            (ps_io (parse_start (after_header 0 archive_two) nameBuf_init))))
            + 2 ^ 32 <= 2 ^ 64) by (vm_compute; discriminate).
  exact (proj1 (next_header_follows_payload 0 _ 3 path_a_b entry_one st'
                  Hinv Hbig H)).
Defined.
